(** * statsmodels.sysreg.sysmodel: systems of regression equations

    A shallow embedding of [statsmodels/sysreg/sysmodel.py] (classes
    [SysModel], [SysGLS], [SysWLS], [SysOLS], [SysResults]) together with
    the NumPy / SciPy array routines the module calls, and the properties
    of the estimation engine proved about them.

    Arrays are lists: a 1-D array is a list of numbers, a 2-D array the
    list of its rows.  The width of a 2-D array is read off its first row,
    so an array without rows carries no width of its own.  Python
    exceptions are values of [exn]; a computation that may raise returns
    [result].  Numbers are an abstract carrier ([Scalar]) with the
    operations the module uses; the laws a proof needs (ring or field laws)
    are stated as hypotheses where they are used.  [np.linalg.pinv], an
    iterative SVD routine, is an interface of its own ([Linalg]); the
    module [Exact] instantiates both with exact rational arithmetic. *)

From Stdlib Require Import String.
From Stdlib Require Import List Arith Bool Lia.
From Stdlib Require Import Ring Field ZArith QArith Qcanon.
Import ListNotations.

Local Close Scope Qc_scope.
Local Close Scope Q_scope.
Local Open Scope nat_scope.
Local Open Scope list_scope.

(** ** Python exceptions and fallible computations *)

Inductive exn : Type :=
| IndexError (msg : string)
| AttributeError (msg : string)
| TypeError (msg : string)
| ValueError (msg : string)
| LinAlgError (msg : string).

Definition result (A : Type) : Type := (exn + A)%type.

Definition raise {A : Type} (e : exn) : result A := inl e.
Definition ret {A : Type} (a : A) : result A := inr a.

Definition bind {A B : Type} (c : result A) (k : A -> result B) : result B :=
  match c with
  | inl e => inl e
  | inr a => k a
  end.

Notation "x <- c ;; k" := (bind c (fun x => k))
  (at level 61, c at next level, right associativity).

(** ** The numeric platform

    [num] stands for the floating-point numbers of the arrays; [ltb] is the
    strict comparison LAPACK uses on a pivot, [sqrt] and [div] the
    operations of the Cholesky routine. *)

Class Scalar : Type := {
  num : Type;
  zero : num;
  one : num;
  add : num -> num -> num;
  mul : num -> num -> num;
  sub : num -> num -> num;
  opp : num -> num;
  div : num -> num -> num;
  inv : num -> num;
  sqrt : num -> num;
  ltb : num -> num -> bool
}.

(** [np.linalg.pinv] on 2-D arrays *)
Class Linalg {F : Scalar} : Type := {
  np_linalg_pinv : list (list num) -> list (list num)
}.

Section Arrays.

Context {F : Scalar}.

Definition vector : Type := list num.
Definition matrix : Type := list (list num).

Definition nrows (A : matrix) : nat := length A.
Definition ncols (A : matrix) : nat := length (hd [] A).

(** [A[i][j]], reading [zero] outside the array *)
Definition entry (A : matrix) (i j : nat) : num := nth j (nth i A []) zero.

(** [np.ones(n)], [np.zeros(n)], [np.eye(n)] *)
Definition np_ones (n : nat) : vector := repeat one n.
Definition np_zeros (n : nat) : vector := repeat zero n.
Definition np_eye (n : nat) : matrix :=
  map (fun i => map (fun j => if i =? j then one else zero) (seq 0 n)) (seq 0 n).

(** [v * s] for a 1-D array [v] and a 0-d array [s] *)
Definition np_mul_scalar (v : vector) (s : num) : vector :=
  map (fun x => mul x s) v.

(** [np.diag(v)] for a 1-D array [v] *)
Fixpoint np_diag (v : vector) : matrix :=
  match v with
  | [] => []
  | x :: v' => (x :: np_zeros (length v')) :: map (cons zero) (np_diag v')
  end.

(** [A.T] and [np.transpose(A)] *)
Definition column (j : nat) (A : matrix) : vector :=
  map (fun r => nth j r zero) A.
Definition np_transpose (A : matrix) : matrix :=
  map (fun j => column j A) (seq 0 (ncols A)).

(** [np.dot(A, B)] for 2-D arrays: the inner dimensions must agree *)
Fixpoint vdot (u v : vector) : num :=
  match u, v with
  | x :: u', y :: v' => add (mul x y) (vdot u' v')
  | _, _ => zero
  end.

Definition matmul (A B : matrix) : matrix :=
  map (fun a => map (fun j => vdot a (column j B)) (seq 0 (ncols B))) A.

Definition np_dot (A B : matrix) : result matrix :=
  if ncols A =? nrows B then ret (matmul A B)
  else raise (ValueError "shapes not aligned").

(** [np.kron(A, B)] *)
Definition np_kron (A B : matrix) : matrix :=
  flat_map (fun a => map (fun b => flat_map (fun x => map (mul x) b) a) B) A.

(** [np.column_stack] of 1-D arrays (each becomes a column) and of 2-D
    arrays (placed side by side); the lengths, resp. the row counts, must
    agree *)
Definition column_stack_1d (vs : list vector) : result matrix :=
  match vs with
  | [] => raise (ValueError "need at least one array to concatenate")
  | v :: _ =>
      if forallb (fun u => length u =? length v) vs
      then ret (map (fun i => map (fun u => nth i u zero) vs) (seq 0 (length v)))
      else raise (ValueError "all the input array dimensions must match exactly")
  end.

Definition column_stack_2d (ms : list matrix) : result matrix :=
  match ms with
  | [] => raise (ValueError "need at least one array to concatenate")
  | m :: _ =>
      if forallb (fun u => nrows u =? nrows m) ms
      then ret (map (fun i => flat_map (fun u => nth i u []) ms) (seq 0 (nrows m)))
      else raise (ValueError "all the input array dimensions must match exactly")
  end.

(** [scipy.linalg.block_diag], applied to the unpacked list [ms] *)
Definition total_cols (ms : list matrix) : nat := list_sum (map ncols ms).

Fixpoint blocks (ms : list matrix) : matrix :=
  match ms with
  | [] => []
  | A :: rest =>
      map (fun r => r ++ np_zeros (total_cols rest)) A
      ++ map (fun r => np_zeros (ncols A) ++ r) (blocks rest)
  end.

Definition block_diag (ms : list matrix) : matrix :=
  match ms with
  | [] => [[]]
  | _ => blocks ms
  end.

(** [A.reshape(-1, 1)]: the entries in row-major order, one per row *)
Definition reshape_column (A : matrix) : matrix :=
  map (fun x => [x]) (concat A).

(** [np.linalg.cholesky(A)] (LAPACK [potrf], lower variant): row [i] of the
    factor is computed from row [i] of [A] and the rows before it; only the
    entries [A[i][j]] with [j <= i] are read, and the routine stops with
    [LinAlgError] at the first pivot that is not positive. *)
Definition chol_offdiag (a : vector) (cur : vector) (Lj : vector) : vector :=
  let j := length cur in
  cur ++ [div (sub (nth j a zero) (vdot cur Lj)) (nth j Lj zero)].

Fixpoint chol_rows (n : nat) (prev : matrix) (rows : matrix) : result matrix :=
  match rows with
  | [] => ret prev
  | a :: rest =>
      let i := length prev in
      let cur := fold_left (chol_offdiag a) prev [] in
      let d := sub (nth i a zero) (vdot cur cur) in
      if ltb zero d
      then chol_rows n (prev ++ [cur ++ sqrt d :: np_zeros (n - S i)]) rest
      else raise (LinAlgError "Matrix is not positive definite")
  end.

Definition np_linalg_cholesky (A : matrix) : result matrix :=
  if forallb (fun r => length r =? nrows A) A
  then chol_rows (nrows A) [] A
  else raise (LinAlgError "Last 2 dimensions of the array must be square").

(** ** Python values a caller may pass for [sigma] and [weights] *)

Inductive ndarray : Type :=
| Arr0 (x : num)                       (* shape () *)
| Arr1 (v : vector)                    (* shape (len(v),) *)
| Arr2 (m : matrix)                    (* shape (rows, cols) *)
| ArrN (d1 d2 d3 : nat) (ds : list nat). (* three or more axes *)

Definition shape (a : ndarray) : list nat :=
  match a with
  | Arr0 _ => []
  | Arr1 v => [length v]
  | Arr2 m => [nrows m; ncols m]
  | ArrN d1 d2 d3 ds => d1 :: d2 :: d3 :: ds
  end.

Definition ndim (a : ndarray) : nat := length (shape a).
Definition size (a : ndarray) : nat := fold_right Nat.mul 1 (shape a).

Inductive pyarg : Type :=
| PyNone
| PyFloat (x : num)
| PyList (l : list num)
| PyArray (a : ndarray).

End Arrays.

Arguments PyNone {F}.

(** ** The module [sysmodel.py] *)

Section Sysmodel.

Context {F : Scalar} {LA : Linalg}.

(** One equation of the system: [eq['endog']], a 1-D array of [N]
    observations, and [eq['exog']], an [N x K_i] array. *)
Record equation : Type := {
  eq_endog : vector;
  eq_exog : matrix
}.

(** *** class SysModel *)

Record SysModel : Type := {
  neqs : nat;
  nobs : nat;
  endog : matrix;
  exog : matrix;
  sp_exog : matrix
}.

(** [SysModel.__init__(self, sys)]: [sys[0]] raises [IndexError] on an
    empty list; the generators are consumed in the order of [sys]. *)
Definition SysModel_init (sys : list equation) : result SysModel :=
  match sys with
  | [] => raise (IndexError "list index out of range")
  | eq0 :: _ =>
      en <- column_stack_1d (map eq_endog sys) ;;
      ex <- column_stack_2d (map eq_exog sys) ;;
      ret {| neqs := length sys;
             nobs := length (eq_endog eq0);
             endog := np_transpose en;
             exog := ex;
             sp_exog := block_diag (map eq_exog sys) |}
  end.

(** *** class SysGLS *)

Record SysGLS : Type := {
  pool : SysModel;
  sigma : matrix;
  cholsigmainv : matrix;
  wexog : matrix;
  wendog : matrix;
  pinv_wexog : matrix
}.

(** The [if]/[elif] chain of [SysGLS.__init__] on [sigma]:
    [sigma is None]; [sigma.shape == ()]; [sigma.ndim == 1 and
    sigma.size == neqs]; [sigma.shape == (neqs, neqs)]; otherwise
    [ValueError].  A plain Python number or list has no attribute
    [shape]. *)
Definition resolve_sigma (neqs : nat) (sigma : pyarg) : result matrix :=
  match sigma with
  | PyNone => ret (np_diag (np_ones neqs))
  | PyFloat _ => raise (AttributeError "'float' object has no attribute 'shape'")
  | PyList _ => raise (AttributeError "'list' object has no attribute 'shape'")
  | PyArray (Arr0 s) => ret (np_diag (np_mul_scalar (np_ones neqs) s))
  | PyArray (Arr1 v) =>
      if length v =? neqs then ret (np_diag v)
      else raise (ValueError "sigma is not correctly specified")
  | PyArray (Arr2 m) =>
      if (nrows m =? neqs) && (ncols m =? neqs) then ret m
      else raise (ValueError "sigma is not correctly specified")
  | PyArray (ArrN _ _ _ _) => raise (ValueError "sigma is not correctly specified")
  end.

(** [np.kron(self.cholsigmainv, np.eye(self.nobs))] *)
Definition whitening_operator (cholsigmainv : matrix) (nobs : nat) : matrix :=
  np_kron cholsigmainv (np_eye nobs).

(** [SysGLS.whiten(self, X)], reading [cholsigmainv] and [nobs] off [self] *)
Definition whiten_with (cholsigmainv : matrix) (nobs : nat) (X : matrix)
  : result matrix :=
  np_dot (whitening_operator cholsigmainv nobs) X.

Definition whiten (self : SysGLS) (X : matrix) : result matrix :=
  whiten_with (cholsigmainv self) (nobs (pool self)) X.

(** [SysGLS.__init__(self, sys, sigma=None)].  The constructor is one
    sequence of statements; [SysGLS_whitening] is its numerical tail, the
    four assignments that follow the resolution of [sigma]. *)
Definition SysGLS_whitening (base : SysModel) (sg : matrix) : result SysGLS :=
  L <- np_linalg_cholesky (np_linalg_pinv sg) ;;
  let c := np_transpose L in
  wx <- whiten_with c (nobs base) (sp_exog base) ;;
  wy <- whiten_with c (nobs base) (reshape_column (endog base)) ;;
  ret {| pool := base;
         sigma := sg;
         cholsigmainv := c;
         wexog := wx;
         wendog := wy;
         pinv_wexog := np_linalg_pinv wx |}.

Definition SysGLS_init (sys : list equation) (sigma : pyarg) : result SysGLS :=
  base <- SysModel_init sys ;;
  sg <- resolve_sigma (neqs base) sigma ;;
  SysGLS_whitening base sg.

(** *** class SysResults *)

Record SysResults : Type := {
  model : SysGLS;
  params : matrix;
  normalized_cov_params : matrix;
  scale : num
}.

(** [SysGLS.fit(self)] *)
Definition fit (self : SysGLS) : result SysResults :=
  beta <- np_dot (pinv_wexog self) (wendog self) ;;
  ncp <- np_dot (pinv_wexog self) (np_transpose (pinv_wexog self)) ;;
  ret {| model := self;
         params := beta;
         normalized_cov_params := ncp;
         scale := one |}.

(** *** class SysWLS

    [SysWLS.__init__(self, sys, weights=1.0)]: [np.asarray(weights)] turns
    a number into a 0-d array and a list into a 1-D array; [None] becomes
    a 0-d object array, and [np.ones(neqs) * None] raises [TypeError] as
    soon as there is an element to multiply. *)
Definition np_asarray (a : pyarg) : option ndarray :=
  match a with
  | PyNone => None
  | PyFloat x => Some (Arr0 x)
  | PyList l => Some (Arr1 l)
  | PyArray a => Some a
  end.

Definition SysWLS_init (sys : list equation) (weights : pyarg) : result SysGLS :=
  let neqs := length sys in
  match np_asarray weights with
  | None =>
      if neqs =? 0 then SysGLS_init sys (PyArray (Arr2 (np_diag [])))
      else raise (TypeError "unsupported operand type(s) for *: 'float' and 'NoneType'")
  | Some (Arr0 w) =>
      SysGLS_init sys (PyArray (Arr2 (np_diag (np_mul_scalar (np_ones neqs) w))))
  | Some (Arr1 v) =>
      if length v =? neqs then SysGLS_init sys (PyArray (Arr2 (np_diag v)))
      else raise (ValueError "weights is not correctly specified")
  | Some _ => raise (ValueError "weights is not correctly specified")
  end.

(** *** class SysOLS: [super(SysWLS, self).__init__(sys)] is
    [SysGLS.__init__(sys)] with [sigma] left at [None] *)
Definition SysOLS_init (sys : list equation) : result SysGLS :=
  SysGLS_init sys PyNone.

(** ** The error classes of the specification

    The specification names two classes of failure.  In the module a
    malformed configuration surfaces as Python's [ValueError] (raised by
    the constructors and by the stacking routines) or [IndexError] (an
    empty equation list), a numerical failure as NumPy's [LinAlgError]. *)
Definition ConfigurationError (e : exn) : bool :=
  match e with
  | ValueError _ | IndexError _ => true
  | _ => false
  end.

Definition NumericalError (e : exn) : bool :=
  match e with
  | LinAlgError _ => true
  | _ => false
  end.

End Sysmodel.

(** ** Vocabulary of the specification

    The matrices the specification names, written entry by entry, and the
    algebraic notions its properties refer to. *)

Section Vocabulary.

Context {F : Scalar}.

(** the [r x c] matrix with entries [f i j] *)
Definition tabulate (r c : nat) (f : nat -> nat -> num) : matrix :=
  map (fun i => map (fun j => f i j) (seq 0 c)) (seq 0 r).

(** identity(G), s . identity(G) and diagonal(v) *)
Definition identity (G : nat) : matrix :=
  tabulate G G (fun i j => if i =? j then one else zero).

Definition mscale (s : num) (A : matrix) : matrix := map (map (mul s)) A.

Definition diagonal (v : vector) : matrix :=
  tabulate (length v) (length v) (fun i j => if i =? j then nth i v zero else zero).

(** [A] is an [r x c] array *)
Definition has_shape (r c : nat) (A : matrix) : Prop :=
  length A = r /\ Forall (fun row => length row = c) A.

(** the first column of block [i] of a block-diagonal matrix: the widths
    of the blocks before it, added up *)
Definition offset (ms : list matrix) (i : nat) : nat :=
  total_cols (firstn i ms).

(** an equation with [N] observations: a response of length [N] and a
    rectangular regressor array with [N] rows *)
Definition equation_with_nobs (N : nat) (eq : equation) : Prop :=
  length (eq_endog eq) = N /\
  has_shape N (ncols (eq_exog eq)) (eq_exog eq).

(** symmetry and positive semi-definiteness, the latter through the
    comparison of the platform: no quadratic form [x^T A x] is negative *)
Definition quadratic_form (A : matrix) (x : vector) : num :=
  vdot x (map (fun a => vdot a x) A).

Definition symmetric (A : matrix) : Prop := np_transpose A = A.

Definition positive_semidefinite (A : matrix) : Prop :=
  forall x, length x = nrows A -> ltb (quadratic_form A x) zero = false.

(** finite sums [f 0 + (f 1 + ... (f (n-1) + 0))] *)
Definition sum_to (n : nat) (f : nat -> num) : num :=
  fold_right (fun k acc => add (f k) acc) zero (seq 0 n).

(** vectors *)
Definition vadd (u v : vector) : vector :=
  map (fun p => add (fst p) (snd p)) (combine u v).
Definition vsub (u v : vector) : vector :=
  map (fun p => sub (fst p) (snd p)) (combine u v).
Definition vscale (s : num) (v : vector) : vector := map (mul s) v.

(** [A] is an [r x c] array with at least one row and one column *)
Definition mx (r c : nat) (A : matrix) : Prop :=
  0 < r /\ 0 < c /\ has_shape r c A.

(** The four Penrose conditions: [P] is the Moore-Penrose pseudo-inverse
    of the [r x c] matrix [A]. *)
Definition is_pinv (r c : nat) (A P : matrix) : Prop :=
  mx r c A /\ mx c r P /\
  matmul (matmul A P) A = A /\
  matmul (matmul P A) P = P /\
  np_transpose (matmul A P) = matmul A P /\
  np_transpose (matmul P A) = matmul P A.

(** [b] solves the normal equations X^T X b = X^T y, that is, [b]
    minimises the squared error of the regression of [y] on [X] *)
Definition least_squares_solution (X y b : matrix) : Prop :=
  matmul (np_transpose X) (matmul X b) = matmul (np_transpose X) y.

(** zero columns appended to, or put before, every row; and the
    block-diagonal matrix of two blocks of widths [c1] and [c2] *)
Definition pad_right (z : nat) (A : matrix) : matrix :=
  map (fun r => r ++ np_zeros z) A.
Definition pad_left (z : nat) (A : matrix) : matrix :=
  map (fun r => np_zeros z ++ r) A.
Definition diag2 (c1 c2 : nat) (A D : matrix) : matrix :=
  pad_right c2 A ++ pad_left c1 D.

(** a 1-D array as a column *)
Definition as_column (v : vector) : matrix := map (fun x => [x]) v.


(** entrywise sum of two arrays of one shape *)
Definition madd (A B : matrix) : matrix :=
  map (fun p => vadd (fst p) (snd p)) (combine A B).

(** an equation that is missing from a list *)
Definition no_equation : equation := {| eq_endog := []; eq_exog := [] |}.

(** the pivot of row [i] when [A] is factored with lower factor [L]:
    [A[i][i]] less the squares of the entries of [L] before the diagonal;
    and the square root being exact on a number *)
Definition pivot (A L : matrix) (i : nat) : num :=
  sub (entry A i i) (sum_to i (fun k => mul (entry L i k) (entry L i k))).

Definition sqrt_exact (d : num) : Prop := mul (sqrt d) (sqrt d) = d.

(** a weight the estimation can use: not zero, with a positive inverse
    whose square root is not zero *)
Definition usable_weight (x : num) : Prop :=
  x <> zero /\ ltb zero (inv x) = true /\ sqrt (inv x) <> zero.

End Vocabulary.

(** ** Two sentences of the specification, as they are written

    The whitening operator as section 4.3 words it: the Kronecker product
    of L^T with the identity, for a [G x G] factor [L] with
    L^T . L = pinv(covariance). *)

Section AsWritten.

Context {F : Scalar} {LA : Linalg}.

Definition operator_as_specified (m : SysGLS) : Prop :=
  exists L,
    has_shape (neqs (pool m)) (neqs (pool m)) L /\
    matmul (np_transpose L) L = np_linalg_pinv (sigma m) /\
    whitening_operator (cholsigmainv m) (nobs (pool m))
    = np_kron (np_transpose L) (identity (nobs (pool m))).

(** The failure condition of the whitening step as section 4.3 words it:
    a numerical error exactly when the pseudo-inverse of the covariance
    is not symmetric positive semi-definite. *)
Definition numerical_error_as_specified (base : SysModel) (sg : matrix) : Prop :=
  (exists e, SysGLS_whitening base sg = inl e /\ NumericalError e = true) <->
  ~ (symmetric (np_linalg_pinv sg) /\ positive_semidefinite (np_linalg_pinv sg)).

End AsWritten.

(** ** An exact pseudo-inverse

    Greville's column recursion for the Moore-Penrose pseudo-inverse over
    a field with a decidable test for zero: after the first [k] columns,
    [P] is the pseudo-inverse of the matrix made of these columns. *)

Section Greville.

Context {F : Scalar}.
Variable is_zero : num -> bool.

Definition lincomb (m : nat) (ds : vector) (vs : list vector) : vector :=
  fold_right (fun p acc => vadd (vscale (fst p) (snd p)) acc)
             (np_zeros m) (combine ds vs).

Definition greville_step (m : nat) (st : list vector * matrix) (a : vector)
  : list vector * matrix :=
  let cols := fst st in
  let P := snd st in
  let d := map (fun p => vdot p a) P in
  let c := vsub a (lincomb m d cols) in
  let b := if forallb is_zero c
           then vscale (inv (add one (vdot d d))) (lincomb m d P)
           else vscale (inv (vdot c c)) c in
  (cols ++ [a],
   map (fun p => vsub (fst p) (vscale (snd p) b)) (combine P d) ++ [b]).

Definition greville (A : matrix) : matrix :=
  snd (fold_left (greville_step (nrows A)) (np_transpose A) ([], [])).

End Greville.

(** ** Exact rational arithmetic

    The instance used to run the model on concrete systems: numbers are
    the rationals in lowest terms, the square root is exact on squares of
    rationals (and rounds both parts down elsewhere), and the
    pseudo-inverse is Greville's. *)

Module Exact.

Definition Qc_ltb (x y : Qc) : bool :=
  match (x ?= y)%Qc with
  | Lt => true
  | _ => false
  end.

Definition Qc_sqrt (x : Qc) : Qc :=
  Q2Qc (Z.sqrt (Qnum x) # Pos.sqrt (Qden x)).

Definition Qc_eqb (x y : Qc) : bool := Qeq_bool x y.

Definition scalar : Scalar :=
  {| num := Qc;
     zero := 0%Qc;
     one := 1%Qc;
     add := Qcplus;
     mul := Qcmult;
     sub := Qcminus;
     opp := Qcopp;
     div := Qcdiv;
     inv := Qcinv;
     sqrt := Qc_sqrt;
     ltb := Qc_ltb |}.

Definition linalg : @Linalg scalar :=
  {| np_linalg_pinv := @greville scalar (fun x => Qc_eqb x 0%Qc) |}.

#[local] Existing Instance scalar.
#[local] Existing Instance linalg.

(** rationals from integers *)
Definition q (n : Z) : Qc := Q2Qc (inject_Z n).
Definition qq (n : Z) (d : positive) : Qc := Q2Qc (n # d).

(** decidable equality of arrays and of results *)
Definition vec_eqb (u v : list Qc) : bool :=
  (length u =? length v) && forallb (fun p => Qc_eqb (fst p) (snd p)) (combine u v).

Definition mx_eqb (A B : list (list Qc)) : bool :=
  (length A =? length B) && forallb (fun p => vec_eqb (fst p) (snd p)) (combine A B).

(** concrete systems: two equations with three observations each, and
    two equations with a single observation *)
Definition eq_a : @equation scalar :=
  {| eq_endog := [q 1; q 2; q 4];
     eq_exog := [[q 1; q 0]; [q 1; q 1]; [q 1; q 2]] |}.

Definition eq_b : @equation scalar :=
  {| eq_endog := [q 2; q 1; q 3];
     eq_exog := [[q 1]; [q 2]; [q 3]] |}.

Definition sys_ab : list (@equation scalar) := [eq_a; eq_b].

Definition eq_c : @equation scalar :=
  {| eq_endog := [q 1]; eq_exog := [[q 1]] |}.

Definition eq_d : @equation scalar :=
  {| eq_endog := [q 2]; eq_exog := [[q 1]] |}.

Definition sys_cd : list (@equation scalar) := [eq_c; eq_d].

(** a covariance whose pseudo-inverse [[1, 1], [1, 2]] has the
    non-symmetric Cholesky factor [[1, 0], [1, 1]] *)
Definition sigma_21 : @pyarg scalar :=
  PyArray (Arr2 [[q 2; q (-1)]; [q (-1); q 1]]).

Definition empty_pool : @SysModel scalar :=
  {| neqs := 0; nobs := 0; endog := []; exog := []; sp_exog := [] |}.

Definition empty_model : @SysGLS scalar :=
  {| pool := empty_pool; sigma := []; cholsigmainv := [];
     wexog := []; wendog := []; pinv_wexog := [] |}.

(** the value of a computation that succeeded *)
Definition built (r : result (@SysGLS scalar)) : @SysGLS scalar :=
  match r with
  | inr m => m
  | inl _ => empty_model
  end.

Definition pool_of (r : result (@SysModel scalar)) : @SysModel scalar :=
  match r with
  | inr m => m
  | inl _ => empty_pool
  end.

Definition gls (sys : list (@equation scalar)) (sg : @pyarg scalar) :=
  @SysGLS_init scalar linalg sys sg.

Definition wls (sys : list (@equation scalar)) (w : @pyarg scalar) :=
  @SysWLS_init scalar linalg sys w.

Definition m_ab : @SysGLS scalar := built (gls sys_ab sigma_21).

Definition base_c : @SysModel scalar := pool_of (SysModel_init [eq_c]).

Definition res_eqb (r : result (list (list Qc))) (B : list (list Qc)) : bool :=
  match r with
  | inr A => mx_eqb A B
  | inl _ => false
  end.

Definition S_21 : @matrix scalar := [[q 2; q (-1)]; [q (-1); q 1]].

(** the same covariance, four times as large *)
Definition sigma_84 : @pyarg scalar := PyArray (Arr2 (mscale (q 4) S_21)).

Definition m_ols : @SysGLS scalar := built (gls sys_ab PyNone).

(** a covariance that is not symmetric *)
Definition S_15 : @matrix scalar := [[q 1; q 5]; [q 0; q 1]].

(** an equation with two observations, against the three of [eq_a] *)
Definition eq_short : @equation scalar :=
  {| eq_endog := [q 1; q 2]; eq_exog := [[q 1]; [q 1]] |}.

Definition sys_uneven : list (@equation scalar) := [eq_a; eq_short].

(** three responses against a design of two rows *)
Definition eq_e : @equation scalar :=
  {| eq_endog := [q 1; q 2; q 4]; eq_exog := [[q 1]; [q 2]] |}.

Definition sys_e : list (@equation scalar) := [eq_e].

(** two arrays of the height of the stacked system [sys_ab] *)
Definition X_6 : @matrix scalar := [[q 1]; [q 2]; [q 3]; [q 4]; [q 5]; [q 6]].
Definition Y_6 : @matrix scalar := [[q 6]; [q 5]; [q 4]; [q 3]; [q 2]; [q 1]].

(** two positive weights, and the model [SysWLS] builds with them *)
Definition w_49 : @vector scalar := [q 4; q 9].

Definition m_wls : @SysGLS scalar := built (wls sys_ab (PyList w_49)).

End Exact.

(** * Properties *)

(** ** Shapes and tabulated matrices *)

Section Shapes.

Context {F : Scalar}.

Lemma length_np_zeros (n : nat) : length (np_zeros n) = n.
Proof. apply repeat_length. Qed.

Lemma length_np_ones (n : nat) : length (np_ones n) = n.
Proof. apply repeat_length. Qed.

Lemma length_np_diag (v : vector) : length (np_diag v) = length v.
Proof.
  induction v as [|x v IH]; simpl; [reflexivity|].
  now rewrite length_map, IH.
Qed.

Lemma ncols_np_diag (v : vector) : ncols (np_diag v) = length v.
Proof.
  destruct v as [|x v]; [reflexivity|].
  unfold ncols. cbn [np_diag hd length].
  now rewrite length_np_zeros.
Qed.

Lemma tabulate_ext (r c : nat) (f g : nat -> nat -> num) :
  (forall i j, i < r -> j < c -> f i j = g i j) ->
  tabulate r c f = tabulate r c g.
Proof.
  intros H. unfold tabulate.
  apply map_ext_in. intros i Hi. apply in_seq in Hi.
  apply map_ext_in. intros j Hj. apply in_seq in Hj.
  apply H; lia.
Qed.

Lemma tabulate_shape (r c : nat) (f : nat -> nat -> num) :
  has_shape r c (tabulate r c f).
Proof.
  split.
  - unfold tabulate. now rewrite length_map, length_seq.
  - unfold tabulate. apply Forall_forall. intros row Hrow.
    apply in_map_iff in Hrow. destruct Hrow as [i [<- _]].
    now rewrite length_map, length_seq.
Qed.

(** a shape, checked by computation *)
Lemma has_shape_check (r c : nat) (A : matrix) :
  (length A =? r) && forallb (fun row => length row =? c) A = true ->
  has_shape r c A.
Proof.
  intros H. apply andb_true_iff in H. destruct H as [Hr Hc]. split.
  - now apply Nat.eqb_eq.
  - apply Forall_forall. intros row Hrow.
    rewrite forallb_forall in Hc. apply Nat.eqb_eq. now apply Hc.
Qed.

Lemma map_seq_shift {A : Type} (f : nat -> A) (a n : nat) :
  map f (seq (S a) n) = map (fun k => f (S k)) (seq a n).
Proof. now rewrite <- seq_shift, map_map. Qed.

Lemma map_const_repeat {A B : Type} (l : list A) (b : B) :
  map (fun _ => b) l = repeat b (length l).
Proof. induction l; simpl; congruence. Qed.

(** [np.diag(v)] is the matrix the specification calls diagonal(v) *)
Lemma np_diag_diagonal (v : vector) : np_diag v = diagonal v.
Proof.
  unfold diagonal.
  induction v as [|x v IH]; [reflexivity|].
  cbn [np_diag length]. rewrite IH. unfold tabulate.
  cbn [seq map]. f_equal.
  - f_equal. rewrite map_seq_shift. cbn [Nat.eqb].
    rewrite map_const_repeat, length_seq. reflexivity.
  - rewrite map_seq_shift, map_map. apply map_ext. intros i.
    cbn [seq map Nat.eqb]. f_equal.
    rewrite map_seq_shift. apply map_ext. intros j. reflexivity.
Qed.

Lemma nth_repeat_lt {A : Type} (a d : A) (n i : nat) :
  i < n -> nth i (repeat a n) d = a.
Proof.
  revert i. induction n as [|n IH]; intros i Hi; [lia|].
  destruct i; simpl; [reflexivity|]. apply IH. lia.
Qed.

(** [np.diag(np.ones(G))] is identity(G) *)
Lemma np_diag_ones (G : nat) : np_diag (np_ones G) = identity G.
Proof.
  rewrite np_diag_diagonal. unfold diagonal, identity, np_ones.
  rewrite repeat_length. apply tabulate_ext. intros i j Hi Hj.
  destruct (i =? j); [|reflexivity].
  now apply nth_repeat_lt.
Qed.

Lemma mscale_tabulate (s : num) (r c : nat) (f : nat -> nat -> num) :
  mscale s (tabulate r c f) = tabulate r c (fun i j => mul s (f i j)).
Proof.
  unfold mscale, tabulate. rewrite map_map. apply map_ext. intros i.
  now rewrite map_map.
Qed.

End Shapes.

(** ** The constructors: which inputs are accepted, and where a
    construction stops *)

Section Constructors.

Context {F : Scalar} {LA : Linalg}.

Lemma bind_inl {A B : Type} (c : result A) (k : A -> result B) (e : exn) :
  c = inl e -> bind c k = inl e.
Proof. now intros ->. Qed.

Lemma bind_inr {A B : Type} (c : result A) (k : A -> result B) (a : A) :
  c = inr a -> bind c k = k a.
Proof. now intros ->. Qed.

Lemma nrows_np_transpose (A : matrix) : nrows (np_transpose A) = ncols A.
Proof. unfold nrows, np_transpose. now rewrite length_map, length_seq. Qed.

Lemma np_dot_aligned (A B : matrix) :
  ncols A = nrows B -> np_dot A B = inr (matmul A B).
Proof. intros H. unfold np_dot. now rewrite H, Nat.eqb_refl. Qed.

Lemma np_dot_transpose_self (A : matrix) :
  np_dot A (np_transpose A) = inr (matmul A (np_transpose A)).
Proof. apply np_dot_aligned. now rewrite nrows_np_transpose. Qed.

Lemma column_stack_1d_error (vs : list vector) (e : exn) :
  column_stack_1d vs = inl e -> ConfigurationError e = true.
Proof.
  unfold column_stack_1d. destruct vs as [|v vs]; [now intros [= <-]|].
  destruct (forallb _ _); [discriminate|now intros [= <-]].
Qed.

Lemma column_stack_2d_error (ms : list matrix) (e : exn) :
  column_stack_2d ms = inl e -> ConfigurationError e = true.
Proof.
  unfold column_stack_2d. destruct ms as [|m ms]; [now intros [= <-]|].
  destruct (forallb _ _); [discriminate|now intros [= <-]].
Qed.

(** a pool that was built has as many equations as the list, and the list
    is not empty *)
Lemma SysModel_init_neqs (sys : list equation) (base : SysModel) :
  SysModel_init sys = inr base -> neqs base = length sys /\ sys <> [].
Proof.
  unfold SysModel_init. destruct sys as [|eq0 sys]; [discriminate|].
  destruct (column_stack_1d _) as [e|en]; [discriminate|].
  destruct (column_stack_2d _) as [e|ex]; [discriminate|].
  cbn. intros [= <-]. split; [reflexivity|discriminate].
Qed.

Lemma SysModel_init_error (sys : list equation) (e : exn) :
  SysModel_init sys = inl e -> ConfigurationError e = true.
Proof.
  unfold SysModel_init. destruct sys as [|eq0 sys]; [now intros [= <-]|].
  destruct (column_stack_1d _) as [e1|en] eqn:E1.
  - cbn. intros [= <-]. eapply column_stack_1d_error; eassumption.
  - destruct (column_stack_2d _) as [e2|ex] eqn:E2; cbn; [|discriminate].
    intros [= <-]. eapply column_stack_2d_error; eassumption.
Qed.

(** a [G x G] diagonal matrix handed to the GLS constructor takes the
    matrix branch *)
Lemma resolve_sigma_np_diag (G : nat) (v : vector) :
  length v = G ->
  resolve_sigma G (PyArray (Arr2 (np_diag v))) = inr (np_diag v).
Proof.
  intros <-. cbn. unfold nrows.
  now rewrite length_np_diag, ncols_np_diag, Nat.eqb_refl.
Qed.

Lemma resolve_sigma_vector (G : nat) (v : vector) :
  length v = G ->
  resolve_sigma G (PyArray (Arr1 v)) = inr (np_diag v).
Proof. intros <-. cbn. now rewrite Nat.eqb_refl. Qed.

Lemma SysGLS_init_resolved (sys : list equation) (s1 s2 : pyarg) :
  resolve_sigma (length sys) s1 = resolve_sigma (length sys) s2 ->
  SysGLS_init sys s1 = SysGLS_init sys s2.
Proof.
  intros H. unfold SysGLS_init.
  destruct (SysModel_init sys) as [e|base] eqn:E; [reflexivity|].
  cbn. apply SysModel_init_neqs in E. destruct E as [-> _].
  now rewrite H.
Qed.

(** what a successful construction leaves in the fields of the model *)
Lemma SysGLS_init_inv (sys : list equation) (sg : pyarg) (m : SysGLS) :
  SysGLS_init sys sg = inr m ->
  exists L,
    SysModel_init sys = inr (pool m) /\
    resolve_sigma (neqs (pool m)) sg = inr (sigma m) /\
    np_linalg_cholesky (np_linalg_pinv (sigma m)) = inr L /\
    cholsigmainv m = np_transpose L /\
    whiten m (sp_exog (pool m)) = inr (wexog m) /\
    whiten m (reshape_column (endog (pool m))) = inr (wendog m) /\
    pinv_wexog m = np_linalg_pinv (wexog m).
Proof.
  intros Hinit. unfold SysGLS_init in Hinit.
  destruct (SysModel_init sys) as [e|base]; [discriminate|]. cbn in Hinit.
  destruct (resolve_sigma _ _) as [e|s] eqn:Es; [discriminate|]. cbn in Hinit.
  unfold SysGLS_whitening in Hinit.
  destruct (np_linalg_cholesky _) as [e|L] eqn:EL; [discriminate|]. cbn in Hinit.
  destruct (whiten_with _ _ (sp_exog base)) as [e|wx] eqn:Ex; [discriminate|].
  cbn in Hinit.
  destruct (whiten_with _ _ (reshape_column _)) as [e|wy] eqn:Ey; [discriminate|].
  cbn in Hinit. injection Hinit as <-.
  exists L. unfold whiten. cbn. repeat split; assumption.
Qed.

(** C10: a plain Python number is rejected by the GLS constructor
    ([sigma.shape] does not exist), its scalar branch is reached only by a
    0-d array, and the WLS constructor, which calls [np.asarray] first,
    treats the number as that 0-d array. *)
Theorem plain_number_gls_vs_wls (sys : list equation) (x : num) :
  (exists e, SysGLS_init sys (PyFloat x) = inl e) /\
  (forall base, SysModel_init sys = inr base ->
     SysGLS_init sys (PyFloat x)
     = inl (AttributeError "'float' object has no attribute 'shape'")) /\
  resolve_sigma (length sys) (PyArray (Arr0 x))
  = inr (np_diag (np_mul_scalar (np_ones (length sys)) x)) /\
  np_asarray (PyFloat x) = Some (Arr0 x) /\
  SysWLS_init sys (PyFloat x) = SysGLS_init sys (PyArray (Arr0 x)).
Proof.
  repeat split.
  - unfold SysGLS_init. destruct (SysModel_init sys) as [e|base]; cbn; eauto.
  - intros base E. unfold SysGLS_init. now rewrite E.
  - unfold SysWLS_init. cbn [np_asarray].
    apply SysGLS_init_resolved.
    rewrite resolve_sigma_np_diag; [reflexivity|].
    unfold np_mul_scalar. now rewrite length_map, length_np_ones.
Qed.

(** C7: the WLS constructor given a length-G vector [w] builds exactly the
    model the GLS constructor builds from the covariance diagonal(w), so
    the two fits return the same parameters and parameter covariance. *)
Theorem wls_is_gls_with_diagonal (sys : list equation) (w : vector) :
  length w = length sys ->
  SysWLS_init sys (PyArray (Arr1 w))
  = SysGLS_init sys (PyArray (Arr2 (diagonal w))) /\
  SysWLS_init sys (PyArray (Arr1 w)) = SysGLS_init sys (PyArray (Arr1 w)) /\
  bind (SysWLS_init sys (PyArray (Arr1 w))) fit
  = bind (SysGLS_init sys (PyArray (Arr2 (diagonal w)))) fit.
Proof.
  intros Hw.
  assert (E1 : SysWLS_init sys (PyArray (Arr1 w))
               = SysGLS_init sys (PyArray (Arr2 (diagonal w)))).
  { unfold SysWLS_init. cbn [np_asarray].
    rewrite Hw, Nat.eqb_refl. now rewrite np_diag_diagonal. }
  repeat split; [exact E1| |now rewrite E1].
  rewrite E1. apply SysGLS_init_resolved.
  rewrite <- np_diag_diagonal.
  rewrite resolve_sigma_np_diag, resolve_sigma_vector by exact Hw.
  reflexivity.
Qed.

(** C5: an empty equation list, a covariance or weights vector whose
    length is not G, and a covariance matrix whose shape is not (G, G)
    all stop the construction with a configuration error, raised while
    the pool is built or the covariance resolved, before the numerical
    tail of the constructor. *)
Theorem construction_rejects_bad_configuration :
  (forall sigma,
     SysGLS_init [] sigma = inl (IndexError "list index out of range")) /\
  (forall weights, exists e,
     SysWLS_init [] weights = inl e /\ ConfigurationError e = true) /\
  (forall sys v, length v <> length sys ->
     exists e, SysGLS_init sys (PyArray (Arr1 v)) = inl e /\
       ConfigurationError e = true /\
       (SysModel_init sys = inl e \/
        exists base, SysModel_init sys = inr base /\
          resolve_sigma (neqs base) (PyArray (Arr1 v)) = inl e /\
          e = ValueError "sigma is not correctly specified")) /\
  (forall sys v, length v <> length sys ->
     SysWLS_init sys (PyArray (Arr1 v))
     = inl (ValueError "weights is not correctly specified")) /\
  (forall sys m, shape (Arr2 m) <> [length sys; length sys] ->
     exists e, SysGLS_init sys (PyArray (Arr2 m)) = inl e /\
       ConfigurationError e = true /\
       (SysModel_init sys = inl e \/
        exists base, SysModel_init sys = inr base /\
          resolve_sigma (neqs base) (PyArray (Arr2 m)) = inl e /\
          e = ValueError "sigma is not correctly specified")).
Proof.
  split; [reflexivity|]. split; [|split; [|split]].
  - intros weights. unfold SysWLS_init.
    destruct weights as [|x|l|[x|v|m|d1 d2 d3 ds]]; cbn;
      try (eexists; split; reflexivity).
    + destruct l; cbn; eexists; split; reflexivity.
    + destruct v; cbn; eexists; split; reflexivity.
  - intros sys v Hv. unfold SysGLS_init.
    destruct (SysModel_init sys) as [e|base] eqn:E; cbn.
    + exists e. repeat split; [eauto using SysModel_init_error|now left].
    + destruct (SysModel_init_neqs _ _ E) as [Hn _].
      apply Nat.eqb_neq in Hv. rewrite Hn, Hv. cbn.
      eexists. repeat split. right. exists base.
      cbn. rewrite Hn, Hv. now repeat split.
  - intros sys v Hv. unfold SysWLS_init. cbn.
    apply Nat.eqb_neq in Hv. now rewrite Hv.
  - intros sys m Hm. unfold SysGLS_init.
    destruct (SysModel_init sys) as [e|base] eqn:E; cbn.
    + exists e. repeat split; [eauto using SysModel_init_error|now left].
    + destruct (SysModel_init_neqs _ _ E) as [Hn _]. rewrite Hn.
      assert (Hb : (nrows m =? length sys) && (ncols m =? length sys) = false).
      { apply andb_false_iff.
        destruct (Nat.eqb_spec (nrows m) (length sys)) as [E1|]; [|now left].
        destruct (Nat.eqb_spec (ncols m) (length sys)) as [E2|]; [|now right].
        exfalso. apply Hm. cbn. congruence. }
      rewrite Hb. cbn.
      eexists. repeat split. right. exists base.
      cbn. rewrite Hn, Hb. now repeat split.
Qed.

(** C1: [fit] of a constructed model returns pinv(wexog) . wendog and
    pinv(wexog) . pinv(wexog)^T, where [wexog] and [wendog] are the
    whitened block design and the whitened stacked response stored by the
    constructor.  The shape hypothesis is the shape contract of
    [np.linalg.pinv]: the result has as many columns as its argument has
    rows. *)
Theorem fit_is_pinv_least_squares
  (sys : list equation) (sg : pyarg) (m : SysGLS) :
  SysGLS_init sys sg = inr m ->
  ncols (np_linalg_pinv (wexog m)) = nrows (wendog m) ->
  whiten m (sp_exog (pool m)) = inr (wexog m) /\
  whiten m (reshape_column (endog (pool m))) = inr (wendog m) /\
  fit m = inr {| model := m;
                 params := matmul (np_linalg_pinv (wexog m)) (wendog m);
                 normalized_cov_params :=
                   matmul (np_linalg_pinv (wexog m))
                          (np_transpose (np_linalg_pinv (wexog m)));
                 scale := one |}.
Proof.
  intros Hinit Hshape.
  unfold SysGLS_init in Hinit.
  destruct (SysModel_init sys) as [e|base]; [discriminate|]. cbn in Hinit.
  destruct (resolve_sigma _ _) as [e|s]; [discriminate|]. cbn in Hinit.
  unfold SysGLS_whitening in Hinit.
  destruct (np_linalg_cholesky _) as [e|L]; [discriminate|]. cbn in Hinit.
  destruct (whiten_with _ _ (sp_exog base)) as [e|wx] eqn:Ex; [discriminate|].
  cbn in Hinit.
  destruct (whiten_with _ _ (reshape_column _)) as [e|wy] eqn:Ey; [discriminate|].
  cbn in Hinit. injection Hinit as <-. cbn in *.
  repeat split; [exact Ex|exact Ey|].
  unfold fit. cbn [pinv_wexog wendog].
  rewrite (np_dot_aligned _ _ Hshape). cbn [bind].
  now rewrite np_dot_transpose_self.
Qed.

End Constructors.

(** ** Sums and entries

    From here on the numbers are assumed to form a commutative ring: the
    exact-arithmetic reading of the floating-point operations. *)

Section Algebra.

Context {F : Scalar}.
Hypothesis num_ring : ring_theory zero one add mul sub opp (@eq num).

Add Ring num_ring_structure : num_ring.

Lemma sum_to_0 (f : nat -> num) : sum_to 0 f = zero.
Proof. reflexivity. Qed.

Lemma sum_to_S_first (n : nat) (f : nat -> num) :
  sum_to (S n) f = add (f 0) (sum_to n (fun k => f (S k))).
Proof.
  unfold sum_to. cbn [seq fold_right]. f_equal.
  rewrite <- seq_shift. generalize (seq 0 n). intros l.
  induction l as [|k l IH]; cbn; congruence.
Qed.

Lemma sum_to_ext (n : nat) (f g : nat -> num) :
  (forall k, k < n -> f k = g k) -> sum_to n f = sum_to n g.
Proof.
  revert f g. induction n as [|n IH]; intros f g H; [reflexivity|].
  rewrite !sum_to_S_first. f_equal; [apply H; lia|].
  apply IH. intros k Hk. apply H. lia.
Qed.

Lemma sum_to_zero (n : nat) : sum_to n (fun _ => zero) = zero.
Proof.
  induction n as [|n IH]; [reflexivity|].
  rewrite sum_to_S_first, IH. ring.
Qed.

Lemma sum_to_add (n : nat) (f g : nat -> num) :
  sum_to n (fun k => add (f k) (g k)) = add (sum_to n f) (sum_to n g).
Proof.
  revert f g. induction n as [|n IH]; intros f g.
  - rewrite !sum_to_0. ring.
  - rewrite !sum_to_S_first, IH. ring.
Qed.

Lemma sum_to_mul_l (n : nat) (c : num) (f : nat -> num) :
  sum_to n (fun k => mul c (f k)) = mul c (sum_to n f).
Proof.
  revert f. induction n as [|n IH]; intros f.
  - rewrite !sum_to_0. ring.
  - rewrite !sum_to_S_first, IH. ring.
Qed.

Lemma sum_to_mul_r (n : nat) (c : num) (f : nat -> num) :
  sum_to n (fun k => mul (f k) c) = mul (sum_to n f) c.
Proof.
  revert f. induction n as [|n IH]; intros f.
  - rewrite !sum_to_0. ring.
  - rewrite !sum_to_S_first, IH. ring.
Qed.

Lemma sum_to_swap (n m : nat) (f : nat -> nat -> num) :
  sum_to n (fun i => sum_to m (fun j => f i j))
  = sum_to m (fun j => sum_to n (fun i => f i j)).
Proof.
  revert f. induction n as [|n IH]; intros f.
  - rewrite sum_to_0. symmetry. apply sum_to_zero.
  - rewrite sum_to_S_first, IH, <- sum_to_add.
    apply sum_to_ext. intros j _. now rewrite sum_to_S_first.
Qed.

Lemma sum_to_app (n m : nat) (f : nat -> num) :
  sum_to (n + m) f = add (sum_to n f) (sum_to m (fun k => f (n + k))).
Proof.
  revert f. induction n as [|n IH]; intros f.
  - change (fun k => f (0 + k)) with f. rewrite sum_to_0.
    cbn [Nat.add]. ring.
  - cbn [Nat.add]. rewrite !sum_to_S_first, IH. cbn [Nat.add]. ring.
Qed.

(** a sum with a single non-zero term *)
Lemma sum_to_delta (n i : nat) (f : nat -> num) :
  i < n -> sum_to n (fun k => if k =? i then f k else zero) = f i.
Proof.
  revert i f. induction n as [|n IH]; intros i f Hi; [lia|].
  rewrite sum_to_S_first. destruct i as [|i].
  - cbn [Nat.eqb]. rewrite sum_to_zero. ring.
  - cbn [Nat.eqb]. rewrite (IH i (fun k => f (S k))) by lia. ring.
Qed.

(** a sum over [G * N] indices, blocked into [G] runs of [N] *)
Lemma sum_to_blocked (G N : nat) (f : nat -> num) :
  sum_to (G * N) f = sum_to G (fun h => sum_to N (fun n => f (h * N + n))).
Proof.
  revert f. induction G as [|G IH]; intros f; [reflexivity|].
  cbn [Nat.mul]. rewrite sum_to_app, sum_to_S_first, IH. f_equal.
  apply sum_to_ext. intros h _. apply sum_to_ext. intros n _.
  f_equal. cbn [Nat.mul]. lia.
Qed.

(** *** Entries of the array routines *)

Lemma nth_nil_zero (k : nat) : nth k (@nil num) zero = zero.
Proof. now destruct k. Qed.

Lemma entry_out_of_rows (A : matrix) (i j : nat) :
  length A <= i -> entry A i j = zero.
Proof.
  intros H. unfold entry. rewrite (nth_overflow A [] H). apply nth_nil_zero.
Qed.

Lemma nth_map_lt {A B : Type} (g : A -> B) (l : list A) (i : nat) (d : A) (d' : B) :
  i < length l -> nth i (map g l) d' = g (nth i l d).
Proof.
  intros H. rewrite (nth_indep _ d' (g d)) by now rewrite length_map.
  apply map_nth.
Qed.

Lemma nth_map_seq {B : Type} (h : nat -> B) (c j : nat) (d : B) :
  j < c -> nth j (map h (seq 0 c)) d = h j.
Proof.
  intros H. rewrite (nth_map_lt h (seq 0 c) j 0 d) by now rewrite length_seq.
  now rewrite seq_nth.
Qed.

Lemma nth_column (A : matrix) (i j : nat) :
  nth i (column j A) zero = entry A i j.
Proof.
  unfold column, entry. revert i.
  induction A as [|a A IH]; intros i.
  - cbn. destruct i; now rewrite nth_nil_zero.
  - destruct i; cbn; [reflexivity|apply IH].
Qed.

Lemma vdot_sum (u v : vector) :
  vdot u v = sum_to (length u) (fun k => mul (nth k u zero) (nth k v zero)).
Proof.
  revert v. induction u as [|x u IH]; intros v; [reflexivity|].
  cbn [length]. rewrite sum_to_S_first. cbn [nth].
  destruct v as [|y v].
  - cbn [vdot nth].
    rewrite sum_to_ext with (g := fun _ => zero).
    + rewrite sum_to_zero. ring.
    + intros k _. ring.
  - cbn [vdot nth]. now rewrite IH.
Qed.

Lemma entry_tabulate (r c : nat) (f : nat -> nat -> num) (i j : nat) :
  i < r -> j < c -> entry (tabulate r c f) i j = f i j.
Proof.
  intros Hi Hj. unfold entry, tabulate.
  rewrite nth_map_seq by exact Hi. now rewrite nth_map_seq.
Qed.

Lemma entry_matmul (A B : matrix) (n i j : nat) :
  i < length A -> length (nth i A []) = n -> j < ncols B ->
  entry (matmul A B) i j
  = sum_to n (fun k => mul (entry A i k) (entry B k j)).
Proof.
  intros Hi Hn Hj. unfold entry at 1, matmul.
  rewrite (nth_map_lt _ A i [] []) by exact Hi.
  rewrite nth_map_seq by exact Hj.
  rewrite vdot_sum, Hn. apply sum_to_ext. intros k _.
  now rewrite nth_column.
Qed.

Lemma entry_transpose (A : matrix) (i j : nat) :
  j < ncols A -> entry (np_transpose A) j i = entry A i j.
Proof.
  intros Hj. unfold entry at 1, np_transpose.
  rewrite nth_map_seq by exact Hj. apply nth_column.
Qed.

(** *** Shapes *)

Lemma has_shape_row (r c : nat) (A : matrix) (i : nat) :
  has_shape r c A -> i < r -> length (nth i A []) = c.
Proof.
  intros [Hr Hc] Hi. rewrite Forall_forall in Hc.
  apply Hc, nth_In. lia.
Qed.

Lemma has_shape_ncols (r c : nat) (A : matrix) :
  has_shape r c A -> 0 < r -> ncols A = c.
Proof.
  intros H Hr. unfold ncols. rewrite <- (has_shape_row r c A 0 H Hr).
  now destruct A.
Qed.

Lemma has_shape_nrows (r c : nat) (A : matrix) :
  has_shape r c A -> nrows A = r.
Proof. now intros [H _]. Qed.

Lemma matmul_shape (r c : nat) (A B : matrix) :
  length A = r -> ncols B = c -> has_shape r c (matmul A B).
Proof.
  intros Hr Hc. unfold matmul. split.
  - now rewrite length_map.
  - apply Forall_forall. intros row Hrow. apply in_map_iff in Hrow.
    destruct Hrow as [a [<- _]]. now rewrite length_map, length_seq.
Qed.

Lemma transpose_shape (r c : nat) (A : matrix) :
  length A = r -> ncols A = c -> has_shape c r (np_transpose A).
Proof.
  intros Hr Hc. unfold np_transpose. split.
  - now rewrite length_map, length_seq.
  - apply Forall_forall. intros row Hrow. apply in_map_iff in Hrow.
    destruct Hrow as [j [<- _]]. unfold column. now rewrite length_map.
Qed.

(** two arrays of one shape with the same entries are the same array *)
Lemma matrix_ext (r c : nat) (A B : matrix) :
  has_shape r c A -> has_shape r c B ->
  (forall i j, i < r -> j < c -> entry A i j = entry B i j) ->
  A = B.
Proof.
  intros HA HB H.
  apply (nth_ext A B [] []).
  - destruct HA, HB. congruence.
  - intros i Hi. rewrite (has_shape_nrows r c A HA : length A = r) in Hi.
    apply (nth_ext _ _ zero zero).
    + now rewrite (has_shape_row r c A i HA Hi), (has_shape_row r c B i HB Hi).
    + intros j Hj. rewrite (has_shape_row r c A i HA Hi) in Hj.
      now apply H.
Qed.

(** *** Covariance resolution *)

Lemma np_diag_scalar (G : nat) (s : num) :
  np_diag (np_mul_scalar (np_ones G) s) = mscale s (identity G).
Proof.
  rewrite np_diag_diagonal. unfold diagonal, identity.
  rewrite mscale_tabulate. unfold np_mul_scalar.
  rewrite length_map, length_np_ones.
  apply tabulate_ext. intros i j Hi Hj.
  destruct (i =? j); [|ring].
  rewrite (nth_map_lt _ _ i zero zero) by now rewrite length_np_ones.
  unfold np_ones. rewrite nth_repeat_lt by exact Hi. ring.
Qed.

Lemma has_shape_square_test (G : nat) (m : matrix) :
  has_shape G G m -> (nrows m =? G) && (ncols m =? G) = true.
Proof.
  intros H. apply andb_true_iff. split; apply Nat.eqb_eq.
  - exact (has_shape_nrows G G m H).
  - destruct G as [|G].
    + destruct H as [H _]. now destruct m.
    + apply (has_shape_ncols (S G) (S G) m H). lia.
Qed.

(** C2: the four accepted shapes of [sigma] and the [G x G] matrix each
    resolves to: identity(G) when absent, s . identity(G) for a scalar
    (0-d array) s, diagonal(v) for a vector of length G, and a [G x G]
    matrix unchanged. *)
Theorem covariance_resolution (G : nat) :
  (resolve_sigma G PyNone = inr (identity G) /\
   has_shape G G (identity G)) /\
  (forall s, resolve_sigma G (PyArray (Arr0 s)) = inr (mscale s (identity G)) /\
             has_shape G G (mscale s (identity G))) /\
  (forall v, length v = G ->
             resolve_sigma G (PyArray (Arr1 v)) = inr (diagonal v) /\
             has_shape G G (diagonal v)) /\
  (forall m, has_shape G G m -> resolve_sigma G (PyArray (Arr2 m)) = inr m).
Proof.
  repeat split.
  - cbn. now rewrite np_diag_ones.
  - apply tabulate_shape.
  - apply tabulate_shape.
  - cbn. now rewrite np_diag_scalar.
  - unfold identity. rewrite mscale_tabulate. apply tabulate_shape.
  - unfold identity. rewrite mscale_tabulate. apply tabulate_shape.
  - rewrite resolve_sigma_vector by assumption. now rewrite np_diag_diagonal.
  - subst G. apply tabulate_shape.
  - subst G. apply tabulate_shape.
  - intros m Hm. unfold resolve_sigma.
    now rewrite (has_shape_square_test G m Hm).
Qed.

(** *** The block design *)

Lemma length_blocks (N : nat) (ms : list matrix) :
  Forall (fun m => length m = N) ms ->
  length (blocks ms) = length ms * N.
Proof.
  induction 1 as [|m ms Hm _ IH]; [reflexivity|].
  cbn [blocks length Nat.mul]. rewrite length_app, !length_map. lia.
Qed.

Lemma blocks_row_length (ms : list matrix) :
  Forall (fun m => Forall (fun row => length row = ncols m) m) ms ->
  Forall (fun row => length row = total_cols ms) (blocks ms).
Proof.
  induction 1 as [|m ms Hm _ IH]; [constructor|].
  cbn [blocks]. unfold total_cols. cbn [map list_sum].
  apply Forall_app. split; apply Forall_forall; intros row Hrow;
    apply in_map_iff in Hrow; destruct Hrow as [r0 [<- Hr0]];
    rewrite length_app, length_np_zeros.
  - rewrite Forall_forall in Hm. rewrite (Hm r0 Hr0). reflexivity.
  - rewrite Forall_forall in IH. rewrite (IH r0 Hr0). reflexivity.
Qed.

Lemma nth_zeros (n k : nat) : nth k (np_zeros n) zero = zero.
Proof.
  unfold np_zeros. destruct (Nat.lt_ge_cases k n) as [H|H].
  - now apply nth_repeat_lt.
  - apply nth_overflow. now rewrite repeat_length.
Qed.

Lemma offset_S (m : matrix) (ms : list matrix) (i : nat) :
  offset (m :: ms) (S i) = ncols m + offset ms i.
Proof. reflexivity. Qed.

(** the entries of row [r] of block row [i] of [blocks ms]: equation
    [i]'s own entries inside its column range, zero elsewhere *)
Lemma entry_blocks (N : nat) (ms : list matrix) :
  Forall (fun m => has_shape N (ncols m) m) ms ->
  forall i r j, i < length ms -> r < N ->
    entry (blocks ms) (i * N + r) j
    = if (offset ms i <=? j) && (j <? offset ms i + ncols (nth i ms []))
      then entry (nth i ms []) r (j - offset ms i)
      else zero.
Proof.
  induction 1 as [|m ms Hm Hms IH]; intros i r j Hi Hr; [cbn in Hi; lia|].
  destruct Hm as [Hlen Hrows].
  cbn [blocks]. unfold entry at 1. destruct i as [|i].
  - cbn [Nat.mul Nat.add nth]. unfold offset. cbn [firstn].
    change (total_cols []) with 0.
    rewrite app_nth1 by (rewrite length_map; lia).
    rewrite (nth_map_lt _ m r [] []) by lia.
    assert (Hrow : length (nth r m []) = ncols m).
    { rewrite Forall_forall in Hrows. apply Hrows, nth_In. lia. }
    rewrite Nat.sub_0_r. cbn [Nat.leb andb Nat.add].
    destruct (Nat.ltb_spec j (ncols m)) as [Hj|Hj].
    + now rewrite app_nth1 by lia.
    + rewrite app_nth2 by lia. apply nth_zeros.
  - replace (S i * N + r) with (length (map (fun r0 => r0 ++ np_zeros (total_cols ms)) m) + (i * N + r))
      by (rewrite length_map; cbn [Nat.mul]; lia).
    rewrite app_nth2_plus.
    assert (Hlb : length (blocks ms) = length ms * N).
    { apply length_blocks. eapply Forall_impl; [|exact Hms].
      now intros a [Ha _]. }
    cbn [length] in Hi.
    rewrite (nth_map_lt _ (blocks ms) (i * N + r) [] []) by (rewrite Hlb; nia).
    rewrite offset_S. cbn [nth].
    specialize (IH i r (j - ncols m) ltac:(lia) Hr). unfold entry at 1 in IH.
    destruct (Nat.ltb_spec j (ncols m)) as [Hj|Hj].
    + rewrite app_nth1 by (rewrite length_np_zeros; lia).
      rewrite nth_zeros.
      replace (ncols m + offset ms i <=? j) with false
        by (symmetry; apply Nat.leb_gt; lia).
      reflexivity.
    + rewrite app_nth2 by (rewrite length_np_zeros; lia).
      rewrite length_np_zeros, IH.
      replace (ncols m + offset ms i <=? j) with (offset ms i <=? j - ncols m)
        by (apply eq_true_iff_eq; rewrite !Nat.leb_le; lia).
      replace (j <? ncols m + offset ms i + ncols (nth i ms []))
        with (j - ncols m <? offset ms i + ncols (nth i ms []))
        by (apply eq_true_iff_eq; rewrite !Nat.ltb_lt; lia).
      replace (j - (ncols m + offset ms i)) with (j - ncols m - offset ms i) by lia.
      reflexivity.
Qed.

Lemma offset_0 (ms : list matrix) : offset ms 0 = 0.
Proof. reflexivity. Qed.

(** the column ranges of the blocks follow one another in the order of
    the list *)
Lemma offset_mono (ms : list matrix) (i i' : nat) :
  i < i' -> i' <= length ms ->
  offset ms i + ncols (nth i ms []) <= offset ms i'.
Proof.
  revert i i'. induction ms as [|m ms IH]; intros i i' Hlt Hle.
  - cbn in Hle. lia.
  - destruct i' as [|i']; [lia|]. destruct i as [|i].
    + rewrite offset_0, offset_S. cbn [nth]. lia.
    + rewrite !offset_S. cbn [nth]. cbn [length] in Hle.
      specialize (IH i i' ltac:(lia) ltac:(lia)). lia.
Qed.

Lemma offset_total (ms : list matrix) (i : nat) :
  i < length ms ->
  offset ms i + ncols (nth i ms []) <= total_cols ms.
Proof.
  intros Hi.
  replace (total_cols ms) with (offset ms (length ms))
    by (unfold offset; now rewrite firstn_all).
  apply offset_mono; lia.
Qed.

Lemma SysModel_init_built (N : nat) (sys : list equation) :
  sys <> [] -> Forall (equation_with_nobs N) sys ->
  exists en ex,
    column_stack_1d (map eq_endog sys) = inr en /\
    column_stack_2d (map eq_exog sys) = inr ex /\
    SysModel_init sys
    = inr {| neqs := length sys;
             nobs := N;
             endog := np_transpose en;
             exog := ex;
             sp_exog := blocks (map eq_exog sys) |}.
Proof.
  intros Hne Hall. destruct sys as [|eq0 sys]; [congruence|].
  assert (H0 : length (eq_endog eq0) = N).
  { inversion Hall as [|? ? [H _] _]; exact H. }
  assert (H0' : nrows (eq_exog eq0) = N).
  { inversion Hall as [|? ? [_ [H _]] _]; exact H. }
  assert (E1 : forallb (fun u => length u =? length (eq_endog eq0))
                       (map eq_endog (eq0 :: sys)) = true).
  { apply forallb_forall. intros u Hu. apply in_map_iff in Hu.
    destruct Hu as [e [<- He]]. rewrite Forall_forall in Hall.
    destruct (Hall e He) as [H _]. apply Nat.eqb_eq. congruence. }
  assert (E2 : forallb (fun u => nrows u =? nrows (eq_exog eq0))
                       (map eq_exog (eq0 :: sys)) = true).
  { apply forallb_forall. intros u Hu. apply in_map_iff in Hu.
    destruct Hu as [e [<- He]]. rewrite Forall_forall in Hall.
    destruct (Hall e He) as [_ [H _]]. apply Nat.eqb_eq.
    unfold nrows in *. congruence. }
  unfold SysModel_init, column_stack_1d, column_stack_2d.
  cbn [map] in *. rewrite E1, E2. cbn [bind ret].
  do 2 eexists. repeat split. now rewrite H0.
Qed.

(** C4: in the block design of a pool built from G equations with N
    observations each, the regressors of equation [i] stand in rows
    [i*N, (i+1)*N) and in the columns that start at the summed widths of
    the equations before it; the rest of these columns is zero.  The
    blocks follow the order of the equation list. *)
Theorem block_design_placement (N : nat) (sys : list equation) :
  sys <> [] ->
  Forall (equation_with_nobs N) sys ->
  exists base,
    SysModel_init sys = inr base /\
    neqs base = length sys /\ nobs base = N /\
    sp_exog base = block_diag (map eq_exog sys) /\
    has_shape (length sys * N) (total_cols (map eq_exog sys)) (sp_exog base) /\
    forall i, i < length sys ->
      let X := eq_exog (nth i sys {| eq_endog := []; eq_exog := [] |}) in
      let first := list_sum (map ncols (firstn i (map eq_exog sys))) in
      first + ncols X <= total_cols (map eq_exog sys) /\
      (forall r c, r < N -> c < ncols X ->
         entry (sp_exog base) (i * N + r) (first + c) = entry X r c) /\
      (forall row c, row < length sys * N ->
         ~ (i * N <= row < (i + 1) * N) -> c < ncols X ->
         entry (sp_exog base) row (first + c) = zero).
Proof.
  intros Hne Hall.
  destruct (SysModel_init_built N sys Hne Hall) as [en [ex [_ [_ E]]]].
  eexists. split; [exact E|]. cbn [neqs nobs sp_exog].
  set (Xs := map eq_exog sys).
  assert (HXs : Forall (fun m => has_shape N (ncols m) m) Xs).
  { subst Xs. apply Forall_forall. intros m Hm. apply in_map_iff in Hm.
    destruct Hm as [e [<- He]]. rewrite Forall_forall in Hall.
    now destruct (Hall e He). }
  assert (HG : length Xs = length sys) by (subst Xs; apply length_map).
  split; [reflexivity|]. split; [reflexivity|].
  split; [|split; [split|]].
  - subst Xs. destruct sys; [congruence|reflexivity].
  - rewrite <- HG. apply length_blocks.
    eapply Forall_impl; [|exact HXs]. now intros a [Ha _].
  - apply blocks_row_length.
    eapply Forall_impl; [|exact HXs]. now intros a [_ Ha].
  - intros i Hi. cbn zeta.
    change {| eq_endog := []; eq_exog := [] |}
      with ({| eq_endog := []; eq_exog := [] |} : equation).
    rewrite <- (map_nth eq_exog). fold Xs.
    change (list_sum (map ncols (firstn i Xs))) with (offset Xs i).
    cbn [eq_exog].
    split; [apply offset_total; lia|]. split.
    + intros r c Hr Hc.
      rewrite (entry_blocks N Xs HXs i r _ ltac:(lia) Hr).
      replace (offset Xs i <=? offset Xs i + c) with true
        by (symmetry; apply Nat.leb_le; lia).
      replace (offset Xs i + c <? offset Xs i + ncols (nth i Xs [])) with true
        by (symmetry; apply Nat.ltb_lt; lia).
      cbn [andb]. f_equal. lia.
    + intros row c Hrow Hout Hc.
      assert (HN : 0 < N) by (destruct N; lia).
      pose proof (Nat.div_mod_eq row N) as Hdm.
      pose proof (Nat.mod_upper_bound row N ltac:(lia)) as Hmod.
      set (i' := row / N) in *. set (r := row mod N) in *.
      assert (Hi' : i' < length sys).
      { apply Nat.Div0.div_lt_upper_bound. lia. }
      assert (Hneq : i' <> i) by (intros ->; apply Hout; nia).
      replace row with (i' * N + r) by lia.
      rewrite (entry_blocks N Xs HXs i' r _ ltac:(lia) Hmod).
      destruct (Nat.lt_total i' i) as [Hlt|[Heq|Hgt]]; [|congruence|].
      * pose proof (offset_mono Xs i' i Hlt ltac:(lia)) as Hm.
        replace (offset Xs i + c <? offset Xs i' + ncols (nth i' Xs [])) with false
          by (symmetry; apply Nat.ltb_ge; lia).
        now rewrite andb_false_r.
      * pose proof (offset_mono Xs i i' Hgt ltac:(lia)) as Hm.
        replace (offset Xs i' <=? offset Xs i + c) with false
          by (symmetry; apply Nat.leb_gt; lia).
        reflexivity.
Qed.

(** *** The Kronecker product and the whitening operator *)

Lemma length_flat_map_uniform {X Y : Type} (g : X -> list Y) (l : list X) (n : nat) :
  (forall a, In a l -> length (g a) = n) ->
  length (flat_map g l) = length l * n.
Proof.
  induction l as [|a l IH]; intros H; [reflexivity|].
  cbn [flat_map length Nat.mul]. rewrite length_app, IH.
  - rewrite (H a (or_introl eq_refl)). reflexivity.
  - intros b Hb. apply H. now right.
Qed.

Lemma nth_flat_map_uniform {X Y : Type} (g : X -> list Y) (l : list X) (n : nat)
      (i k : nat) (d : Y) (dx : X) :
  (forall a, In a l -> length (g a) = n) ->
  i < length l -> k < n ->
  nth (i * n + k) (flat_map g l) d = nth k (g (nth i l dx)) d.
Proof.
  revert i. induction l as [|a l IH]; intros i H Hi Hk; [cbn in Hi; lia|].
  cbn [flat_map]. pose proof (H a (or_introl eq_refl)) as Ha.
  destruct i as [|i].
  - cbn [Nat.mul Nat.add nth]. apply app_nth1. lia.
  - replace (S i * n + k) with (length (g a) + (i * n + k))
      by (rewrite Ha; cbn [Nat.mul]; lia).
    rewrite app_nth2_plus. cbn [nth]. apply IH.
    + intros b Hb. apply H. now right.
    + cbn [length] in Hi. lia.
    + exact Hk.
Qed.

Lemma np_eye_identity (n : nat) : np_eye n = identity n.
Proof. reflexivity. Qed.

Lemma np_kron_shape (rA cA rB cB : nat) (A B : matrix) :
  has_shape rA cA A -> has_shape rB cB B ->
  has_shape (rA * rB) (cA * cB) (np_kron A B).
Proof.
  intros [HrA HcA] [HrB HcB]. unfold np_kron. split.
  - rewrite (length_flat_map_uniform _ A rB); [now rewrite HrA|].
    intros a _. now rewrite length_map.
  - apply Forall_forall. intros row Hrow.
    apply in_flat_map in Hrow. destruct Hrow as [a [Ha Hrow]].
    apply in_map_iff in Hrow. destruct Hrow as [b [<- Hb]].
    rewrite Forall_forall in HcA, HcB.
    rewrite (length_flat_map_uniform _ a cB).
    + now rewrite (HcA a Ha).
    + intros x _. rewrite length_map. now apply HcB.
Qed.

Lemma entry_np_kron (rA cA rB cB : nat) (A B : matrix) (i i' j j' : nat) :
  has_shape rA cA A -> has_shape rB cB B ->
  i < rA -> i' < rB -> j < cA -> j' < cB ->
  entry (np_kron A B) (i * rB + i') (j * cB + j')
  = mul (entry A i j) (entry B i' j').
Proof.
  intros HA HB Hi Hi' Hj Hj'. unfold entry at 1, np_kron.
  destruct HA as [HrA HcA]. destruct HB as [HrB HcB].
  rewrite Forall_forall in HcA, HcB.
  rewrite (nth_flat_map_uniform _ A rB i i' [] []);
    [|intros a _; now rewrite length_map|lia|lia].
  rewrite (nth_map_lt _ B i' [] []) by lia.
  assert (Hb : length (nth i' B []) = cB) by (apply HcB, nth_In; lia).
  assert (Ha : length (nth i A []) = cA) by (apply HcA, nth_In; lia).
  rewrite (nth_flat_map_uniform _ (nth i A []) cB j j' zero zero);
    [|intros x _; now rewrite length_map|lia|lia].
  rewrite (nth_map_lt _ (nth i' B []) j' zero zero) by lia.
  reflexivity.
Qed.

(** Whitening row [g*N + n] reads the rows [h*N + n] of the data, one per
    equation [h], all at observation index [n]. *)
Lemma entry_whitened (G G' N : nat) (C X : matrix) (g n col : nat) :
  has_shape G G' C ->
  g < G -> n < N -> col < ncols X ->
  entry (matmul (whitening_operator C N) X) (g * N + n) col
  = sum_to G' (fun h => mul (entry C g h) (entry X (h * N + n) col)).
Proof.
  intros HC Hg Hn Hcol. unfold whitening_operator.
  rewrite np_eye_identity.
  assert (HI : has_shape N N (identity N)) by apply tabulate_shape.
  pose proof (np_kron_shape G G' N N C (identity N) HC HI) as HK.
  assert (Hrow : g * N + n < G * N) by nia.
  rewrite (entry_matmul _ X (G' * N) (g * N + n) col);
    [|rewrite (has_shape_nrows _ _ _ HK : length _ = _); exact Hrow
     |exact (has_shape_row _ _ _ _ HK Hrow)|exact Hcol].
  rewrite sum_to_blocked. apply sum_to_ext. intros h Hh.
  rewrite sum_to_ext
    with (g := fun m => if m =? n
                        then mul (entry C g h) (entry X (h * N + m) col)
                        else zero).
  - now rewrite (sum_to_delta N n (fun m => mul (entry C g h) (entry X (h * N + m) col))).
  - intros m Hm.
    rewrite (entry_np_kron G G' N N C (identity N) g n h m HC HI Hg Hn Hh Hm).
    unfold identity. rewrite entry_tabulate by assumption.
    rewrite (Nat.eqb_sym m n). destruct (n =? m); ring.
Qed.

(** *** Transposition *)

Lemma transpose_involutive (r c : nat) (A : matrix) :
  has_shape r c A -> 0 < r -> 0 < c ->
  np_transpose (np_transpose A) = A.
Proof.
  intros HA Hr Hc.
  pose proof (has_shape_ncols r c A HA Hr) as HcA.
  pose proof (transpose_shape r c A (has_shape_nrows r c A HA) HcA) as HT.
  pose proof (has_shape_ncols c r _ HT Hc) as HcT.
  apply (matrix_ext r c); [|exact HA|].
  - apply transpose_shape; [exact (has_shape_nrows c r _ HT)|exact HcT].
  - intros i j Hi Hj.
    rewrite entry_transpose by (rewrite HcT; exact Hi).
    rewrite entry_transpose by (rewrite HcA; exact Hj).
    reflexivity.
Qed.

(** *** The shape of the Cholesky factor *)

Lemma length_chol_cur (a : vector) (prev : matrix) (acc : vector) :
  length (fold_left (chol_offdiag a) prev acc) = length acc + length prev.
Proof.
  revert acc. induction prev as [|Lj prev IH]; intros acc; cbn [fold_left length].
  - lia.
  - rewrite IH. unfold chol_offdiag. rewrite length_app. cbn [length]. lia.
Qed.

Lemma chol_rows_shape (n : nat) (rows prev L : matrix) :
  length prev + length rows = n ->
  Forall (fun r => length r = n) prev ->
  chol_rows n prev rows = inr L ->
  has_shape n n L.
Proof.
  revert prev. induction rows as [|a rows IH]; intros prev Hlen Hprev HL.
  - cbn in HL. injection HL as <-. cbn [length] in Hlen. split; [lia|exact Hprev].
  - cbn [chol_rows] in HL.
    destruct (ltb zero _); [|discriminate].
    apply IH in HL; [exact HL| |].
    + rewrite length_app. cbn [length] in *. lia.
    + apply Forall_app. split; [exact Hprev|].
      constructor; [|constructor].
      rewrite length_app. cbn [length].
      rewrite length_chol_cur, length_np_zeros. cbn [length] in *. lia.
Qed.

(** the Cholesky routine raises nothing but [LinAlgError] *)
Lemma cholesky_error (A : matrix) (e : exn) :
  np_linalg_cholesky A = inl e -> NumericalError e = true.
Proof.
  unfold np_linalg_cholesky.
  destruct (forallb _ _); [|now intros [= <-]].
  generalize (nrows A) as n. generalize (@nil (list num)) as prev.
  induction A as [|a rows IH]; intros prev n; cbn [chol_rows].
  - discriminate.
  - destruct (ltb zero _); [apply IH|now intros [= <-]].
Qed.

Lemma cholesky_shape (A L : matrix) :
  np_linalg_cholesky A = inr L -> has_shape (nrows A) (nrows A) L.
Proof.
  unfold np_linalg_cholesky. destruct (forallb _ _); [|discriminate].
  apply chol_rows_shape; [reflexivity|constructor].
Qed.

(** *** Matrix algebra on non-empty arrays *)

Lemma mx_shape (r c : nat) (A : matrix) : mx r c A -> has_shape r c A.
Proof. now intros [_ [_ H]]. Qed.

Lemma mx_length (r c : nat) (A : matrix) : mx r c A -> length A = r.
Proof. now intros [_ [_ [H _]]]. Qed.

Lemma mx_ncols (r c : nat) (A : matrix) : mx r c A -> ncols A = c.
Proof. intros [Hr [_ H]]. now apply (has_shape_ncols r c). Qed.

Lemma mx_row (r c : nat) (A : matrix) (i : nat) :
  mx r c A -> i < r -> length (nth i A []) = c.
Proof. intros [_ [_ H]]. now apply has_shape_row. Qed.

Lemma mx_matmul (r n c : nat) (A B : matrix) :
  mx r n A -> mx n c B -> mx r c (matmul A B).
Proof.
  intros HA HB. split; [apply HA|]. split; [apply HB|].
  apply matmul_shape; [exact (mx_length _ _ _ HA)|exact (mx_ncols _ _ _ HB)].
Qed.

Lemma mx_transpose (r c : nat) (A : matrix) :
  mx r c A -> mx c r (np_transpose A).
Proof.
  intros HA. split; [apply HA|]. split; [apply HA|].
  apply transpose_shape; [exact (mx_length _ _ _ HA)|exact (mx_ncols _ _ _ HA)].
Qed.

Lemma mx_ext (r c : nat) (A B : matrix) :
  mx r c A -> mx r c B ->
  (forall i j, i < r -> j < c -> entry A i j = entry B i j) ->
  A = B.
Proof.
  intros HA HB. apply matrix_ext; [exact (mx_shape _ _ _ HA)|exact (mx_shape _ _ _ HB)].
Qed.

Lemma entry_matmul_mx (r n c : nat) (A B : matrix) (i j : nat) :
  mx r n A -> mx n c B -> i < r -> j < c ->
  entry (matmul A B) i j
  = sum_to n (fun k => mul (entry A i k) (entry B k j)).
Proof.
  intros HA HB Hi Hj. apply entry_matmul.
  - now rewrite (mx_length _ _ _ HA).
  - exact (mx_row _ _ _ i HA Hi).
  - now rewrite (mx_ncols _ _ _ HB).
Qed.

Lemma entry_transpose_mx (r c : nat) (A : matrix) (i j : nat) :
  mx r c A -> j < c -> entry (np_transpose A) j i = entry A i j.
Proof.
  intros HA Hj. apply entry_transpose. now rewrite (mx_ncols _ _ _ HA).
Qed.

Lemma matmul_assoc (r n p c : nat) (A B C : matrix) :
  mx r n A -> mx n p B -> mx p c C ->
  matmul (matmul A B) C = matmul A (matmul B C).
Proof.
  intros HA HB HC.
  pose proof (mx_matmul _ _ _ _ _ HA HB) as HAB.
  pose proof (mx_matmul _ _ _ _ _ HB HC) as HBC.
  apply (mx_ext r c);
    [exact (mx_matmul _ _ _ _ _ HAB HC)|exact (mx_matmul _ _ _ _ _ HA HBC)|].
  intros i j Hi Hj.
  rewrite (entry_matmul_mx r p c _ _ i j HAB HC Hi Hj).
  rewrite (entry_matmul_mx r n c _ _ i j HA HBC Hi Hj).
  rewrite sum_to_ext
    with (g := fun l => sum_to n (fun k =>
                 mul (mul (entry A i k) (entry B k l)) (entry C l j))).
  - rewrite sum_to_swap. apply sum_to_ext. intros k Hk.
    rewrite (entry_matmul_mx n p c _ _ k j HB HC Hk Hj).
    rewrite <- sum_to_mul_l. apply sum_to_ext. intros l _. ring.
  - intros l Hl.
    rewrite (entry_matmul_mx r n p _ _ i l HA HB Hi Hl).
    now rewrite <- sum_to_mul_r.
Qed.

Lemma transpose_matmul (r n c : nat) (A B : matrix) :
  mx r n A -> mx n c B ->
  np_transpose (matmul A B) = matmul (np_transpose B) (np_transpose A).
Proof.
  intros HA HB.
  pose proof (mx_matmul _ _ _ _ _ HA HB) as HAB.
  pose proof (mx_transpose _ _ _ HA) as HAt.
  pose proof (mx_transpose _ _ _ HB) as HBt.
  apply (mx_ext c r);
    [exact (mx_transpose _ _ _ HAB)|exact (mx_matmul _ _ _ _ _ HBt HAt)|].
  intros j i Hj Hi.
  rewrite (entry_transpose_mx r c _ i j HAB Hj).
  rewrite (entry_matmul_mx r n c _ _ i j HA HB Hi Hj).
  rewrite (entry_matmul_mx c n r _ _ j i HBt HAt Hj Hi).
  apply sum_to_ext. intros k Hk.
  rewrite (entry_transpose_mx n c B k j HB Hj).
  rewrite (entry_transpose_mx r n A i k HA Hk). ring.
Qed.

Lemma transpose_transpose (r c : nat) (A : matrix) :
  mx r c A -> np_transpose (np_transpose A) = A.
Proof. intros [Hr [Hc H]]. now apply (transpose_involutive r c). Qed.

(** *** The Moore-Penrose pseudo-inverse is unique *)

Lemma pinv_unique (r c : nat) (A P Q : matrix) :
  is_pinv r c A P -> is_pinv r c A Q -> P = Q.
Proof.
  intros [HA [HP [P1 [P2 [P3 P4]]]]] [_ [HQ [Q1 [Q2 [Q3 Q4]]]]].
  pose proof (mx_matmul _ _ _ _ _ HA HP) as HAP.
  pose proof (mx_matmul _ _ _ _ _ HA HQ) as HAQ.
  pose proof (mx_matmul _ _ _ _ _ HP HA) as HPA.
  pose proof (mx_matmul _ _ _ _ _ HQ HA) as HQA.
  assert (E1 : matmul A P = matmul A Q).
  { rewrite <- Q1 at 1.
    rewrite (matmul_assoc r r c r (matmul A Q) A P HAQ HA HP).
    rewrite <- Q3 at 1. rewrite <- P3 at 1.
    rewrite <- (transpose_matmul r r r (matmul A P) (matmul A Q) HAP HAQ).
    rewrite <- (matmul_assoc r r c r (matmul A P) A Q HAP HA HQ).
    rewrite P1. exact Q3. }
  assert (E2 : matmul P A = matmul Q A).
  { rewrite <- Q1 at 1.
    rewrite (matmul_assoc r c r c A Q A HA HQ HA).
    rewrite <- (matmul_assoc c r c c P A (matmul Q A) HP HA HQA).
    rewrite <- P4 at 1. rewrite <- Q4 at 1.
    rewrite <- (transpose_matmul c c c (matmul Q A) (matmul P A) HQA HPA).
    rewrite (matmul_assoc c r c c Q A (matmul P A) HQ HA HPA).
    rewrite <- (matmul_assoc r c r c A P A HA HP HA).
    rewrite P1. exact Q4. }
  rewrite <- P2, E2.
  rewrite (matmul_assoc c r c r Q A P HQ HA HP).
  rewrite E1.
  rewrite <- (matmul_assoc c r c r Q A Q HQ HA HQ).
  exact Q2.
Qed.

(** *** Two diagonal blocks *)

Lemma entry_app (U V : matrix) (k j : nat) :
  entry (U ++ V) k j
  = if k <? length U then entry U k j else entry V (k - length U) j.
Proof.
  unfold entry. destruct (Nat.ltb_spec k (length U)) as [H|H].
  - now rewrite app_nth1.
  - now rewrite app_nth2.
Qed.

Lemma entry_pad_right (c z : nat) (A : matrix) (i j : nat) :
  Forall (fun r => length r = c) A ->
  entry (pad_right z A) i j = if j <? c then entry A i j else zero.
Proof.
  intros HA. destruct (Nat.lt_ge_cases i (length A)) as [Hi|Hi].
  - unfold entry, pad_right. rewrite (nth_map_lt _ A i [] []) by exact Hi.
    assert (Hrow : length (nth i A []) = c).
    { rewrite Forall_forall in HA. now apply HA, nth_In. }
    destruct (Nat.ltb_spec j c) as [Hj|Hj].
    + now rewrite app_nth1 by lia.
    + rewrite app_nth2 by lia. apply nth_zeros.
  - rewrite !entry_out_of_rows;
      [now destruct (j <? c)|exact Hi|unfold pad_right; now rewrite length_map].
Qed.

Lemma entry_pad_left (z : nat) (D : matrix) (i j : nat) :
  entry (pad_left z D) i j = if j <? z then zero else entry D i (j - z).
Proof.
  destruct (Nat.lt_ge_cases i (length D)) as [Hi|Hi].
  - unfold entry, pad_left. rewrite (nth_map_lt _ D i [] []) by exact Hi.
    destruct (Nat.ltb_spec j z) as [Hj|Hj].
    + rewrite app_nth1 by (rewrite length_np_zeros; lia). apply nth_zeros.
    + rewrite app_nth2 by (rewrite length_np_zeros; lia).
      now rewrite length_np_zeros.
  - rewrite !entry_out_of_rows;
      [now destruct (j <? z)|exact Hi|unfold pad_left; now rewrite length_map].
Qed.

Lemma entry_diag2 (c1 c2 : nat) (A D : matrix) (i j : nat) :
  Forall (fun r => length r = c1) A ->
  entry (diag2 c1 c2 A D) i j
  = if i <? length A
    then (if j <? c1 then entry A i j else zero)
    else (if j <? c1 then zero else entry D (i - length A) (j - c1)).
Proof.
  intros HA. unfold diag2. rewrite entry_app.
  replace (length (pad_right c2 A)) with (length A)
    by (unfold pad_right; now rewrite length_map).
  destruct (i <? length A).
  - now apply entry_pad_right.
  - apply entry_pad_left.
Qed.

Lemma mx_rows (r c : nat) (A : matrix) :
  mx r c A -> Forall (fun row => length row = c) A.
Proof. now intros [_ [_ [_ H]]]. Qed.

Lemma mx_app (r1 r2 c : nat) (U V : matrix) :
  mx r1 c U -> mx r2 c V -> mx (r1 + r2) c (U ++ V).
Proof.
  intros [Hr1 [Hc [HU1 HU2]]] [Hr2 [_ [HV1 HV2]]].
  split; [lia|]. split; [exact Hc|]. split.
  - rewrite length_app. lia.
  - apply Forall_app. now split.
Qed.

Lemma mx_diag2 (r1 c1 r2 c2 : nat) (A D : matrix) :
  mx r1 c1 A -> mx r2 c2 D -> mx (r1 + r2) (c1 + c2) (diag2 c1 c2 A D).
Proof.
  intros [Hr1 [Hc1 [HA1 HA2]]] [Hr2 [Hc2 [HD1 HD2]]].
  unfold diag2. apply mx_app.
  - split; [exact Hr1|]. split; [lia|]. unfold pad_right. split.
    + now rewrite length_map.
    + apply Forall_forall. intros row Hrow. apply in_map_iff in Hrow.
      destruct Hrow as [a [<- Ha]]. rewrite Forall_forall in HA2.
      now rewrite length_app, length_np_zeros, (HA2 a Ha).
  - split; [exact Hr2|]. split; [lia|]. unfold pad_left. split.
    + now rewrite length_map.
    + apply Forall_forall. intros row Hrow. apply in_map_iff in Hrow.
      destruct Hrow as [a [<- Ha]]. rewrite Forall_forall in HD2.
      now rewrite length_app, length_np_zeros, (HD2 a Ha).
Qed.

Lemma transpose_diag2 (r1 c1 r2 c2 : nat) (A D : matrix) :
  mx r1 c1 A -> mx r2 c2 D ->
  np_transpose (diag2 c1 c2 A D)
  = diag2 r1 r2 (np_transpose A) (np_transpose D).
Proof.
  intros HA HD.
  pose proof (mx_diag2 _ _ _ _ _ _ HA HD) as HAD.
  pose proof (mx_transpose _ _ _ HA) as HAt.
  pose proof (mx_transpose _ _ _ HD) as HDt.
  apply (mx_ext (c1 + c2) (r1 + r2));
    [exact (mx_transpose _ _ _ HAD)|exact (mx_diag2 _ _ _ _ _ _ HAt HDt)|].
  intros j i Hj Hi.
  rewrite (entry_transpose_mx _ _ _ i j HAD Hj).
  rewrite (entry_diag2 c1 c2 A D i j (mx_rows _ _ _ HA)).
  rewrite (entry_diag2 r1 r2 _ _ j i (mx_rows _ _ _ HAt)).
  rewrite (mx_length _ _ _ HA), (mx_length _ _ _ HAt).
  destruct (Nat.ltb_spec i r1) as [Hi1|Hi1];
    destruct (Nat.ltb_spec j c1) as [Hj1|Hj1]; try reflexivity.
  - now rewrite (entry_transpose_mx r1 c1 A i j HA Hj1).
  - rewrite (entry_transpose_mx r2 c2 D (i - r1) (j - c1) HD) by lia.
    reflexivity.
Qed.

Lemma matmul_diag2 (r1 n1 c1 r2 n2 c2 : nat) (A D A' D' : matrix) :
  mx r1 n1 A -> mx r2 n2 D -> mx n1 c1 A' -> mx n2 c2 D' ->
  matmul (diag2 n1 n2 A D) (diag2 c1 c2 A' D')
  = diag2 c1 c2 (matmul A A') (matmul D D').
Proof.
  intros HA HD HA' HD'.
  pose proof (mx_diag2 _ _ _ _ _ _ HA HD) as HX.
  pose proof (mx_diag2 _ _ _ _ _ _ HA' HD') as HY.
  pose proof (mx_matmul _ _ _ _ _ HA HA') as HAA.
  pose proof (mx_matmul _ _ _ _ _ HD HD') as HDD.
  apply (mx_ext (r1 + r2) (c1 + c2));
    [exact (mx_matmul _ _ _ _ _ HX HY)|exact (mx_diag2 _ _ _ _ _ _ HAA HDD)|].
  intros i j Hi Hj.
  rewrite (entry_matmul_mx _ _ _ _ _ i j HX HY Hi Hj).
  rewrite (entry_diag2 c1 c2 _ _ i j (mx_rows _ _ _ HAA)).
  rewrite (mx_length _ _ _ HAA).
  rewrite sum_to_app.
  rewrite sum_to_ext
    with (g := fun k => if i <? r1
                        then (if j <? c1 then mul (entry A i k) (entry A' k j) else zero)
                        else zero).
  2:{ intros k Hk.
      rewrite (entry_diag2 n1 n2 A D i k (mx_rows _ _ _ HA)).
      rewrite (entry_diag2 c1 c2 A' D' k j (mx_rows _ _ _ HA')).
      rewrite (mx_length _ _ _ HA), (mx_length _ _ _ HA').
      replace (k <? n1) with true by (symmetry; now apply Nat.ltb_lt).
      destruct (i <? r1); destruct (j <? c1); ring. }
  rewrite sum_to_ext
    with (f := fun k => mul (entry (diag2 n1 n2 A D) i (n1 + k)) _)
         (g := fun k => if i <? r1 then zero
                        else (if j <? c1 then zero
                              else mul (entry D (i - r1) k) (entry D' k (j - c1)))).
  2:{ intros k Hk.
      rewrite (entry_diag2 n1 n2 A D i (n1 + k) (mx_rows _ _ _ HA)).
      rewrite (entry_diag2 c1 c2 A' D' (n1 + k) j (mx_rows _ _ _ HA')).
      rewrite (mx_length _ _ _ HA), (mx_length _ _ _ HA').
      replace (n1 + k <? n1) with false by (symmetry; apply Nat.ltb_ge; lia).
      replace (n1 + k - n1) with k by lia.
      destruct (i <? r1); destruct (j <? c1); ring. }
  destruct (Nat.ltb_spec i r1) as [Hi1|Hi1];
    destruct (Nat.ltb_spec j c1) as [Hj1|Hj1];
    rewrite ?sum_to_zero.
  - rewrite (entry_matmul_mx r1 n1 c1 A A' i j HA HA' Hi1 Hj1). ring.
  - ring.
  - ring.
  - rewrite (entry_matmul_mx r2 n2 c2 D D' (i - r1) (j - c1) HD HD') by lia.
    ring.
Qed.

Lemma matmul_diag2_stack (r1 n1 r2 n2 c : nat) (A D U V : matrix) :
  mx r1 n1 A -> mx r2 n2 D -> mx n1 c U -> mx n2 c V ->
  matmul (diag2 n1 n2 A D) (U ++ V) = matmul A U ++ matmul D V.
Proof.
  intros HA HD HU HV.
  pose proof (mx_diag2 _ _ _ _ _ _ HA HD) as HX.
  pose proof (mx_app _ _ _ _ _ HU HV) as HY.
  pose proof (mx_matmul _ _ _ _ _ HA HU) as HAU.
  pose proof (mx_matmul _ _ _ _ _ HD HV) as HDV.
  apply (mx_ext (r1 + r2) c);
    [exact (mx_matmul _ _ _ _ _ HX HY)|exact (mx_app _ _ _ _ _ HAU HDV)|].
  intros i j Hi Hj.
  rewrite (entry_matmul_mx _ _ _ _ _ i j HX HY Hi Hj).
  rewrite entry_app, (mx_length _ _ _ HAU).
  rewrite sum_to_app.
  rewrite sum_to_ext
    with (g := fun k => if i <? r1 then mul (entry A i k) (entry U k j) else zero).
  2:{ intros k Hk.
      rewrite (entry_diag2 n1 n2 A D i k (mx_rows _ _ _ HA)).
      rewrite entry_app.
      rewrite (mx_length _ _ _ HA), (mx_length _ _ _ HU).
      replace (k <? n1) with true by (symmetry; now apply Nat.ltb_lt).
      destruct (i <? r1); ring. }
  rewrite sum_to_ext
    with (f := fun k => mul (entry (diag2 n1 n2 A D) i (n1 + k)) _)
         (g := fun k => if i <? r1 then zero
                        else mul (entry D (i - r1) k) (entry V k j)).
  2:{ intros k Hk.
      rewrite (entry_diag2 n1 n2 A D i (n1 + k) (mx_rows _ _ _ HA)).
      rewrite entry_app.
      rewrite (mx_length _ _ _ HA), (mx_length _ _ _ HU).
      replace (n1 + k <? n1) with false by (symmetry; apply Nat.ltb_ge; lia).
      replace (n1 + k - n1) with k by lia.
      destruct (i <? r1); ring. }
  destruct (Nat.ltb_spec i r1) as [Hi1|Hi1]; rewrite ?sum_to_zero.
  - rewrite (entry_matmul_mx r1 n1 c A U i j HA HU Hi1 Hj). ring.
  - rewrite (entry_matmul_mx r2 n2 c D V (i - r1) j HD HV) by lia. ring.
Qed.

Lemma is_pinv_diag2 (r1 c1 r2 c2 : nat) (A P D Q : matrix) :
  is_pinv r1 c1 A P -> is_pinv r2 c2 D Q ->
  is_pinv (r1 + r2) (c1 + c2) (diag2 c1 c2 A D) (diag2 r1 r2 P Q).
Proof.
  intros [HA [HP [P1 [P2 [P3 P4]]]]] [HD [HQ [Q1 [Q2 [Q3 Q4]]]]].
  pose proof (mx_matmul _ _ _ _ _ HA HP) as HAP.
  pose proof (mx_matmul _ _ _ _ _ HD HQ) as HDQ.
  pose proof (mx_matmul _ _ _ _ _ HP HA) as HPA.
  pose proof (mx_matmul _ _ _ _ _ HQ HD) as HQD.
  split; [now apply mx_diag2|]. split; [now apply mx_diag2|].
  rewrite (matmul_diag2 r1 c1 r1 r2 c2 r2 A D P Q HA HD HP HQ).
  rewrite (matmul_diag2 c1 r1 c1 c2 r2 c2 P Q A D HP HQ HA HD).
  rewrite (matmul_diag2 r1 r1 c1 r2 r2 c2 _ _ A D HAP HDQ HA HD).
  rewrite (matmul_diag2 c1 c1 r1 c2 c2 r2 _ _ P Q HPA HQD HP HQ).
  rewrite (transpose_diag2 r1 r1 r2 r2 _ _ HAP HDQ).
  rewrite (transpose_diag2 c1 c1 c2 c2 _ _ HPA HQD).
  now rewrite P1, P2, P3, P4, Q1, Q2, Q3, Q4.
Qed.

(** *** Block-diagonal matrices, block by block *)

Lemma blocks_cons (A : matrix) (rest : list matrix) :
  blocks (A :: rest) = diag2 (ncols A) (total_cols rest) A (blocks rest).
Proof. reflexivity. Qed.

Lemma blocks_single (A : matrix) : blocks [A] = A.
Proof.
  cbn [blocks]. rewrite app_nil_r. change (total_cols []) with 0.
  rewrite <- (map_id A) at 2. apply map_ext. intros r. apply app_nil_r.
Qed.

Lemma total_cols_cons (A : matrix) (rest : list matrix) :
  total_cols (A :: rest) = ncols A + total_cols rest.
Proof. reflexivity. Qed.

(** the pseudo-inverses of the blocks, each [K_i x N], have [G * N]
    columns together *)
Lemma total_cols_pinvs (N : nat) (Xs Ps : list matrix) :
  Forall2 (fun X P => is_pinv N (ncols X) X P) Xs Ps ->
  total_cols Ps = length Xs * N.
Proof.
  induction 1 as [|X P Xs Ps HXP _ IH]; [reflexivity|].
  rewrite total_cols_cons, IH. cbn [length Nat.mul].
  destruct HXP as [_ [HP _]]. now rewrite (mx_ncols _ _ _ HP).
Qed.

(** the block-diagonal matrix of the pseudo-inverses is the
    pseudo-inverse of the block-diagonal matrix *)
Lemma is_pinv_blocks (N : nat) (Xs Ps : list matrix) :
  Forall2 (fun X P => is_pinv N (ncols X) X P) Xs Ps ->
  Xs <> [] ->
  is_pinv (length Xs * N) (total_cols Xs) (blocks Xs) (blocks Ps).
Proof.
  induction 1 as [|X P Xs Ps HXP Hrest IH]; [congruence|]. intros _.
  destruct Xs as [|X' Xs'].
  - inversion Hrest; subst. rewrite !blocks_single.
    rewrite total_cols_cons. change (total_cols []) with 0.
    cbn [length Nat.mul]. now rewrite !Nat.add_0_r.
  - specialize (IH ltac:(discriminate)).
    rewrite (blocks_cons X), (blocks_cons P).
    rewrite (total_cols_pinvs N _ _ Hrest).
    assert (HP : ncols P = N).
    { destruct HXP as [_ [HP _]]. exact (mx_ncols _ _ _ HP). }
    rewrite HP.
    exact (is_pinv_diag2 N (ncols X) _ _ X P _ _ HXP IH).
Qed.

Lemma mx_as_column (N : nat) (y : vector) :
  0 < N -> length y = N -> mx N 1 (as_column y).
Proof.
  intros HN Hy. split; [exact HN|]. split; [lia|]. unfold as_column. split.
  - now rewrite length_map.
  - apply Forall_forall. intros row Hrow. apply in_map_iff in Hrow.
    now destruct Hrow as [x [<- _]].
Qed.

Lemma length_concat_uniform (N : nat) (ys : list vector) :
  Forall (fun y => length y = N) ys -> length (concat ys) = length ys * N.
Proof.
  induction 1 as [|y ys Hy _ IH]; [reflexivity|].
  cbn [concat length Nat.mul]. rewrite length_app. lia.
Qed.

(** a block-diagonal matrix times a stacked column, block by block *)
Lemma matmul_blocks_stack (N : nat) (Ps : list matrix) (ys : list vector) :
  0 < N ->
  Forall2 (fun P y => mx (length P) N P /\ length y = N) Ps ys ->
  Ps <> [] ->
  mx (length (blocks Ps)) (length Ps * N) (blocks Ps) /\
  total_cols Ps = length Ps * N /\
  matmul (blocks Ps) (as_column (concat ys))
  = concat (map (fun py => matmul (fst py) (as_column (snd py))) (combine Ps ys)).
Proof.
  intros HN. induction 1 as [|P y Ps ys [HP Hy] Hrest IH];
    [intros H; now elim H|]. intros _.
  pose proof (mx_ncols _ _ _ HP) as HPc.
  destruct Ps as [|P' Ps'].
  - inversion Hrest; subst. rewrite !blocks_single.
    rewrite total_cols_cons. change (total_cols []) with 0.
    cbn [length Nat.mul combine map concat fst snd].
    rewrite !Nat.add_0_r, !app_nil_r.
    split; [exact HP|split; [exact HPc|reflexivity]].
  - destruct (IH ltac:(discriminate)) as [HD [Htc HM]].
    assert (Hys : Forall (fun y => length y = N) ys).
    { clear -Hrest. induction Hrest as [|? ? ? ? [_ H] _ IH]; constructor; auto. }
    assert (Hlen : length ys = length (P' :: Ps')).
    { symmetry. eapply Forall2_length. exact Hrest. }
    assert (HV : mx (length (P' :: Ps') * N) 1 (as_column (concat ys))).
    { apply mx_as_column.
      - cbn [length Nat.mul]. lia.
      - rewrite (length_concat_uniform N ys Hys). f_equal. exact Hlen. }
    rewrite (blocks_cons P), HPc, Htc.
    pose proof (mx_diag2 _ _ _ _ _ _ HP HD) as HX.
    split; [|split].
    + unfold diag2 at 1. rewrite length_app. unfold pad_right, pad_left.
      rewrite !length_map. exact HX.
    + rewrite total_cols_cons, HPc, Htc. reflexivity.
    + cbn [concat combine map fst snd]. unfold as_column at 1.
      rewrite map_app. fold (as_column y). fold (as_column (concat ys)).
      rewrite (matmul_diag2_stack _ _ _ _ 1 P (blocks (P' :: Ps')) _ _
                 HP HD (mx_as_column N y HN Hy) HV).
      now rewrite HM.
Qed.

(** *** Whitening with the identity *)

Lemma mx_identity (G : nat) : 0 < G -> mx G G (identity G).
Proof. intros HG. split; [exact HG|]. split; [exact HG|]. apply tabulate_shape. Qed.

Lemma transpose_identity (G : nat) : 0 < G -> np_transpose (identity G) = identity G.
Proof.
  intros HG. pose proof (mx_identity G HG) as HI.
  apply (mx_ext G G); [exact (mx_transpose _ _ _ HI)|exact HI|].
  intros i j Hi Hj. rewrite (entry_transpose_mx G G _ j i HI Hi).
  unfold identity. rewrite !entry_tabulate by assumption.
  now rewrite Nat.eqb_sym.
Qed.

Lemma matmul_identity_l (G c : nat) (X : matrix) :
  mx G c X -> matmul (identity G) X = X.
Proof.
  intros HX. assert (HG : 0 < G) by apply HX.
  pose proof (mx_identity G HG) as HI.
  apply (mx_ext G c); [exact (mx_matmul _ _ _ _ _ HI HX)|exact HX|].
  intros i j Hi Hj. rewrite (entry_matmul_mx G G c _ _ i j HI HX Hi Hj).
  rewrite sum_to_ext with (g := fun k => if k =? i then entry X k j else zero).
  - now rewrite (sum_to_delta G i (fun k => entry X k j)).
  - intros k Hk. unfold identity. rewrite entry_tabulate by assumption.
    rewrite (Nat.eqb_sym k i). destruct (i =? k) eqn:E; [|ring].
    apply Nat.eqb_eq in E. subst k. ring.
Qed.

(** the operator built from the identity leaves the data unchanged *)
Lemma whiten_with_identity (G N c : nat) (X : matrix) :
  0 < G -> 0 < N -> mx (G * N) c X ->
  whiten_with (identity G) N X = inr X.
Proof.
  intros HG HN HX.
  assert (HK : mx (G * N) (G * N) (whitening_operator (identity G) N)).
  { split; [nia|]. split; [nia|]. unfold whitening_operator.
    change (np_eye N) with (identity N).
    apply np_kron_shape; apply tabulate_shape. }
  unfold whiten_with.
  rewrite np_dot_aligned
    by (rewrite (mx_ncols _ _ _ HK); symmetry; exact (mx_length _ _ _ HX)).
  f_equal.
  apply (mx_ext (G * N) c); [exact (mx_matmul _ _ _ _ _ HK HX)|exact HX|].
  intros i j Hi Hj.
  pose proof (Nat.div_mod_eq i N) as Hdm.
  pose proof (Nat.mod_upper_bound i N ltac:(lia)) as Hmod.
  assert (Hg : i / N < G) by (apply Nat.Div0.div_lt_upper_bound; lia).
  replace i with (i / N * N + i mod N) at 1 2 by lia.
  rewrite (entry_whitened G G N (identity G) X (i / N) (i mod N) j
             (tabulate_shape G G _) Hg Hmod)
    by (rewrite (mx_ncols _ _ _ HX); exact Hj).
  rewrite sum_to_ext
    with (g := fun h => if h =? i / N
                        then entry X (h * N + i mod N) j else zero).
  - now rewrite (sum_to_delta G (i / N) (fun h => entry X (h * N + i mod N) j)).
  - intros h Hh. unfold identity. rewrite entry_tabulate by assumption.
    rewrite (Nat.eqb_sym h (i / N)). destruct (i / N =? h); ring.
Qed.

(** *** The Cholesky factor of the identity

    What the routine needs of the platform here: [0 < 1], [sqrt 1 = 1]
    and [0 / 1 = 0]. *)

Lemma vdot_zeros_l (n : nat) (v : vector) : vdot (np_zeros n) v = zero.
Proof.
  revert v. induction n as [|n IH]; intros v; [reflexivity|].
  destruct v as [|y v]; [reflexivity|].
  change (np_zeros (S n)) with (zero :: np_zeros n).
  cbn [vdot]. rewrite IH. ring.
Qed.

Lemma np_zeros_snoc (n : nat) : np_zeros n ++ [zero] = np_zeros (S n).
Proof.
  unfold np_zeros. induction n as [|n IH]; [reflexivity|].
  cbn [repeat app]. now rewrite IH.
Qed.

Section CholeskyIdentity.

Hypothesis zero_lt_one : ltb zero one = true.
Hypothesis sqrt_one : sqrt one = one.
Hypothesis zero_div_one : div zero one = zero.

Variable G : nat.

Let unit_row (i : nat) : vector :=
  map (fun j => if i =? j then one else zero) (seq 0 G).

Lemma nth_unit_row (i j : nat) :
  j < G -> nth j (unit_row i) zero = if i =? j then one else zero.
Proof. intros Hj. unfold unit_row. now rewrite nth_map_seq. Qed.

Lemma unit_row_split (i : nat) :
  i < G -> unit_row i = np_zeros i ++ one :: np_zeros (G - S i).
Proof.
  intros Hi. apply (nth_ext _ _ zero zero).
  - unfold unit_row. rewrite length_map, length_seq, length_app.
    cbn [length]. rewrite !length_np_zeros. lia.
  - intros j Hj. unfold unit_row in Hj. rewrite length_map, length_seq in Hj.
    rewrite nth_unit_row by exact Hj.
    destruct (Nat.lt_total j i) as [H|[H|H]].
    + rewrite app_nth1 by (rewrite length_np_zeros; lia).
      rewrite nth_zeros.
      now replace (i =? j) with false by (symmetry; apply Nat.eqb_neq; lia).
    + subst j. rewrite Nat.eqb_refl.
      rewrite app_nth2 by (rewrite length_np_zeros; lia).
      rewrite length_np_zeros, Nat.sub_diag. reflexivity.
    + replace (i =? j) with false by (symmetry; apply Nat.eqb_neq; lia).
      rewrite app_nth2 by (rewrite length_np_zeros; lia).
      rewrite length_np_zeros.
      destruct (j - i) as [|k] eqn:E; [lia|]. cbn [nth].
      symmetry. apply nth_zeros.
Qed.

Lemma chol_identity_offdiag (i m j : nat) :
  j + m <= i -> i < G ->
  fold_left (chol_offdiag (unit_row i)) (map unit_row (seq j m)) (np_zeros j)
  = np_zeros (j + m).
Proof.
  revert j. induction m as [|m IH]; intros j Hjm Hi.
  - cbn. now rewrite Nat.add_0_r.
  - cbn [seq map fold_left]. unfold chol_offdiag at 2.
    rewrite length_np_zeros, vdot_zeros_l.
    rewrite !nth_unit_row by lia. rewrite Nat.eqb_refl.
    replace (i =? j) with false by (symmetry; apply Nat.eqb_neq; lia).
    replace (sub zero zero) with zero by ring.
    rewrite zero_div_one, np_zeros_snoc.
    rewrite IH by lia. f_equal. lia.
Qed.

Lemma chol_rows_identity (k i : nat) :
  i + k = G ->
  chol_rows G (map unit_row (seq 0 i)) (map unit_row (seq i k))
  = inr (map unit_row (seq 0 G)).
Proof.
  revert i. induction k as [|k IH]; intros i Hik.
  - cbn. now replace i with G by lia.
  - cbn [seq map chol_rows]. rewrite length_map, length_seq.
    pose proof (chol_identity_offdiag i i 0 ltac:(lia) ltac:(lia)) as Hcur.
    change (np_zeros 0) with (@nil num) in Hcur. cbn [Nat.add] in Hcur.
    rewrite !Hcur. clear Hcur.
    rewrite nth_unit_row by lia. rewrite Nat.eqb_refl.
    rewrite vdot_zeros_l.
    replace (sub one zero) with one by ring.
    rewrite zero_lt_one, sqrt_one.
    rewrite <- unit_row_split by lia.
    specialize (IH (S i) ltac:(lia)).
    rewrite seq_S, map_app in IH. exact IH.
Qed.

Lemma cholesky_identity :
  np_linalg_cholesky (identity G) = inr (identity G).
Proof.
  unfold np_linalg_cholesky.
  replace (forallb _ (identity G)) with true.
  - change (identity G) with (map unit_row (seq 0 G)).
    unfold nrows. rewrite length_map, length_seq.
    exact (chol_rows_identity G 0 eq_refl).
  - symmetry. apply forallb_forall. intros row Hrow.
    destruct (tabulate_shape G G (fun i j => if i =? j then one else zero))
      as [Hlen Hrows].
    rewrite Forall_forall in Hrows. apply Nat.eqb_eq.
    unfold nrows. fold (identity G) in Hlen, Hrows.
    now rewrite Hlen, (Hrows row Hrow).
Qed.

End CholeskyIdentity.

(** *** The stacked response *)

Lemma map_nth_seq {A : Type} (l : list A) (d : A) :
  map (fun i => nth i l d) (seq 0 (length l)) = l.
Proof.
  apply (nth_ext _ _ d d).
  - now rewrite length_map, length_seq.
  - intros i Hi. rewrite length_map, length_seq in Hi.
    now rewrite nth_map_seq.
Qed.

(** stacking the responses as columns and transposing gives them back as
    rows, in the order of the list *)
Lemma column_stack_1d_transpose (N : nat) (ys : list vector) :
  0 < N -> ys <> [] -> Forall (fun y => length y = N) ys ->
  exists en, column_stack_1d ys = inr en /\ np_transpose en = ys.
Proof.
  intros HN Hne Hys. destruct ys as [|y0 ys]; [congruence|].
  assert (H0 : length y0 = N) by (inversion Hys; assumption).
  unfold column_stack_1d.
  replace (forallb _ (y0 :: ys)) with true.
  2:{ symmetry. apply forallb_forall. intros u Hu. rewrite Forall_forall in Hys.
      apply Nat.eqb_eq. rewrite (Hys u Hu). now rewrite H0. }
  eexists. split; [reflexivity|]. rewrite H0.
  set (all := y0 :: ys) in *.
  unfold np_transpose.
  assert (Hc : ncols (map (fun i => map (fun u => nth i u zero) all) (seq 0 N))
               = length all).
  { destruct N as [|N']; [lia|]. unfold ncols. cbn [seq map hd].
    now rewrite length_map. }
  rewrite Hc. apply (nth_ext _ _ [] []).
  - now rewrite length_map, length_seq.
  - intros j Hj. rewrite length_map, length_seq in Hj.
    rewrite nth_map_seq by exact Hj.
    assert (Hyj : length (nth j all []) = N).
    { rewrite Forall_forall in Hys. apply Hys, nth_In. exact Hj. }
    unfold column. rewrite map_map.
    apply (nth_ext _ _ zero zero).
    + now rewrite length_map, length_seq.
    + intros i Hi. rewrite length_map, length_seq in Hi.
      rewrite nth_map_seq by exact Hi.
      now rewrite (nth_map_lt _ all j [] zero) by exact Hj.
Qed.

(** ** The whitening transform *)

Context {LA : Linalg}.

(** C3 (as the code has it): the whitening operator is the Kronecker
    product of L^T with the N x N identity, where L is the lower factor
    returned by the Cholesky routine for the pseudo-inverse of the resolved
    covariance, so that L . L^T is that pseudo-inverse; the stored matrix
    C = L^T therefore satisfies C^T . C = pinv.  Row [g*N + n] of a
    whitened array is a combination of the rows [h*N + n] of the data:
    values are mixed across equations at one observation index only.
    The two hypotheses on the numerical routines are their contracts: the
    pseudo-inverse of a G x G array has G rows, and the factor the
    Cholesky routine returns multiplies back to its argument. *)
Theorem whitening_operator_structure
  (N : nat) (sys : list equation) (sg : pyarg) (m : SysGLS) :
  Forall (equation_with_nobs N) sys ->
  SysGLS_init sys sg = inr m ->
  nrows (np_linalg_pinv (sigma m)) = length sys ->
  (forall L, np_linalg_cholesky (np_linalg_pinv (sigma m)) = inr L ->
             matmul L (np_transpose L) = np_linalg_pinv (sigma m)) ->
  exists L,
    np_linalg_cholesky (np_linalg_pinv (sigma m)) = inr L /\
    has_shape (length sys) (length sys) L /\
    matmul L (np_transpose L) = np_linalg_pinv (sigma m) /\
    cholsigmainv m = np_transpose L /\
    whitening_operator (cholsigmainv m) (nobs (pool m))
    = np_kron (np_transpose L) (identity N) /\
    matmul (np_transpose (cholsigmainv m)) (cholsigmainv m)
    = np_linalg_pinv (sigma m) /\
    forall X W, whiten m X = inr W ->
      forall g n col, g < length sys -> n < N -> col < ncols X ->
        entry W (g * N + n) col
        = sum_to (length sys)
            (fun h => mul (entry (cholsigmainv m) g h) (entry X (h * N + n) col)).
Proof.
  intros Hall Hinit Hpinv Hchol.
  destruct (SysGLS_init_inv sys sg m Hinit)
    as [L [Hpool [_ [HL [HC _]]]]].
  destruct (SysModel_init_neqs sys (pool m) Hpool) as [_ Hne].
  assert (HG : 0 < length sys) by (destruct sys; [congruence|cbn; lia]).
  destruct (SysModel_init_built N sys Hne Hall) as [en [ex [_ [_ Hb]]]].
  assert (HN : nobs (pool m) = N).
  { rewrite Hpool in Hb. injection Hb as Hb. now rewrite Hb. }
  pose proof (cholesky_shape _ _ HL) as HLs. rewrite Hpinv in HLs.
  pose proof (has_shape_ncols _ _ _ HLs HG) as HLc.
  pose proof (transpose_shape _ _ L (has_shape_nrows _ _ _ HLs) HLc) as HCs.
  exists L. split; [exact HL|]. split; [exact HLs|].
  split; [exact (Hchol L HL)|]. split; [exact HC|].
  split; [now rewrite HC, HN|]. split.
  - rewrite HC, (transpose_involutive _ _ L HLs HG HG). exact (Hchol L HL).
  - intros X W HW g n col Hg Hn Hcol.
    unfold whiten, whiten_with, np_dot in HW.
    destruct (_ =? _); [|discriminate]. injection HW as <-.
    rewrite HN, HC.
    exact (entry_whitened _ _ N (np_transpose L) X g n col HCs Hg Hn Hcol).
Qed.

(** C6 (as the code has it): once the pool is built and the covariance
    resolved, the construction stops with [LinAlgError] exactly when
    [np.linalg.cholesky] rejects the pseudo-inverse of the covariance;
    every other failure of the numerical tail is a [ValueError] of
    [np.dot].  When the factor exists the construction goes on to whiten
    the design and the response with it, and the first pivot, the entry
    [0][0] of the pseudo-inverse, was strictly positive. *)
Theorem whitening_fails_iff_cholesky_fails (base : SysModel) (sg : matrix) :
  ((exists msg, SysGLS_whitening base sg = inl (LinAlgError msg)) <->
   (exists msg, np_linalg_cholesky (np_linalg_pinv sg) = inl (LinAlgError msg))) /\
  (forall e, np_linalg_cholesky (np_linalg_pinv sg) = inl e ->
     NumericalError e = true /\ SysGLS_whitening base sg = inl e) /\
  (forall L, np_linalg_cholesky (np_linalg_pinv sg) = inr L ->
     SysGLS_whitening base sg
     = (wx <- whiten_with (np_transpose L) (nobs base) (sp_exog base) ;;
        wy <- whiten_with (np_transpose L) (nobs base)
                          (reshape_column (endog base)) ;;
        ret {| pool := base; sigma := sg; cholsigmainv := np_transpose L;
               wexog := wx; wendog := wy;
               pinv_wexog := np_linalg_pinv wx |}) /\
     (forall e, SysGLS_whitening base sg = inl e -> NumericalError e = false) /\
     (np_linalg_pinv sg <> [] ->
      ltb zero (sub (entry (np_linalg_pinv sg) 0 0) zero) = true)).
Proof.
  assert (Herr : forall e, np_linalg_cholesky (np_linalg_pinv sg) = inl e ->
                           NumericalError e = true).
  { intros e. apply cholesky_error. }
  assert (Hdot : forall A B e, np_dot A B = inl e -> NumericalError e = false).
  { intros A B e. unfold np_dot. destruct (_ =? _); [discriminate|].
    now intros [= <-]. }
  split; [split|split].
  - intros [msg H]. unfold SysGLS_whitening in H.
    destruct (np_linalg_cholesky _) as [e|L] eqn:E.
    + cbn in H. injection H as ->. now exists msg.
    + exfalso. cbn in H.
      destruct (whiten_with _ _ (sp_exog base)) as [e|wx] eqn:Ex.
      * cbn in H. injection H as ->. apply Hdot in Ex. discriminate.
      * cbn in H.
        destruct (whiten_with _ _ (reshape_column _)) as [e|wy] eqn:Ey.
        -- cbn in H. injection H as ->. apply Hdot in Ey. discriminate.
        -- discriminate.
  - intros [msg H]. exists msg. unfold SysGLS_whitening. now rewrite H.
  - intros e H. split; [now apply Herr|].
    unfold SysGLS_whitening. now rewrite H.
  - intros L H. unfold SysGLS_whitening. rewrite H. cbn [bind].
    split; [reflexivity|]. split.
    + intros e.
      destruct (whiten_with _ _ (sp_exog base)) as [e1|wx] eqn:Ex.
      * cbn. intros [= <-]. now apply Hdot in Ex.
      * cbn.
        destruct (whiten_with _ _ (reshape_column _)) as [e2|wy] eqn:Ey.
        -- cbn. intros [= <-]. now apply Hdot in Ey.
        -- discriminate.
    + intros Hne. revert H. unfold np_linalg_cholesky.
      destruct (forallb _ _); [|discriminate].
      destruct (np_linalg_pinv sg) as [|a rows]; [congruence|].
      cbn [chol_rows fold_left length vdot]. unfold entry. cbn [nth].
      destruct (ltb zero _); [reflexivity|discriminate].
Qed.

(** ** Ordinary least squares, equation by equation *)

Lemma is_pinv_identity (G : nat) : 0 < G -> is_pinv G G (identity G) (identity G).
Proof.
  intros HG. pose proof (mx_identity G HG) as HI.
  split; [exact HI|]. split; [exact HI|].
  rewrite !(matmul_identity_l G G (identity G) HI).
  rewrite (transpose_identity G HG). now repeat split.
Qed.

(** the pseudo-inverse applied to a response solves the normal equations *)
Lemma pinv_normal_equations (r c : nat) (A P y : matrix) :
  is_pinv r c A P -> mx r 1 y ->
  least_squares_solution A y (matmul P y).
Proof.
  intros [HA [HP [P1 [_ [P3 _]]]]] Hy. unfold least_squares_solution.
  pose proof (mx_transpose _ _ _ HA) as HAt.
  pose proof (mx_matmul _ _ _ _ _ HA HP) as HAP.
  rewrite <- (matmul_assoc r c r 1 A P y HA HP Hy).
  rewrite <- (matmul_assoc c r r 1 (np_transpose A) (matmul A P) y HAt HAP Hy).
  f_equal.
  rewrite <- P3.
  rewrite <- (transpose_matmul r r c (matmul A P) A HAP HA).
  now rewrite P1.
Qed.

Lemma concat_block {A : Type} (ls : list (list A)) (i : nat) :
  i < length ls ->
  firstn (length (nth i ls []))
         (skipn (list_sum (map (@length A) (firstn i ls))) (concat ls))
  = nth i ls [].
Proof.
  revert i. induction ls as [|l ls IH]; intros i Hi; [cbn in Hi; lia|].
  destruct i as [|i].
  - cbn. now rewrite firstn_app, Nat.sub_diag, firstn_all, firstn_O, app_nil_r.
  - cbn [firstn map concat nth].
    change (list_sum (length l :: map (@length A) (firstn i ls)))
      with (length l + list_sum (map (@length A) (firstn i ls))).
    rewrite skipn_app.
    rewrite (skipn_all2 l) by lia.
    replace (length l + list_sum (map (@length A) (firstn i ls)) - length l)
      with (list_sum (map (@length A) (firstn i ls))) by lia.
    cbn [app]. apply IH. cbn [length] in Hi. lia.
Qed.

Section Platform.

(** what the Cholesky routine needs to factor the identity *)
Hypothesis zero_lt_one : ltb zero one = true.
Hypothesis sqrt_one : sqrt one = one.
Hypothesis zero_div_one : div zero one = zero.

Variable N : nat.
Hypothesis N_pos : 0 < N.

Definition usable_equation (eq : equation) : Prop :=
  equation_with_nobs N eq /\ 0 < ncols (eq_exog eq).

Lemma usable_mx (eq : equation) :
  usable_equation eq -> mx N (ncols (eq_exog eq)) (eq_exog eq).
Proof. intros [[_ H] Hk]. split; [exact N_pos|]. now split. Qed.

Lemma mx_block_design (sys : list equation) :
  sys <> [] -> Forall usable_equation sys ->
  mx (length sys * N) (total_cols (map eq_exog sys)) (blocks (map eq_exog sys)).
Proof.
  intros Hne Hall.
  assert (HG : 0 < length sys) by (destruct sys; [congruence|cbn; lia]).
  split; [nia|]. split; [|split].
  - destruct sys as [|eq0 sys]; [congruence|].
    cbn [map]. rewrite total_cols_cons.
    inversion Hall as [|? ? [_ Hk] _]. lia.
  - rewrite <- (length_map eq_exog sys). apply length_blocks.
    apply Forall_forall. intros X HX. apply in_map_iff in HX.
    destruct HX as [eq [<- He]]. rewrite Forall_forall in Hall.
    destruct (Hall eq He) as [[_ [H _]] _]. exact H.
  - apply blocks_row_length.
    apply Forall_forall. intros X HX. apply in_map_iff in HX.
    destruct HX as [eq [<- He]]. rewrite Forall_forall in Hall.
    destruct (Hall eq He) as [[_ [_ H]] _]. exact H.
Qed.

(** the fields of a model whose covariance is the identity: the whitened
    design is the block design, the whitened response the stacked
    response *)
Lemma identity_covariance_fields (sys : list equation) (sg : pyarg) (m : SysGLS) :
  Forall usable_equation sys ->
  SysGLS_init sys sg = inr m ->
  sigma m = identity (length sys) ->
  is_pinv (length sys) (length sys) (identity (length sys))
          (np_linalg_pinv (identity (length sys))) ->
  wexog m = blocks (map eq_exog sys) /\
  wendog m = as_column (concat (map eq_endog sys)).
Proof.
  intros Hall Hinit Hsig Hpi.
  destruct (SysGLS_init_inv sys sg m Hinit)
    as [L [Hpool [_ [HL [HC [Hwx [Hwy _]]]]]]].
  destruct (SysModel_init_neqs sys (pool m) Hpool) as [_ Hne].
  assert (HG : 0 < length sys) by (destruct sys; [congruence|cbn; lia]).
  assert (Hall' : Forall (equation_with_nobs N) sys).
  { eapply Forall_impl; [|exact Hall]. now intros eq [H _]. }
  destruct (SysModel_init_built N sys Hne Hall') as [en [ex [Hen [_ Hb]]]].
  rewrite Hpool in Hb. injection Hb as Hb.
  rewrite Hsig in HL.
  rewrite <- (pinv_unique _ _ _ _ _ (is_pinv_identity _ HG) Hpi) in HL.
  rewrite (cholesky_identity zero_lt_one sqrt_one zero_div_one) in HL.
  injection HL as <-.
  rewrite (transpose_identity _ HG) in HC.
  unfold whiten in Hwx, Hwy. rewrite HC, Hb in Hwx, Hwy. cbn [nobs sp_exog endog] in Hwx, Hwy.
  rewrite (whiten_with_identity _ N _ _ HG N_pos (mx_block_design sys Hne Hall)) in Hwx.
  destruct (column_stack_1d_transpose N (map eq_endog sys) N_pos) as [en' [Hen' Ht]].
  { destruct sys; [congruence|discriminate]. }
  { apply Forall_forall. intros y Hy. apply in_map_iff in Hy.
    destruct Hy as [eq [<- He]]. rewrite Forall_forall in Hall'.
    now destruct (Hall' eq He). }
  rewrite Hen in Hen'. injection Hen' as <-. rewrite Ht in Hwy.
  change (reshape_column (map eq_endog sys))
    with (as_column (concat (map eq_endog sys))) in Hwy.
  assert (HY : mx (length sys * N) 1 (as_column (concat (map eq_endog sys)))).
  { apply mx_as_column; [nia|].
    rewrite (length_concat_uniform N), length_map; [reflexivity|].
    apply Forall_forall. intros y Hy. apply in_map_iff in Hy.
    destruct Hy as [eq [<- He]]. rewrite Forall_forall in Hall'.
    now destruct (Hall' eq He). }
  rewrite (whiten_with_identity _ N _ _ HG N_pos HY) in Hwy.
  injection Hwx as <-. injection Hwy as <-. now split.
Qed.

Lemma combine_map {A B C : Type} (f : A -> B) (g : A -> C) (l : list A) :
  combine (map f l) (map g l) = map (fun a => (f a, g a)) l.
Proof. induction l as [|a l IH]; cbn; congruence. Qed.

(** the constructor succeeds on usable equations when no covariance is
    given *)
Lemma ols_built (sys : list equation) :
  sys <> [] -> Forall usable_equation sys ->
  is_pinv (length sys) (length sys) (identity (length sys))
          (np_linalg_pinv (identity (length sys))) ->
  exists m, SysOLS_init sys = inr m /\ sigma m = identity (length sys).
Proof.
  intros Hne Hall Hpi.
  assert (HG : 0 < length sys) by (destruct sys; [congruence|cbn; lia]).
  assert (Hall' : Forall (equation_with_nobs N) sys).
  { eapply Forall_impl; [|exact Hall]. now intros eq [H _]. }
  destruct (SysModel_init_built N sys Hne Hall') as [en [ex [Hen [_ Hb]]]].
  destruct (column_stack_1d_transpose N (map eq_endog sys) N_pos) as [en' [Hen' Ht]].
  { destruct sys; [congruence|discriminate]. }
  { apply Forall_forall. intros y Hy. apply in_map_iff in Hy.
    destruct Hy as [eq [<- He]]. rewrite Forall_forall in Hall'.
    now destruct (Hall' eq He). }
  rewrite Hen in Hen'. injection Hen' as <-.
  assert (HY : mx (length sys * N) 1 (as_column (concat (map eq_endog sys)))).
  { apply mx_as_column; [nia|].
    rewrite (length_concat_uniform N), length_map; [reflexivity|].
    apply Forall_forall. intros y Hy. apply in_map_iff in Hy.
    destruct Hy as [eq [<- He]]. rewrite Forall_forall in Hall'.
    now destruct (Hall' eq He). }
  unfold SysOLS_init, SysGLS_init. rewrite Hb. cbn [bind neqs resolve_sigma ret].
  rewrite np_diag_ones. unfold SysGLS_whitening.
  rewrite <- (pinv_unique _ _ _ _ _ (is_pinv_identity _ HG) Hpi).
  rewrite (cholesky_identity zero_lt_one sqrt_one zero_div_one).
  cbn [bind nobs sp_exog endog]. rewrite (transpose_identity _ HG).
  rewrite (whiten_with_identity _ N _ _ HG N_pos (mx_block_design sys Hne Hall)).
  cbn [bind]. rewrite Ht.
  change (reshape_column (map eq_endog sys))
    with (as_column (concat (map eq_endog sys))).
  rewrite (whiten_with_identity _ N _ _ HG N_pos HY). cbn [bind ret].
  eexists. split; reflexivity.
Qed.

(** the pooled estimate under an identity covariance: the per-equation
    estimates pinv(X_i) . y_i, one after the other *)
Lemma pooled_fit_identity (sys : list equation) (sg : pyarg) (m : SysGLS) :
  Forall usable_equation sys ->
  SysGLS_init sys sg = inr m ->
  sigma m = identity (length sys) ->
  is_pinv (length sys) (length sys) (identity (length sys))
          (np_linalg_pinv (identity (length sys))) ->
  is_pinv (length sys * N) (total_cols (map eq_exog sys))
          (wexog m) (np_linalg_pinv (wexog m)) ->
  Forall (fun eq => is_pinv N (ncols (eq_exog eq)) (eq_exog eq)
                            (np_linalg_pinv (eq_exog eq))) sys ->
  exists r, fit m = inr r /\
    params r
    = concat (map (fun eq => matmul (np_linalg_pinv (eq_exog eq))
                                    (as_column (eq_endog eq))) sys).
Proof.
  intros Hall Hinit Hsig Hpi Hpw Hpx.
  destruct (identity_covariance_fields sys sg m Hall Hinit Hsig Hpi) as [Hwx Hwy].
  destruct (SysGLS_init_inv sys sg m Hinit) as [L [Hpool [_ [_ [_ [_ [_ Hpinv]]]]]]].
  destruct (SysModel_init_neqs sys (pool m) Hpool) as [_ Hne].
  set (Ps := map (fun eq => np_linalg_pinv (eq_exog eq)) sys).
  assert (HF : Forall2 (fun X P => is_pinv N (ncols X) X P) (map eq_exog sys) Ps).
  { subst Ps. clear -Hpx. induction Hpx; cbn; constructor; assumption. }
  assert (HXs : map eq_exog sys <> []) by (destruct sys; [congruence|discriminate]).
  pose proof (is_pinv_blocks N _ _ HF HXs) as HB.
  rewrite length_map in HB. rewrite Hwx in Hpw.
  pose proof (pinv_unique _ _ _ _ _ Hpw HB) as HP.
  assert (HF2 : Forall2 (fun P y => mx (length P) N P /\ length y = N)
                        Ps (map eq_endog sys)).
  { subst Ps. clear -Hpx Hall. induction Hpx as [|eq sys Heq _ IH]; cbn; constructor.
    - inversion Hall as [|? ? [[Hy _] _] _]. split; [|exact Hy].
      destruct Heq as [_ [HPm _]]. now rewrite (mx_length _ _ _ HPm).
    - apply IH. now inversion Hall. }
  assert (HPs : Ps <> []) by (subst Ps; destruct sys; [congruence|discriminate]).
  destruct (matmul_blocks_stack N Ps _ N_pos HF2 HPs) as [_ [_ HM]].
  unfold fit. rewrite Hpinv, Hwx, Hwy, HP.
  destruct HB as [_ [HBm _]].
  rewrite np_dot_aligned.
  2:{ rewrite (mx_ncols _ _ _ HBm). unfold nrows, as_column. rewrite length_map.
      rewrite (length_concat_uniform N), length_map; [reflexivity|].
      clear -Hall. induction Hall as [|eq sys [[Hy _] _] _ IH]; cbn; constructor; auto. }
  cbn [bind]. rewrite np_dot_transpose_self. cbn [bind ret].
  eexists. split; [reflexivity|]. cbn [params].
  rewrite HM. subst Ps. rewrite combine_map, map_map. reflexivity.
Qed.

(** C9: with covariance identity(G) the block of the pooled estimate that
    belongs to equation [i] is the estimate obtained by fitting equation
    [i] alone, pinv(X_i) . y_i, which solves the normal equations of that
    regression.  Arithmetic is exact; the hypotheses on the numerical
    routines say that [np.linalg.pinv] returns the Moore-Penrose
    pseudo-inverse of the matrices it is applied to, and that the
    platform has [0 < 1], [sqrt 1 = 1] and [0 / 1 = 0]. *)
Theorem ols_decomposes_per_equation
  (sys : list equation) (sg : pyarg) (m : SysGLS) :
  Forall usable_equation sys ->
  SysGLS_init sys sg = inr m ->
  sigma m = identity (length sys) ->
  is_pinv (length sys) (length sys) (identity (length sys))
          (np_linalg_pinv (identity (length sys))) ->
  is_pinv 1 1 (identity 1) (np_linalg_pinv (identity 1)) ->
  is_pinv (length sys * N) (total_cols (map eq_exog sys))
          (wexog m) (np_linalg_pinv (wexog m)) ->
  Forall (fun eq => is_pinv N (ncols (eq_exog eq)) (eq_exog eq)
                            (np_linalg_pinv (eq_exog eq))) sys ->
  exists r, fit m = inr r /\
    forall i, i < length sys ->
      let eq := nth i sys {| eq_endog := []; eq_exog := [] |} in
      exists m1 r1,
        SysOLS_init [eq] = inr m1 /\ fit m1 = inr r1 /\
        firstn (ncols (eq_exog eq))
               (skipn (offset (map eq_exog sys) i) (params r))
        = params r1 /\
        params r1 = matmul (np_linalg_pinv (eq_exog eq)) (as_column (eq_endog eq)) /\
        least_squares_solution (eq_exog eq) (as_column (eq_endog eq)) (params r1).
Proof.
  intros Hall Hinit Hsig Hpi Hpi1 Hpw Hpx.
  destruct (pooled_fit_identity sys sg m Hall Hinit Hsig Hpi Hpw Hpx) as [r [Hfit Hpar]].
  exists r. split; [exact Hfit|]. intros i Hi eq.
  assert (Hin : In eq sys) by (apply nth_In; exact Hi).
  assert (Hu : usable_equation eq) by (rewrite Forall_forall in Hall; now apply Hall).
  assert (Hp : is_pinv N (ncols (eq_exog eq)) (eq_exog eq) (np_linalg_pinv (eq_exog eq))).
  { rewrite Forall_forall in Hpx. now apply Hpx. }
  (* equation [i] fitted alone *)
  assert (Hall1 : Forall usable_equation [eq]) by (constructor; [exact Hu|constructor]).
  destruct (ols_built [eq] ltac:(discriminate) Hall1 Hpi1) as [m1 [Hm1 Hs1]].
  destruct (identity_covariance_fields [eq] PyNone m1 Hall1 Hm1 Hs1 Hpi1) as [Hwx1 _].
  assert (Hpw1 : is_pinv (length [eq] * N) (total_cols (map eq_exog [eq]))
                         (wexog m1) (np_linalg_pinv (wexog m1))).
  { rewrite Hwx1. cbn [map]. rewrite blocks_single, total_cols_cons.
    change (total_cols []) with 0. cbn [length Nat.mul].
    now rewrite !Nat.add_0_r. }
  assert (Hpx1 : Forall (fun e => is_pinv N (ncols (eq_exog e)) (eq_exog e)
                                          (np_linalg_pinv (eq_exog e))) [eq])
    by (constructor; [exact Hp|constructor]).
  destruct (pooled_fit_identity [eq] PyNone m1 Hall1 Hm1 Hs1 Hpi1 Hpw1 Hpx1)
    as [r1 [Hfit1 Hpar1]].
  cbn [map concat] in Hpar1. rewrite app_nil_r in Hpar1.
  exists m1, r1. split; [exact Hm1|]. split; [exact Hfit1|].
  split; [|split; [exact Hpar1|]].
  - (* the block of the pooled estimate *)
    rewrite Hpar, Hpar1.
    set (g := fun e => matmul (np_linalg_pinv (eq_exog e)) (as_column (eq_endog e))).
    assert (Hlen : forall e, In e sys -> length (g e) = ncols (eq_exog e)).
    { intros e He. rewrite Forall_forall in Hpx.
      destruct (Hpx e He) as [_ [HPm _]]. subst g. cbn beta.
      unfold matmul. rewrite length_map. exact (mx_length _ _ _ HPm). }
    assert (Hnth : @nth (list (list num)) i (@map equation (list (list num)) g sys) [] = g eq).
    { exact (nth_map_lt g sys i {| eq_endog := []; eq_exog := [] |} [] Hi). }
    assert (Hoff : list_sum (map (@length (list num))
                                 (firstn i (@map equation (list (list num)) g sys)))
                   = offset (map eq_exog sys) i).
    { unfold offset, total_cols. rewrite !firstn_map, !map_map. f_equal.
      apply map_ext_in. intros e He. apply Hlen.
      rewrite <- (firstn_skipn i sys). apply in_or_app. now left. }
    pose proof (concat_block (@map equation (list (list num)) g sys) i
                  ltac:(now rewrite length_map)) as Hcb.
    rewrite Hnth, Hoff, (Hlen eq Hin) in Hcb. exact Hcb.
  - (* it solves the normal equations *)
    rewrite Hpar1.
    apply (pinv_normal_equations N (ncols (eq_exog eq))); [exact Hp|].
    apply mx_as_column; [exact N_pos|]. now destruct Hu as [[Hy _] _].
Qed.

End Platform.

(** ** Scaling *)

Lemma vdot_scale_l (k : num) (a v : vector) :
  vdot (map (mul k) a) v = mul k (vdot a v).
Proof.
  revert v. induction a as [|x a IH]; intros v; cbn [map vdot]; [ring|].
  destruct v as [|y v]; [ring|]. rewrite IH. ring.
Qed.

Lemma vdot_scale_r (k : num) (a v : vector) :
  vdot a (map (mul k) v) = mul k (vdot a v).
Proof.
  revert v. induction a as [|x a IH]; intros v; cbn [vdot]; [ring|].
  destruct v as [|y v]; cbn [map]; [ring|]. rewrite IH. ring.
Qed.

Lemma ncols_mscale (k : num) (A : matrix) : ncols (mscale k A) = ncols A.
Proof. destruct A as [|a A]; [reflexivity|]. unfold ncols. cbn. apply length_map. Qed.

Lemma column_mscale (k : num) (A : matrix) (j : nat) :
  column j (mscale k A) = map (mul k) (column j A).
Proof.
  unfold column, mscale. rewrite !map_map. apply map_ext. intros r.
  replace zero with (mul k zero) at 1 by ring. apply map_nth.
Qed.

Lemma matmul_mscale_l (k : num) (A B : matrix) :
  matmul (mscale k A) B = mscale k (matmul A B).
Proof.
  unfold matmul, mscale. rewrite !map_map. apply map_ext. intros a.
  rewrite map_map. apply map_ext. intros j. apply vdot_scale_l.
Qed.

Lemma matmul_mscale_r (k : num) (A B : matrix) :
  matmul A (mscale k B) = mscale k (matmul A B).
Proof.
  unfold matmul. rewrite ncols_mscale. unfold mscale at 2.
  rewrite map_map. apply map_ext. intros a.
  rewrite map_map. apply map_ext. intros j.
  rewrite column_mscale. apply vdot_scale_r.
Qed.

Lemma transpose_mscale (k : num) (A : matrix) :
  np_transpose (mscale k A) = mscale k (np_transpose A).
Proof.
  unfold np_transpose. rewrite ncols_mscale. unfold mscale at 2.
  rewrite map_map. apply map_ext. intros j. apply column_mscale.
Qed.

Lemma mscale_mscale (a b : num) (A : matrix) :
  mscale a (mscale b A) = mscale (mul a b) A.
Proof.
  unfold mscale. rewrite map_map. apply map_ext. intros r.
  rewrite map_map. apply map_ext. intros x. ring.
Qed.

Lemma mscale_one (A : matrix) : mscale one A = A.
Proof.
  unfold mscale. rewrite <- (map_id A) at 2. apply map_ext. intros r.
  rewrite <- (map_id r) at 2. apply map_ext. intros x. ring.
Qed.

Lemma mscale_app (k : num) (A B : matrix) :
  mscale k (A ++ B) = mscale k A ++ mscale k B.
Proof. apply map_app. Qed.

Lemma np_kron_mscale (k : num) (C B : matrix) :
  np_kron (mscale k C) B = mscale k (np_kron C B).
Proof.
  unfold np_kron, mscale. induction C as [|a C IH]; [reflexivity|].
  cbn [map flat_map]. rewrite IH, map_app. f_equal.
  rewrite map_map. apply map_ext. intros b.
  induction a as [|x a IHa]; [reflexivity|].
  cbn [map flat_map]. rewrite IHa, map_app. f_equal.
  rewrite map_map. apply map_ext. intros y. ring.
Qed.

Lemma mx_mscale (r c : nat) (k : num) (A : matrix) :
  mx r c A -> mx r c (mscale k A).
Proof.
  intros [Hr [Hc [Hlen Hrows]]]. split; [exact Hr|]. split; [exact Hc|].
  unfold mscale. split.
  - now rewrite length_map.
  - apply Forall_forall. intros row Hrow. apply in_map_iff in Hrow.
    destruct Hrow as [a [<- Ha]]. rewrite Forall_forall in Hrows.
    now rewrite length_map, (Hrows a Ha).
Qed.

(** the whitened data scale with the factor *)
Lemma whiten_with_mscale (k : num) (C : matrix) (n : nat) (X : matrix) :
  whiten_with (mscale k C) n X
  = bind (whiten_with C n X) (fun W => ret (mscale k W)).
Proof.
  unfold whiten_with, whitening_operator, np_dot.
  rewrite np_kron_mscale, ncols_mscale.
  destruct (_ =? _); [|reflexivity].
  cbn [bind ret]. now rewrite matmul_mscale_l.
Qed.

Section Scaling.

Hypothesis num_field :
  field_theory zero one add mul sub opp div inv (@eq num).

Add Field num_field_structure : num_field.

Lemma is_pinv_mscale (r c : nat) (k : num) (A P : matrix) :
  k <> zero -> is_pinv r c A P ->
  is_pinv r c (mscale k A) (mscale (inv k) P).
Proof.
  intros Hk [HA [HP [P1 [P2 [P3 P4]]]]].
  split; [now apply mx_mscale|]. split; [now apply mx_mscale|].
  rewrite !matmul_mscale_l, !matmul_mscale_r, !matmul_mscale_l.
  rewrite !transpose_mscale, !mscale_mscale.
  rewrite P1, P2, P3, P4.
  replace (mul (mul k k) (inv k)) with k by (field; exact Hk).
  replace (mul (mul (inv k) (inv k)) k) with (inv k) by (field; exact Hk).
  now repeat split.
Qed.

Lemma nrows_mscale (k : num) (A : matrix) : nrows (mscale k A) = nrows A.
Proof. unfold nrows, mscale. apply length_map. Qed.

Lemma np_dot_inv (A B W : matrix) :
  np_dot A B = inr W -> W = matmul A B /\ nrows W = nrows A.
Proof.
  unfold np_dot. destruct (_ =? _); [|discriminate].
  intros [= <-]. split; [reflexivity|]. unfold nrows, matmul. apply length_map.
Qed.

(** C8: multiplying the covariance by a scalar [c] leaves the parameter
    estimates unchanged.  Arithmetic is exact (the numbers form a field);
    [c] is not zero, as a positive number is not.  The hypotheses on the
    numerical routines are their exact-arithmetic contracts:
    [np.linalg.pinv] returns the Moore-Penrose pseudo-inverse of the two
    covariances and of the two whitened designs, and the Cholesky routine
    is homogeneous on the pseudo-inverse of the covariance,
    chol(a . P) = sqrt(a) . chol(P) for a = 1/c, with sqrt(1/c) not
    zero. *)
Theorem gls_scale_invariance
  (sys : list equation) (sg sg' : pyarg) (S : matrix) (c : num)
  (m : SysGLS) (r k : nat) :
  c <> zero -> sqrt (inv c) <> zero ->
  resolve_sigma (length sys) sg = inr S ->
  resolve_sigma (length sys) sg' = inr (mscale c S) ->
  SysGLS_init sys sg = inr m ->
  is_pinv (length sys) (length sys) S (np_linalg_pinv S) ->
  is_pinv (length sys) (length sys) (mscale c S) (np_linalg_pinv (mscale c S)) ->
  (forall L, np_linalg_cholesky (np_linalg_pinv S) = inr L ->
     np_linalg_cholesky (mscale (inv c) (np_linalg_pinv S))
     = inr (mscale (sqrt (inv c)) L)) ->
  is_pinv r k (wexog m) (np_linalg_pinv (wexog m)) ->
  is_pinv r k (mscale (sqrt (inv c)) (wexog m))
              (np_linalg_pinv (mscale (sqrt (inv c)) (wexog m))) ->
  exists m' res res',
    SysGLS_init sys sg' = inr m' /\
    wexog m' = mscale (sqrt (inv c)) (wexog m) /\
    fit m = inr res /\ fit m' = inr res' /\
    params res' = params res.
Proof.
  intros Hc Hk Hres Hres' Hinit HpS HpcS Hchol Hpw Hpw'.
  set (q := sqrt (inv c)) in *.
  destruct (SysGLS_init_inv sys sg m Hinit)
    as [L [Hpool [Hsig [HL [HC [Hwx [Hwy Hpinv]]]]]]].
  destruct (SysModel_init_neqs sys (pool m) Hpool) as [Hn _].
  rewrite Hn, Hres in Hsig. injection Hsig as Hsig. rewrite <- Hsig in HL.
  pose proof (pinv_unique _ _ _ _ _ HpcS (is_pinv_mscale _ _ c S _ Hc HpS)) as EP.
  pose proof (pinv_unique _ _ _ _ _ Hpw' (is_pinv_mscale _ _ q _ _ Hk Hpw)) as EW.
  unfold whiten in Hwx, Hwy. rewrite HC in Hwx, Hwy.
  destruct (np_dot_inv _ _ _ Hwx) as [_ Hrx].
  destruct (np_dot_inv _ _ _ Hwy) as [_ Hry].
  assert (Hrows : nrows (wendog m) = r).
  { rewrite Hry, <- Hrx. destruct Hpw as [HW _]. exact (mx_length _ _ _ HW). }
  assert (Hcols : ncols (np_linalg_pinv (wexog m)) = r).
  { destruct Hpw as [_ [HP _]]. exact (mx_ncols _ _ _ HP). }
  (* the model built from the scaled covariance *)
  assert (Hinit' : SysGLS_init sys sg'
                   = inr {| pool := pool m; sigma := mscale c S;
                            cholsigmainv := mscale q (np_transpose L);
                            wexog := mscale q (wexog m);
                            wendog := mscale q (wendog m);
                            pinv_wexog := np_linalg_pinv (mscale q (wexog m)) |}).
  { unfold SysGLS_init. rewrite Hpool. cbn [bind]. rewrite Hn, Hres'. cbn [bind].
    unfold SysGLS_whitening. rewrite EP, (Hchol L HL). cbn [bind].
    rewrite transpose_mscale, !whiten_with_mscale, Hwx, Hwy. reflexivity. }
  eexists. exists {| model := m;
                     params := matmul (np_linalg_pinv (wexog m)) (wendog m);
                     normalized_cov_params :=
                       matmul (np_linalg_pinv (wexog m))
                              (np_transpose (np_linalg_pinv (wexog m)));
                     scale := one |}.
  eexists. split; [exact Hinit'|]. split; [reflexivity|]. split; [|split].
  - unfold fit. rewrite Hpinv.
    rewrite np_dot_aligned by (rewrite Hcols; now rewrite Hrows).
    cbn [bind]. now rewrite np_dot_transpose_self.
  - unfold fit. cbn [pinv_wexog wendog].
    rewrite np_dot_aligned
      by (rewrite EW, ncols_mscale, nrows_mscale, Hcols; now rewrite Hrows).
    cbn [bind]. rewrite np_dot_transpose_self. reflexivity.
  - cbn [params]. rewrite EW, matmul_mscale_l, matmul_mscale_r, mscale_mscale.
    replace (mul (inv q) q) with one by (field; exact Hk).
    apply mscale_one.
Qed.

End Scaling.

(** ** The pooled arrays

    What [SysModel.__init__] leaves in [endog] and [exog], and what the
    stacking routines make of equations that do not agree on the number
    of observations. *)

Lemma nth_flat_map_offset (N : nat) (ms : list matrix) (n : nat) :
  Forall (fun m => has_shape N (ncols m) m) ms -> n < N ->
  forall i k, i < length ms -> k < ncols (nth i ms []) ->
    nth (offset ms i + k) (flat_map (fun u => nth n u []) ms) zero
    = entry (nth i ms []) n k.
Proof.
  intros Hms Hn.
  induction Hms as [|m ms Hm _ IH]; intros i k Hi Hk; [cbn in Hi; lia|].
  cbn [flat_map].
  pose proof (has_shape_row _ _ _ n Hm Hn) as Hrow.
  destruct i as [|i].
  - rewrite offset_0. cbn [nth Nat.add] in *. unfold entry.
    now rewrite app_nth1 by lia.
  - rewrite offset_S. cbn [nth] in *.
    replace (ncols m + offset ms i + k)
      with (length (nth n m []) + (offset ms i + k)) by lia.
    rewrite app_nth2_plus. apply IH; [cbn [length] in Hi; lia|exact Hk].
Qed.

Lemma length_flat_map_rows (N : nat) (ms : list matrix) (n : nat) :
  Forall (fun m => has_shape N (ncols m) m) ms -> n < N ->
  length (flat_map (fun u => nth n u []) ms) = total_cols ms.
Proof.
  intros Hms Hn. induction Hms as [|m ms Hm _ IH]; [reflexivity|].
  cbn [flat_map]. rewrite length_app, IH, total_cols_cons.
  now rewrite (has_shape_row _ _ _ n Hm Hn).
Qed.

Lemma regressors_shape (N : nat) (sys : list equation) :
  Forall (equation_with_nobs N) sys ->
  Forall (fun m => has_shape N (ncols m) m) (map eq_exog sys).
Proof.
  intros Hall. apply Forall_forall. intros m Hm. apply in_map_iff in Hm.
  destruct Hm as [e [<- He]]. rewrite Forall_forall in Hall.
  now destruct (Hall e He).
Qed.

Lemma responses_length (N : nat) (sys : list equation) :
  Forall (equation_with_nobs N) sys ->
  Forall (fun y => length y = N) (map eq_endog sys).
Proof.
  intros Hall. apply Forall_forall. intros y Hy. apply in_map_iff in Hy.
  destruct Hy as [e [<- He]]. rewrite Forall_forall in Hall.
  now destruct (Hall e He).
Qed.

(** X1: [endog] holds the responses as rows in the order of the equation
    list, so that [endog.reshape(-1, 1)] is the responses one after the
    other; [exog] holds the regressor arrays side by side, equation [i]
    in the columns that start at the summed widths of the equations
    before it; and the block design [sp_exog] carries, in the rows of
    equation [i], the very entries [exog] has in these columns. *)
Theorem pooled_arrays_layout (N : nat) (sys : list equation) :
  0 < N -> sys <> [] -> Forall (equation_with_nobs N) sys ->
  exists base,
    SysModel_init sys = inr base /\
    endog base = map eq_endog sys /\
    reshape_column (endog base) = as_column (concat (map eq_endog sys)) /\
    has_shape N (total_cols (map eq_exog sys)) (exog base) /\
    forall i n k, i < length sys -> n < N ->
      k < ncols (eq_exog (nth i sys no_equation)) ->
      entry (exog base) n (offset (map eq_exog sys) i + k)
      = entry (eq_exog (nth i sys no_equation)) n k /\
      entry (sp_exog base) (i * N + n) (offset (map eq_exog sys) i + k)
      = entry (exog base) n (offset (map eq_exog sys) i + k).
Proof.
  intros HN Hne Hall.
  destruct (SysModel_init_built N sys Hne Hall) as [en [ex [Hen [Hex E]]]].
  destruct (column_stack_1d_transpose N (map eq_endog sys) HN) as [en' [Hen' Ht]].
  { destruct sys; [congruence|discriminate]. }
  { exact (responses_length N sys Hall). }
  rewrite Hen in Hen'. injection Hen' as <-.
  pose proof (regressors_shape N sys Hall) as HXs.
  set (Xs := map eq_exog sys) in *.
  assert (HG : length Xs = length sys) by (subst Xs; apply length_map).
  assert (Eex : ex = map (fun n => flat_map (fun u => nth n u []) Xs) (seq 0 N)).
  { destruct sys as [|eq0 sys']; [congruence|].
    unfold column_stack_2d in Hex. subst Xs. cbn [map] in Hex, HXs |- *.
    destruct (forallb _ _); [|discriminate]. injection Hex as <-.
    inversion HXs as [|? ? [H0 _] _]. unfold nrows. now rewrite H0. }
  eexists. split; [exact E|]. cbn [endog exog sp_exog].
  split; [exact Ht|]. split; [now rewrite Ht|]. split.
  - rewrite Eex. split; [now rewrite length_map, length_seq|].
    apply Forall_forall. intros row Hrow. apply in_map_iff in Hrow.
    destruct Hrow as [n [<- Hn]]. apply in_seq in Hn.
    apply (length_flat_map_rows N); [exact HXs|lia].
  - intros i n k Hi Hn Hk.
    assert (Hnth : nth i Xs [] = eq_exog (nth i sys no_equation)).
    { subst Xs. exact (nth_map_lt eq_exog sys i no_equation [] Hi). }
    assert (E1 : entry ex n (offset Xs i + k)
                 = entry (eq_exog (nth i sys no_equation)) n k).
    { rewrite Eex. unfold entry at 1. rewrite nth_map_seq by exact Hn.
      rewrite (nth_flat_map_offset N Xs n HXs Hn i k);
        [now rewrite Hnth|lia|now rewrite Hnth]. }
    split; [exact E1|]. rewrite E1.
    rewrite (entry_blocks N Xs HXs i n _ ltac:(lia) Hn).
    rewrite Hnth.
    replace (offset Xs i <=? offset Xs i + k) with true
      by (symmetry; apply Nat.leb_le; lia).
    replace (offset Xs i + k <? offset Xs i + ncols (eq_exog (nth i sys no_equation)))
      with true by (symmetry; apply Nat.ltb_lt; lia).
    cbn [andb]. f_equal. lia.
Qed.

Lemma column_stack_1d_mismatch (vs : list vector) (v : vector) :
  In v vs -> length v <> length (hd [] vs) ->
  column_stack_1d vs
  = inl (ValueError "all the input array dimensions must match exactly").
Proof.
  intros Hin Hlen. destruct vs as [|v0 vs]; [contradiction|].
  unfold column_stack_1d. cbn [hd] in Hlen.
  replace (forallb _ (v0 :: vs)) with false; [reflexivity|].
  symmetry. apply not_true_is_false. intros H.
  rewrite forallb_forall in H. apply Hlen, Nat.eqb_eq, H, Hin.
Qed.

Lemma column_stack_2d_mismatch (ms : list matrix) (m : matrix) :
  In m ms -> nrows m <> nrows (hd [] ms) ->
  column_stack_2d ms
  = inl (ValueError "all the input array dimensions must match exactly").
Proof.
  intros Hin Hlen. destruct ms as [|m0 ms]; [contradiction|].
  unfold column_stack_2d. cbn [hd] in Hlen.
  replace (forallb _ (m0 :: ms)) with false; [reflexivity|].
  symmetry. apply not_true_is_false. intros H.
  rewrite forallb_forall in H. apply Hlen, Nat.eqb_eq, H, Hin.
Qed.

(** X2: The constructors have no check of their own that the equations
    agree on the number of observations ([nobs] is read off the first
    equation); the stacking routine has.  A response whose length is not
    that of the first equation's, or, when the responses agree, a
    regressor array whose row count is not that of the first equation's,
    stops every constructor with the [ValueError] of [np.column_stack],
    whatever is passed for [sigma], which is not looked at. *)
Theorem unequal_observations_rejected
  (sys : list equation) (eq : equation) (sg : pyarg) :
  In eq sys ->
  length (eq_endog eq) <> length (eq_endog (hd no_equation sys)) \/
  (Forall (fun e => length (eq_endog e) = length (eq_endog (hd no_equation sys))) sys /\
   nrows (eq_exog eq) <> nrows (eq_exog (hd no_equation sys))) ->
  exists msg,
    SysModel_init sys = inl (ValueError msg) /\
    SysGLS_init sys sg = inl (ValueError msg) /\
    SysOLS_init sys = inl (ValueError msg).
Proof.
  intros Hin Hbad.
  exists "all the input array dimensions must match exactly"%string.
  assert (E : SysModel_init sys
              = inl (ValueError "all the input array dimensions must match exactly")).
  { destruct sys as [|eq0 sys']; [contradiction|].
    unfold SysModel_init. cbn [hd] in Hbad. destruct Hbad as [H1|[Hall H2]].
    - rewrite (column_stack_1d_mismatch (map eq_endog (eq0 :: sys')) (eq_endog eq));
        [reflexivity|now apply in_map|exact H1].
    - assert (E1 : forallb (fun u => length u =? length (eq_endog eq0))
                           (map eq_endog (eq0 :: sys')) = true).
      { apply forallb_forall. intros u Hu. apply in_map_iff in Hu.
        destruct Hu as [e [<- He]]. rewrite Forall_forall in Hall.
        apply Nat.eqb_eq. now apply Hall. }
      unfold column_stack_1d. cbn [map] in E1 |- *. rewrite E1. cbn [bind ret].
      change (eq_exog eq0 :: map eq_exog sys') with (map eq_exog (eq0 :: sys')).
      rewrite (column_stack_2d_mismatch (map eq_exog (eq0 :: sys')) (eq_exog eq));
        [reflexivity|now apply in_map|exact H2]. }
  split; [exact E|].
  unfold SysOLS_init, SysGLS_init. rewrite E. now split.
Qed.

(** *** The shape of the whitening operator *)

Lemma ncols_nil_rows (r c : nat) (A : matrix) :
  has_shape r c A -> (r = 0 -> c = 0) -> ncols A = c.
Proof.
  intros HA H0. destruct r as [|r].
  - destruct HA as [Hlen _]. destruct A; [|discriminate].
    symmetry. now apply H0.
  - apply (has_shape_ncols (S r) c A HA). lia.
Qed.

Lemma whitening_operator_shape (G N : nat) (C : matrix) :
  has_shape G G C ->
  has_shape (G * N) (G * N) (whitening_operator C N) /\
  ncols (whitening_operator C N) = G * N.
Proof.
  intros HC.
  assert (HK : has_shape (G * N) (G * N) (whitening_operator C N)).
  { unfold whitening_operator. change (np_eye N) with (identity N).
    apply np_kron_shape; [exact HC|apply tabulate_shape]. }
  split; [exact HK|]. apply (ncols_nil_rows (G * N) (G * N)); [exact HK|auto].
Qed.

(** the stored factor of a model that was built is a [G x G] array, as
    soon as the pseudo-inverse of the covariance has [G] rows *)
Lemma cholsigmainv_shape (sys : list equation) (sg : pyarg) (m : SysGLS) :
  SysGLS_init sys sg = inr m ->
  nrows (np_linalg_pinv (sigma m)) = neqs (pool m) ->
  0 < neqs (pool m) /\
  has_shape (neqs (pool m)) (neqs (pool m)) (cholsigmainv m).
Proof.
  intros Hinit Hpinv.
  destruct (SysGLS_init_inv sys sg m Hinit) as [L [Hpool [_ [HL [HC _]]]]].
  destruct (SysModel_init_neqs sys (pool m) Hpool) as [Hn Hne].
  assert (HG : 0 < neqs (pool m)).
  { rewrite Hn. destruct sys; [congruence|cbn; lia]. }
  split; [exact HG|].
  pose proof (cholesky_shape _ _ HL) as HLs. rewrite Hpinv in HLs.
  rewrite HC. apply transpose_shape;
    [exact (has_shape_nrows _ _ _ HLs)|exact (has_shape_ncols _ _ _ HLs HG)].
Qed.

(** X4: [whiten] accepts exactly the arrays with G . N rows, the height of
    the stacked system, and returns an array of the shape of its
    argument; any other row count is the [ValueError] of [np.dot]. *)
Theorem whiten_needs_stacked_rows
  (sys : list equation) (sg : pyarg) (m : SysGLS) (X : matrix) :
  SysGLS_init sys sg = inr m ->
  nrows (np_linalg_pinv (sigma m)) = neqs (pool m) ->
  (nrows X = neqs (pool m) * nobs (pool m) ->
     exists W, whiten m X = inr W /\ has_shape (nrows X) (ncols X) W) /\
  (nrows X <> neqs (pool m) * nobs (pool m) ->
     whiten m X = inl (ValueError "shapes not aligned")).
Proof.
  intros Hinit Hpinv.
  destruct (cholsigmainv_shape sys sg m Hinit Hpinv) as [HG HC].
  destruct (whitening_operator_shape _ (nobs (pool m)) _ HC) as [[Hr _] Hc].
  unfold whiten, whiten_with, np_dot. rewrite Hc. split; intros HX.
  - rewrite HX, Nat.eqb_refl. eexists. split; [reflexivity|].
    apply matmul_shape; [exact Hr|reflexivity].
  - replace (_ =? _) with false; [reflexivity|].
    symmetry. apply Nat.eqb_neq. congruence.
Qed.

(** X3: A system whose regressor arrays all have [M] rows while the responses
    have [N <> M] entries passes [SysModel.__init__], which compares
    neither; [nobs] is [N] and the block design has G . M rows.  No model
    is built from it: once the covariance is resolved the constructor
    stops in the Cholesky routine or, failing that, in [np.dot], when the
    operator of width G . N meets the block design. *)
Theorem design_rows_unchecked
  (N M : nat) (sys : list equation) (sg : pyarg) (S : matrix) :
  sys <> [] -> M <> N ->
  Forall (fun eq => length (eq_endog eq) = N /\
                    has_shape M (ncols (eq_exog eq)) (eq_exog eq)) sys ->
  resolve_sigma (length sys) sg = inr S ->
  nrows (np_linalg_pinv S) = length sys ->
  (exists base, SysModel_init sys = inr base /\
     nobs base = N /\ nrows (sp_exog base) = length sys * M) /\
  (exists e, SysGLS_init sys sg = inl e /\
     (NumericalError e = true \/ e = ValueError "shapes not aligned")).
Proof.
  intros Hne HMN Hall Hres Hpinv.
  assert (HG : 0 < length sys) by (destruct sys; [congruence|cbn; lia]).
  assert (Hrows : length (blocks (map eq_exog sys)) = length sys * M).
  { rewrite <- (length_map eq_exog sys). apply length_blocks.
    apply Forall_forall. intros X HX. apply in_map_iff in HX.
    destruct HX as [e [<- He]]. rewrite Forall_forall in Hall.
    now destruct (Hall e He) as [_ [H _]]. }
  assert (E : SysModel_init sys
              = inr {| neqs := length sys; nobs := N;
                       endog := np_transpose
                                  (map (fun i => map (fun u => nth i u zero)
                                                     (map eq_endog sys))
                                       (seq 0 N));
                       exog := map (fun i => flat_map (fun u => nth i u [])
                                                      (map eq_exog sys))
                                   (seq 0 M);
                       sp_exog := blocks (map eq_exog sys) |}).
  { destruct sys as [|eq0 sys']; [congruence|].
    assert (H0 : length (eq_endog eq0) = N).
    { inversion Hall as [|? ? [H _] _]; exact H. }
    assert (H0' : nrows (eq_exog eq0) = M).
    { inversion Hall as [|? ? [_ [H _]] _]; exact H. }
    assert (E1 : forallb (fun u => length u =? length (eq_endog eq0))
                         (map eq_endog (eq0 :: sys')) = true).
    { apply forallb_forall. intros u Hu. apply in_map_iff in Hu.
      destruct Hu as [e [<- He]]. rewrite Forall_forall in Hall.
      destruct (Hall e He) as [H _]. apply Nat.eqb_eq. congruence. }
    assert (E2 : forallb (fun u => nrows u =? nrows (eq_exog eq0))
                         (map eq_exog (eq0 :: sys')) = true).
    { apply forallb_forall. intros u Hu. apply in_map_iff in Hu.
      destruct Hu as [e [<- He]]. rewrite Forall_forall in Hall.
      destruct (Hall e He) as [_ [H _]]. apply Nat.eqb_eq.
      unfold nrows in *. congruence. }
    unfold SysModel_init, column_stack_1d, column_stack_2d.
    cbn [map] in *. rewrite E1, E2. cbn [bind ret].
    now rewrite H0, H0'. }
  split.
  - eexists. split; [exact E|]. cbn [nobs sp_exog]. split; [reflexivity|exact Hrows].
  - unfold SysGLS_init. rewrite E. cbn [bind neqs]. rewrite Hres. cbn [bind].
    unfold SysGLS_whitening.
    destruct (np_linalg_cholesky (np_linalg_pinv S)) as [e|L] eqn:EL.
    + exists e. split; [reflexivity|]. left. exact (cholesky_error _ _ EL).
    + cbn [bind nobs sp_exog].
      pose proof (cholesky_shape _ _ EL) as HLs. rewrite Hpinv in HLs.
      pose proof (transpose_shape _ _ L (has_shape_nrows _ _ _ HLs)
                    (has_shape_ncols _ _ _ HLs HG)) as HCs.
      destruct (whitening_operator_shape _ N _ HCs) as [_ Hc].
      unfold whiten_with at 1, np_dot. rewrite Hc.
      replace (_ =? _) with false.
      * eexists. split; [reflexivity|]. now right.
      * symmetry. apply Nat.eqb_neq. unfold nrows. rewrite Hrows. nia.
Qed.

(** *** Whitening is linear in the data *)

Lemma vdot_vadd_r (a u v : vector) :
  length u = length v ->
  vdot a (vadd u v) = add (vdot a u) (vdot a v).
Proof.
  revert u v. induction a as [|x a IH]; intros u v Hlen; [cbn; ring|].
  destruct u as [|y u]; destruct v as [|z v]; try discriminate Hlen.
  - cbn. ring.
  - unfold vadd. cbn [combine map fst snd vdot].
    fold (vadd u v). rewrite IH by (cbn in Hlen; lia). ring.
Qed.

Lemma column_madd (r c : nat) (X Y : matrix) (j : nat) :
  has_shape r c X -> has_shape r c Y -> j < c ->
  column j (madd X Y) = vadd (column j X) (column j Y).
Proof.
  intros [HrX HcX] [HrY HcY] Hj. subst r. revert Y HrY HcY.
  induction X as [|x X IH]; intros Y HrY HcY; [reflexivity|].
  destruct Y as [|y Y]; [discriminate|].
  apply Forall_cons_iff in HcX. destruct HcX as [Hx HcX].
  apply Forall_cons_iff in HcY. destruct HcY as [Hy HcY].
  unfold madd, column, vadd. cbn [combine map fst snd]. f_equal.
  - fold (vadd x y). unfold vadd.
    rewrite (nth_map_lt _ (combine x y) j (zero, zero) zero)
      by (rewrite length_combine; lia).
    now rewrite combine_nth by lia.
  - apply (IH HcX Y); [cbn in HrY; lia|exact HcY].
Qed.

Lemma ncols_madd (r c : nat) (X Y : matrix) :
  has_shape r c X -> has_shape r c Y -> ncols (madd X Y) = ncols X.
Proof.
  intros [HrX HcX] [HrY HcY].
  destruct X as [|x X]; [reflexivity|].
  destruct Y as [|y Y]; [cbn in *; lia|].
  apply Forall_cons_iff in HcX. destruct HcX as [Hx _].
  apply Forall_cons_iff in HcY. destruct HcY as [Hy _].
  unfold ncols, madd, vadd. cbn [combine map hd fst snd].
  rewrite length_map, length_combine. cbn [hd]. lia.
Qed.

Lemma matmul_madd_r (r c : nat) (A X Y : matrix) :
  has_shape r c X -> has_shape r c Y ->
  matmul A (madd X Y) = madd (matmul A X) (matmul A Y).
Proof.
  intros HX HY. unfold matmul at 2 3. unfold madd at 2.
  rewrite combine_map, map_map. unfold matmul.
  rewrite (ncols_madd r c X Y HX HY).
  apply map_ext. intros a. cbn [fst snd].
  assert (Hc : ncols Y = ncols X).
  { destruct HX as [HrX HcX]. destruct HY as [HrY HcY].
    destruct X as [|x X]; destruct Y as [|y Y]; cbn in *; try lia.
    apply Forall_cons_iff in HcX. apply Forall_cons_iff in HcY.
    destruct HcX, HcY. unfold ncols. cbn. lia. }
  rewrite Hc. unfold vadd at 1. rewrite combine_map, map_map.
  apply map_ext_in. intros j Hj. apply in_seq in Hj. cbn [fst snd].
  assert (Hjc : j < c).
  { destruct HX as [HrX HcX]. destruct X as [|x X]; [cbn in Hj; lia|].
    apply Forall_cons_iff in HcX. destruct HcX as [Hx _].
    unfold ncols in Hj. cbn [hd] in Hj. lia. }
  rewrite (column_madd r c X Y j HX HY Hjc).
  apply vdot_vadd_r. unfold column. rewrite !length_map.
  destruct HX, HY. congruence.
Qed.

(** X5: [whiten] is a linear map: the whitened sum of two arrays of one
    shape is the sum of the two whitened arrays, and whitening commutes
    with the multiplication by a number. *)
Theorem whiten_is_linear
  (m : SysGLS) (r c : nat) (X Y WX WY : matrix) (k : num) :
  has_shape r c X -> has_shape r c Y ->
  whiten m X = inr WX -> whiten m Y = inr WY ->
  whiten m (madd X Y) = inr (madd WX WY) /\
  whiten m (mscale k X) = inr (mscale k WX).
Proof.
  intros HX HY. unfold whiten, whiten_with, np_dot.
  assert (Hr : nrows (madd X Y) = nrows X).
  { unfold nrows, madd. rewrite length_map, length_combine.
    destruct HX, HY. lia. }
  rewrite Hr, nrows_mscale.
  destruct (_ =? _); [|discriminate].
  intros [= <-].
  assert (HrY : nrows Y = nrows X) by (destruct HX, HY; unfold nrows; congruence).
  rewrite HrY.
  destruct (_ =? _); [|discriminate].
  intros [= <-]. split.
  - now rewrite (matmul_madd_r r c _ X Y HX HY).
  - now rewrite matmul_mscale_r.
Qed.

(** *** The shapes of the stored arrays *)

Lemma resolve_sigma_square (G : nat) (sg : pyarg) (S : matrix) :
  resolve_sigma G sg = inr S -> nrows S = G /\ ncols S = G.
Proof.
  assert (Hd : forall v, length v = G ->
                 nrows (np_diag v) = G /\ ncols (np_diag v) = G).
  { intros v Hv. unfold nrows. now rewrite length_np_diag, ncols_np_diag. }
  destruct sg as [|x|l|[s|v|M|d1 d2 d3 ds]]; cbn [resolve_sigma];
    try discriminate.
  - intros [= <-]. apply Hd, length_np_ones.
  - intros [= <-]. apply Hd. unfold np_mul_scalar.
    now rewrite length_map, length_np_ones.
  - destruct (Nat.eqb_spec (length v) G) as [Hv|]; [|discriminate].
    intros [= <-]. now apply Hd.
  - destruct (Nat.eqb_spec (nrows M) G) as [H1|]; [|discriminate].
    destruct (Nat.eqb_spec (ncols M) G) as [H2|]; [|discriminate].
    intros [= <-]. now split.
Qed.

(** X6: The arrays a successful construction stores have the shapes the
    class documents: for G equations with N observations each and K
    regressors in all, the covariance and its factor are G x G, the
    whitened design is (G.N) x K and the whitened response (G.N) x 1. *)
Theorem built_model_shapes
  (N : nat) (sys : list equation) (sg : pyarg) (m : SysGLS) :
  0 < N -> Forall (equation_with_nobs N) sys ->
  SysGLS_init sys sg = inr m ->
  nrows (np_linalg_pinv (sigma m)) = length sys ->
  neqs (pool m) = length sys /\ nobs (pool m) = N /\
  nrows (sigma m) = length sys /\ ncols (sigma m) = length sys /\
  has_shape (length sys) (length sys) (cholsigmainv m) /\
  has_shape (length sys * N) (total_cols (map eq_exog sys)) (wexog m) /\
  has_shape (length sys * N) 1 (wendog m).
Proof.
  intros HN Hall Hinit Hpinv.
  destruct (SysGLS_init_inv sys sg m Hinit)
    as [L [Hpool [Hsig [HL [HC [Hwx [Hwy _]]]]]]].
  destruct (SysModel_init_neqs sys (pool m) Hpool) as [Hn Hne].
  assert (HG : 0 < length sys) by (destruct sys; [congruence|cbn; lia]).
  destruct (SysModel_init_built N sys Hne Hall) as [en [ex [Hen [_ Hb]]]].
  destruct (column_stack_1d_transpose N (map eq_endog sys) HN) as [en' [Hen' Ht]].
  { destruct sys; [congruence|discriminate]. }
  { exact (responses_length N sys Hall). }
  rewrite Hen in Hen'. injection Hen' as <-.
  rewrite Hpool in Hb. injection Hb as Hb.
  destruct (resolve_sigma_square _ _ _ Hsig) as [Hs1 Hs2].
  rewrite <- Hn in Hpinv.
  destruct (cholsigmainv_shape sys sg m Hinit Hpinv) as [_ HCs].
  rewrite Hn in HCs, Hs1, Hs2.
  destruct (whitening_operator_shape _ N _ HCs) as [[Hr _] _].
  unfold whiten, whiten_with in Hwx, Hwy. rewrite Hb in Hwx, Hwy.
  cbn [nobs sp_exog endog] in Hwx, Hwy.
  destruct (np_dot_inv _ _ _ Hwx) as [Ewx _].
  destruct (np_dot_inv _ _ _ Hwy) as [Ewy _].
  split; [exact Hn|]. split; [now rewrite Hb|].
  split; [exact Hs1|]. split; [exact Hs2|]. split; [exact HCs|]. split.
  - rewrite Ewx. apply matmul_shape; [exact Hr|].
    apply (has_shape_ncols (length sys * N)); [|nia]. split.
    + rewrite <- (length_map eq_exog sys). apply length_blocks.
      eapply Forall_impl; [|exact (regressors_shape N sys Hall)].
      now intros a [Ha _].
    + apply blocks_row_length.
      eapply Forall_impl; [|exact (regressors_shape N sys Hall)].
      now intros a [_ Ha].
  - rewrite Ewy. apply matmul_shape; [exact Hr|]. rewrite Ht.
    destruct sys as [|eq0 sys']; [congruence|].
    inversion Hall as [|? ? [Hy _] _]. cbn [map].
    destruct (eq_endog eq0) as [|y0 ys]; [cbn in Hy; lia|reflexivity].
Qed.

(** *** The stored factor is upper triangular *)

Lemma chol_rows_lower (n : nat) (rows prev L : matrix) :
  (forall j k, j < k -> entry prev j k = zero) ->
  chol_rows n prev rows = inr L ->
  forall j k, j < k -> entry L j k = zero.
Proof.
  revert prev. induction rows as [|a rows IH]; intros prev Hprev HL.
  - cbn in HL. now injection HL as <-.
  - cbn [chol_rows] in HL. destruct (ltb zero _); [|discriminate].
    revert HL. apply IH. clear IH.
    intros j k Hjk. unfold entry.
    destruct (Nat.lt_ge_cases j (length prev)) as [Hj|Hj].
    + rewrite app_nth1 by exact Hj. now apply Hprev.
    + destruct (Nat.eq_dec j (length prev)) as [->|Hne].
      * rewrite nth_middle.
        rewrite app_nth2 by (rewrite length_chol_cur; cbn [length]; lia).
        rewrite length_chol_cur. cbn [length Nat.add].
        destruct (k - length prev) as [|d] eqn:E; [lia|].
        cbn [nth]. apply nth_zeros.
      * rewrite (nth_overflow (prev ++ [_]) [])
          by (rewrite length_app; cbn [length]; lia).
        apply nth_nil_zero.
Qed.

Lemma cholesky_lower (A L : matrix) :
  np_linalg_cholesky A = inr L ->
  forall j k, j < k -> entry L j k = zero.
Proof.
  unfold np_linalg_cholesky. destruct (forallb _ _); [|discriminate].
  apply chol_rows_lower. intros j k _. unfold entry.
  destruct j; cbn [nth]; apply nth_nil_zero.
Qed.

Lemma cholsigmainv_upper (sys : list equation) (sg : pyarg) (m : SysGLS) :
  SysGLS_init sys sg = inr m ->
  forall i j, j < i -> entry (cholsigmainv m) i j = zero.
Proof.
  intros Hinit i j Hji.
  destruct (SysGLS_init_inv sys sg m Hinit) as [L [_ [_ [HL [HC _]]]]].
  rewrite HC. destruct (Nat.lt_ge_cases i (ncols L)) as [Hi|Hi].
  - rewrite entry_transpose by exact Hi. exact (cholesky_lower _ _ HL j i Hji).
  - apply entry_out_of_rows. unfold np_transpose.
    now rewrite length_map, length_seq.
Qed.

(** X7: [cholsigmainv], the transpose of a lower Cholesky factor, has zeros
    below its diagonal.  Whitening therefore combines the rows of
    equation [g] with those of the equations after it only: the equations
    before [g] do not enter, and the last equation is merely rescaled. *)
Theorem whitening_is_triangular
  (N : nat) (sys : list equation) (sg : pyarg) (m : SysGLS) :
  Forall (equation_with_nobs N) sys ->
  SysGLS_init sys sg = inr m ->
  nrows (np_linalg_pinv (sigma m)) = length sys ->
  (forall i j, j < i -> entry (cholsigmainv m) i j = zero) /\
  forall X W, whiten m X = inr W ->
    forall g n col, g < length sys -> n < N -> col < ncols X ->
      entry W (g * N + n) col
      = sum_to (length sys - g)
          (fun d => mul (entry (cholsigmainv m) g (g + d))
                        (entry X ((g + d) * N + n) col)).
Proof.
  intros Hall Hinit Hpinv.
  pose proof (cholsigmainv_upper sys sg m Hinit) as Hup.
  split; [exact Hup|].
  intros X W HW g n col Hg Hn Hcol.
  destruct (SysGLS_init_inv sys sg m Hinit) as [L [Hpool _]].
  destruct (SysModel_init_neqs sys (pool m) Hpool) as [Hneq Hne].
  destruct (SysModel_init_built N sys Hne Hall) as [en [ex [_ [_ Hb]]]].
  assert (HN : nobs (pool m) = N).
  { rewrite Hpool in Hb. injection Hb as Hb. now rewrite Hb. }
  rewrite <- Hneq in Hpinv.
  destruct (cholsigmainv_shape sys sg m Hinit Hpinv) as [_ HCs].
  rewrite Hneq in HCs.
  unfold whiten, whiten_with in HW. rewrite HN in HW.
  destruct (np_dot_inv _ _ _ HW) as [-> _].
  rewrite (entry_whitened _ _ N (cholsigmainv m) X g n col HCs Hg Hn Hcol).
  replace (length sys) with (g + (length sys - g)) at 1 by lia.
  rewrite sum_to_app.
  rewrite sum_to_ext with (g := fun _ => zero).
  - rewrite sum_to_zero. ring.
  - intros h Hh. rewrite (Hup g h Hh). ring.
Qed.

(** *** The parameter covariance *)

Lemma wendog_column (sys : list equation) (sg : pyarg) (m : SysGLS) (r : nat) :
  SysGLS_init sys sg = inr m -> nrows (wexog m) = r -> 0 < r ->
  mx r 1 (wendog m).
Proof.
  intros Hinit Hr Hpos.
  destruct (SysGLS_init_inv sys sg m Hinit)
    as [L [_ [_ [HL [HC [Hwx [Hwy _]]]]]]].
  pose proof (cholesky_shape _ _ HL) as HLs.
  set (n := nrows (np_linalg_pinv (sigma m))) in *.
  assert (HCs : has_shape n n (cholsigmainv m)).
  { rewrite HC. apply transpose_shape; [exact (has_shape_nrows _ _ _ HLs)|].
    apply (ncols_nil_rows n n); [exact HLs|auto]. }
  destruct (whitening_operator_shape _ (nobs (pool m)) _ HCs) as [[Hop _] Hc].
  unfold whiten, whiten_with in Hwx, Hwy.
  destruct (np_dot_inv _ _ _ Hwx) as [_ Hrx].
  destruct (np_dot_inv _ _ _ Hwy) as [Ewy Hry].
  unfold nrows in Hrx, Hry, Hr. rewrite Hop in Hrx, Hry.
  split; [exact Hpos|]. split; [lia|].
  rewrite Ewy. apply matmul_shape; [rewrite Hop; lia|].
  unfold np_dot in Hwy. rewrite Hc in Hwy.
  destruct (Nat.eqb_spec (n * nobs (pool m))
              (nrows (reshape_column (endog (pool m))))) as [E|]; [|discriminate].
  unfold reshape_column in *. unfold nrows in E. rewrite length_map in E.
  destruct (concat (endog (pool m))) as [|y0 ys]; [cbn in E; lia|reflexivity].
Qed.

(** X10: [fit] on a built model whose [pinv_wexog] is the Moore-Penrose
    pseudo-inverse of the whitened design: [normalized_cov_params] is
    symmetric and is the pseudo-inverse of the Gram matrix
    wexog^T . wexog, the inverse of that matrix when it has one; and the
    estimate is a column with one entry per regressor. *)
Theorem normalized_cov_params_is_gram_pinv
  (sys : list equation) (sg : pyarg) (m : SysGLS) (r c : nat) :
  SysGLS_init sys sg = inr m ->
  is_pinv r c (wexog m) (np_linalg_pinv (wexog m)) ->
  exists res,
    fit m = inr res /\
    mx c 1 (params res) /\
    symmetric (normalized_cov_params res) /\
    is_pinv c c (matmul (np_transpose (wexog m)) (wexog m))
                (normalized_cov_params res).
Proof.
  intros Hinit Hp.
  destruct (SysGLS_init_inv sys sg m Hinit)
    as [L [_ [_ [_ [_ [Hwx [Hwy Hpinv]]]]]]].
  unfold whiten, whiten_with in Hwx, Hwy.
  destruct (np_dot_inv _ _ _ Hwx) as [_ Hrx].
  destruct (np_dot_inv _ _ _ Hwy) as [Ewy Hry].
  destruct Hp as [HA [HP [P1 [P2 [P3 P4]]]]].
  set (A := wexog m) in *. set (P := np_linalg_pinv A) in *.
  assert (Hrows : nrows (wendog m) = r).
  { rewrite Hry, <- Hrx. exact (mx_length _ _ _ HA). }
  assert (Hy : mx r 1 (wendog m)).
  { apply (wendog_column sys sg m r Hinit); [exact (mx_length _ _ _ HA)|apply HA]. }
  pose proof (mx_transpose _ _ _ HA) as HAt.
  pose proof (mx_transpose _ _ _ HP) as HPt.
  pose proof (mx_matmul _ _ _ _ _ HA HP) as HAP.
  pose proof (mx_matmul _ _ _ _ _ HP HA) as HPA.
  pose proof (mx_matmul _ _ _ _ _ HAt HA) as HG.
  pose proof (mx_matmul _ _ _ _ _ HP HPt) as HQ.
  unfold fit. rewrite Hpinv. fold A. fold P.
  rewrite np_dot_aligned by (rewrite (mx_ncols _ _ _ HP); now rewrite Hrows).
  cbn [bind]. rewrite np_dot_transpose_self. cbn [bind ret].
  eexists. split; [reflexivity|]. cbn [params normalized_cov_params].
  split; [exact (mx_matmul _ _ _ _ _ HP Hy)|].
  (* G Q = P A and Q G = P A *)
  assert (EAt : matmul (np_transpose A) (np_transpose P) = matmul P A).
  { rewrite <- (transpose_matmul _ _ _ P A HP HA). exact P4. }
  assert (EPt : matmul (np_transpose P) (np_transpose A) = matmul A P).
  { rewrite <- (transpose_matmul _ _ _ A P HA HP). exact P3. }
  assert (EGQ : matmul (matmul (np_transpose A) A) (matmul P (np_transpose P))
                = matmul P A).
  { rewrite (matmul_assoc c r c c (np_transpose A) A _ HAt HA HQ).
    rewrite <- (matmul_assoc r c r c A P (np_transpose P) HA HP HPt).
    rewrite <- EPt.
    rewrite (matmul_assoc r c r c (np_transpose P) (np_transpose A) (np_transpose P)
               HPt HAt HPt).
    rewrite EAt.
    rewrite <- (matmul_assoc c r c c (np_transpose A) (np_transpose P) (matmul P A)
                 HAt HPt HPA).
    rewrite EAt.
    rewrite (matmul_assoc c r c c P A (matmul P A) HP HA HPA).
    rewrite <- (matmul_assoc r c r c A P A HA HP HA).
    now rewrite P1. }
  assert (EQG : matmul (matmul P (np_transpose P)) (matmul (np_transpose A) A)
                = matmul P A).
  { rewrite (matmul_assoc c r c c P (np_transpose P) _ HP HPt HG).
    rewrite <- (matmul_assoc r c r c (np_transpose P) (np_transpose A) A HPt HAt HA).
    rewrite EPt. now rewrite P1. }
  split.
  - unfold symmetric.
    rewrite (transpose_matmul c r c P (np_transpose P) HP HPt).
    now rewrite (transpose_transpose c r P HP).
  - split; [exact HG|]. split; [exact HQ|].
    rewrite EGQ, EQG. split; [|split; [|split; exact P4]].
    + rewrite <- (matmul_assoc c c r c (matmul P A) (np_transpose A) A HPA HAt HA).
      rewrite <- P4 at 1.
      rewrite <- (transpose_matmul r c c A (matmul P A) HA HPA).
      rewrite <- (matmul_assoc r c r c A P A HA HP HA).
      now rewrite P1.
    + rewrite <- (matmul_assoc c c r c (matmul P A) P (np_transpose P) HPA HP HPt).
      now rewrite P2.
Qed.

(** *** Default arguments and the order of the checks *)

Lemma np_mul_scalar_one (v : vector) : np_mul_scalar v one = v.
Proof.
  unfold np_mul_scalar. rewrite <- (map_id v) at 2.
  apply map_ext. intros x. ring.
Qed.

(** X11: [SysWLS(sys)] with the default [weights=1.0] builds the model
    [SysOLS(sys)] builds, and so does [SysGLS] given the 0-d array 1.0, a
    vector of G ones or the G x G identity for [sigma]: each resolves to
    the covariance identity(G) that [sigma=None] stands for. *)
Theorem default_weights_are_ols (sys : list equation) :
  SysWLS_init sys (PyFloat one) = SysOLS_init sys /\
  SysWLS_init sys (PyList (np_ones (length sys))) = SysOLS_init sys /\
  SysGLS_init sys (PyArray (Arr0 one)) = SysOLS_init sys /\
  SysGLS_init sys (PyArray (Arr1 (np_ones (length sys)))) = SysOLS_init sys /\
  SysGLS_init sys (PyArray (Arr2 (np_eye (length sys)))) = SysOLS_init sys.
Proof.
  assert (E2 : resolve_sigma (length sys) (PyArray (Arr2 (np_diag (np_ones (length sys)))))
               = resolve_sigma (length sys) PyNone).
  { rewrite resolve_sigma_np_diag by apply length_np_ones. reflexivity. }
  unfold SysOLS_init, SysWLS_init. cbn [np_asarray].
  rewrite np_mul_scalar_one, length_np_ones, Nat.eqb_refl.
  split; [|split; [|split; [|split]]]; apply SysGLS_init_resolved.
  - exact E2.
  - exact E2.
  - cbn [resolve_sigma]. now rewrite np_mul_scalar_one.
  - now rewrite resolve_sigma_vector by apply length_np_ones.
  - change (np_eye (length sys)) with (identity (length sys)).
    rewrite <- np_diag_ones. exact E2.
Qed.

(** X12: The order in which the constructors look at their arguments.
    [SysGLS] pools the equations first: an error of the pooling is the
    error of the constructor whatever [sigma] is, even a value that has no
    [shape].  [SysWLS] looks at [weights] first: an array with two or
    more axes, such as the G x G covariance [SysGLS] accepts, is rejected
    with [ValueError] whatever [sys] is; with weights it accepts, an error
    of the pooling comes through unchanged. *)
Theorem constructor_check_order (sys : list equation) :
  (forall sg e, SysModel_init sys = inl e -> SysGLS_init sys sg = inl e) /\
  (forall w a, np_asarray w = Some a -> 2 <= ndim a ->
     SysWLS_init sys w = inl (ValueError "weights is not correctly specified")) /\
  (forall x e, SysModel_init sys = inl e ->
     SysWLS_init sys (PyFloat x) = inl e) /\
  (forall v e, length v = length sys -> SysModel_init sys = inl e ->
     SysWLS_init sys (PyList v) = inl e).
Proof.
  split; [|split; [|split]].
  - intros sg e E. unfold SysGLS_init. now rewrite E.
  - intros w a Ha Hd. unfold SysWLS_init. rewrite Ha.
    destruct a as [x|v|M|d1 d2 d3 ds]; cbn in Hd; try lia; reflexivity.
  - intros x e E. unfold SysWLS_init, SysGLS_init. cbn [np_asarray].
    now rewrite E.
  - intros v e Hv E. unfold SysWLS_init, SysGLS_init. cbn [np_asarray].
    rewrite Hv, Nat.eqb_refl. now rewrite E.
Qed.

(** *** Ordinary least squares leaves the data as it is *)

Section Unweighted.

Hypothesis zero_lt_one : ltb zero one = true.
Hypothesis sqrt_one : sqrt one = one.
Hypothesis zero_div_one : div zero one = zero.

(** X13: [SysOLS] on G equations with N observations and at least one
    regressor each: the covariance and the stored factor are the
    identity, the whitened design is the block design and the whitened
    response the stacked response, and [whiten] returns its argument.
    The platform has [0 < 1], [sqrt 1 = 1] and [0 / 1 = 0], and
    [np.linalg.pinv] returns the pseudo-inverse of the identity. *)
Theorem ols_whitening_is_identity (N : nat) (sys : list equation) :
  0 < N -> sys <> [] -> Forall (usable_equation N) sys ->
  is_pinv (length sys) (length sys) (identity (length sys))
          (np_linalg_pinv (identity (length sys))) ->
  exists m,
    SysOLS_init sys = inr m /\
    sigma m = identity (length sys) /\
    cholsigmainv m = identity (length sys) /\
    wexog m = sp_exog (pool m) /\
    wendog m = reshape_column (endog (pool m)) /\
    wendog m = as_column (concat (map eq_endog sys)) /\
    forall c X, mx (length sys * N) c X -> whiten m X = inr X.
Proof.
  intros HN Hne Hall Hpi.
  assert (HG : 0 < length sys) by (destruct sys; [congruence|cbn; lia]).
  destruct (ols_built zero_lt_one sqrt_one zero_div_one N HN sys Hne Hall Hpi)
    as [m [Hm Hs]].
  destruct (identity_covariance_fields zero_lt_one sqrt_one zero_div_one N HN
              sys PyNone m Hall Hm Hs Hpi) as [Hwx Hwy].
  destruct (SysGLS_init_inv sys PyNone m Hm)
    as [L [Hpool [_ [HL [HC _]]]]].
  assert (Hall' : Forall (equation_with_nobs N) sys).
  { eapply Forall_impl; [|exact Hall]. now intros eq [H _]. }
  destruct (SysModel_init_built N sys Hne Hall') as [en [ex [Hen [_ Hb]]]].
  destruct (column_stack_1d_transpose N (map eq_endog sys) HN) as [en' [Hen' Ht]].
  { destruct sys; [congruence|discriminate]. }
  { exact (responses_length N sys Hall'). }
  rewrite Hen in Hen'. injection Hen' as <-.
  rewrite Hpool in Hb. injection Hb as Hb.
  assert (EC : cholsigmainv m = identity (length sys)).
  { rewrite Hs in HL.
    rewrite <- (pinv_unique _ _ _ _ _ (is_pinv_identity _ HG) Hpi) in HL.
    rewrite (cholesky_identity zero_lt_one sqrt_one zero_div_one) in HL.
    injection HL as <-. rewrite HC. exact (transpose_identity _ HG). }
  exists m. split; [exact Hm|]. split; [exact Hs|]. split; [exact EC|].
  rewrite Hb. cbn [sp_exog endog nobs]. rewrite Ht.
  split; [exact Hwx|]. split; [exact Hwy|]. split; [exact Hwy|].
  intros c X HX. unfold whiten. rewrite EC, Hb. cbn [nobs].
  exact (whiten_with_identity _ N c X HG HN HX).
Qed.

End Unweighted.

(** ** The Cholesky factor multiplies back

    In a field where the comparison is irreflexive at zero, and on
    arguments whose pivots have exact square roots, the factor [L] the
    routine returns satisfies L . L^T = A on the lower triangle it read,
    hence everywhere when [A] is symmetric. *)

Lemma sum_to_S_last (n : nat) (f : nat -> num) :
  sum_to (S n) f = add (sum_to n f) (f n).
Proof.
  replace (S n) with (n + 1) by lia. rewrite sum_to_app.
  rewrite sum_to_S_first, sum_to_0, Nat.add_0_r. ring.
Qed.

Lemma skipn_cons_nth {A : Type} (i : nat) (l : list A) (a d : A) (rest : list A) :
  skipn i l = a :: rest -> nth i l d = a /\ skipn (S i) l = rest.
Proof.
  revert l. induction i as [|i IH]; intros l H.
  - cbn in H. subst l. now split.
  - destruct l as [|x l]; [discriminate|]. cbn [skipn] in H.
    destruct (IH l H) as [H1 H2]. split; [exact H1|exact H2].
Qed.

Lemma chol_rows_prefix (n : nat) (rows prev L : matrix) :
  chol_rows n prev rows = inr L -> exists suf, L = prev ++ suf.
Proof.
  revert prev. induction rows as [|a rows IH]; intros prev HL.
  - cbn in HL. injection HL as <-. exists []. now rewrite app_nil_r.
  - cbn [chol_rows] in HL. destruct (ltb zero _); [|discriminate].
    destruct (IH _ HL) as [suf ->]. rewrite <- app_assoc. eexists. reflexivity.
Qed.

(** the entries of a row under construction: those already there stay,
    and entry [j] is what is left of [a[j]] divided by the diagonal of
    row [j] *)
Lemma chol_cur_entries (a : vector) (ps : matrix) (acc : vector) :
  (forall k, k < length acc ->
     nth k (fold_left (chol_offdiag a) ps acc) zero = nth k acc zero) /\
  (forall t, t < length ps ->
     nth (length acc + t) (fold_left (chol_offdiag a) ps acc) zero
     = div (sub (nth (length acc + t) a zero)
                (sum_to (length acc + t)
                   (fun k => mul (nth k (fold_left (chol_offdiag a) ps acc) zero)
                                 (nth k (nth t ps []) zero))))
           (nth (length acc + t) (nth t ps []) zero)).
Proof.
  revert acc. induction ps as [|Lj ps IH]; intros acc.
  - split; [reflexivity|]. intros t Ht. cbn in Ht. lia.
  - cbn [fold_left]. destruct (IH (chol_offdiag a acc Lj)) as [IH1 IH2].
    assert (Hlen : length (chol_offdiag a acc Lj) = S (length acc)).
    { unfold chol_offdiag. rewrite length_app. cbn [length]. lia. }
    assert (H1 : forall k, k < length acc ->
              nth k (fold_left (chol_offdiag a) ps (chol_offdiag a acc Lj)) zero
              = nth k acc zero).
    { intros k Hk. rewrite IH1 by lia. unfold chol_offdiag.
      now rewrite app_nth1 by exact Hk. }
    split; [exact H1|].
    intros t Ht. destruct t as [|t].
    + rewrite Nat.add_0_r. cbn [nth]. rewrite IH1 by lia.
      unfold chol_offdiag at 1. rewrite nth_middle.
      f_equal. f_equal. rewrite vdot_sum. apply sum_to_ext. intros k Hk.
      now rewrite H1 by exact Hk.
    + cbn [nth length] in *.
      replace (length acc + S t) with (length (chol_offdiag a acc Lj) + t) by lia.
      apply IH2. lia.
Qed.

Section Factorization.

Hypothesis num_field :
  field_theory zero one add mul sub opp div inv (@eq num).
Hypothesis ltb_irrefl : ltb zero zero = false.

Add Field num_field_factorization : num_field.

Lemma sqrt_exact_nonzero (d : num) :
  ltb zero d = true -> sqrt_exact d -> sqrt d <> zero.
Proof.
  unfold sqrt_exact. intros Hd Hs Hz. rewrite Hz in Hs.
  assert (E : d = zero) by (rewrite <- Hs; ring).
  rewrite E, ltb_irrefl in Hd. discriminate Hd.
Qed.

Lemma chol_rows_factor (n : nat) (A L : matrix) :
  (forall i, i < length L -> sqrt_exact (pivot A L i)) ->
  forall rows prev,
    rows = skipn (length prev) A ->
    chol_rows n prev rows = inr L ->
    (forall i, i < length prev -> entry prev i i <> zero) ->
    (forall i j, j <= i -> i < length prev ->
       sum_to (S j) (fun k => mul (entry prev i k) (entry prev j k))
       = entry A i j) ->
    (forall i, i < length L -> entry L i i <> zero) /\
    (forall i j, j <= i -> i < length L ->
       sum_to (S j) (fun k => mul (entry L i k) (entry L j k)) = entry A i j).
Proof.
  intros Hsq. induction rows as [|a rows IH]; intros prev Hrows HL Hd Hp.
  - cbn in HL. injection HL as <-. now split.
  - cbn [chol_rows] in HL.
    destruct (skipn_cons_nth _ _ _ [] _ (eq_sym Hrows)) as [Ha Hrest].
    set (i := length prev) in *.
    set (cur := fold_left (chol_offdiag a) prev []) in *.
    set (d := sub (nth i a zero) (vdot cur cur)) in *.
    destruct (ltb zero d) eqn:Epos; [|discriminate].
    set (row := cur ++ sqrt d :: np_zeros (n - S i)) in *.
    assert (Hcur : length cur = i).
    { subst cur. now rewrite length_chol_cur. }
    destruct (chol_cur_entries a prev []) as [_ Hent]. fold cur in Hent.
    cbn [length Nat.add] in Hent.
    assert (Hrow_lt : forall k, k < i -> nth k row zero = nth k cur zero).
    { intros k Hk. subst row. now rewrite app_nth1 by lia. }
    assert (Hrow_i : nth i row zero = sqrt d).
    { subst row. rewrite <- Hcur. apply nth_middle. }
    assert (Hnew : forall k, entry (prev ++ [row]) i k = nth k row zero).
    { intros k. unfold entry. subst i. now rewrite nth_middle. }
    assert (Hold : forall t k, t < i -> entry (prev ++ [row]) t k = entry prev t k).
    { intros t k Ht. unfold entry. now rewrite app_nth1 by exact Ht. }
    assert (Hsquares : sum_to i (fun k => mul (nth k row zero) (nth k row zero))
                       = vdot cur cur).
    { rewrite vdot_sum, Hcur. apply sum_to_ext. intros k Hk.
      now rewrite Hrow_lt by exact Hk. }
    (* the pivot of this row is the pivot of the finished factor *)
    destruct (chol_rows_prefix _ _ _ _ HL) as [suf EL].
    assert (HiL : i < length L).
    { rewrite EL, !length_app. cbn [length]. lia. }
    assert (Hex : sqrt_exact d).
    { specialize (Hsq i HiL). unfold pivot in Hsq.
      assert (EA : entry A i i = nth i a zero) by (unfold entry; now rewrite Ha).
      assert (ELi : forall k, entry L i k = nth k row zero).
      { intros k. rewrite EL. unfold entry.
        rewrite app_nth1 by (rewrite length_app; cbn [length]; lia).
        subst i. now rewrite nth_middle. }
      rewrite EA in Hsq.
      rewrite (sum_to_ext i _ (fun k => mul (nth k row zero) (nth k row zero)))
        in Hsq by (intros k _; now rewrite !ELi).
      rewrite Hsquares in Hsq. exact Hsq. }
    pose proof (sqrt_exact_nonzero d Epos Hex) as Hnz.
    apply (IH (prev ++ [row])).
    + rewrite length_app. cbn [length]. rewrite Nat.add_1_r. now symmetry.
    + exact HL.
    + intros t Ht. rewrite length_app in Ht. cbn [length] in Ht.
      destruct (Nat.eq_dec t i) as [->|Hne].
      * now rewrite Hnew, Hrow_i.
      * rewrite Hold by lia. apply Hd. lia.
    + intros t j Hjt Ht. rewrite length_app in Ht. cbn [length] in Ht.
      destruct (Nat.eq_dec t i) as [->|Hne].
      * assert (EA : entry A i j = nth j a zero) by (unfold entry; now rewrite Ha).
        rewrite EA. destruct (Nat.eq_dec j i) as [->|Hji].
        -- rewrite sum_to_S_last.
           rewrite (sum_to_ext i _ (fun k => mul (nth k row zero) (nth k row zero)))
             by (intros k _; now rewrite !Hnew).
           rewrite Hsquares, !Hnew, Hrow_i, Hex. subst d. ring.
        -- assert (Hj : j < i) by lia.
           rewrite sum_to_S_last.
           rewrite (sum_to_ext j _
                      (fun k => mul (nth k cur zero) (nth k (nth j prev []) zero))).
           2:{ intros k Hk. rewrite Hnew, (Hold j k Hj).
               now rewrite Hrow_lt by lia. }
           rewrite Hnew, (Hold j j Hj), (Hrow_lt j Hj), (Hent j Hj).
           specialize (Hd j Hj). unfold entry in Hd |- *.
           field. exact Hd.
      * assert (Hti : t < i) by lia.
        rewrite (sum_to_ext (S j) _
                   (fun k => mul (entry prev t k) (entry prev j k))).
        -- apply Hp; lia.
        -- intros k _. now rewrite (Hold t k Hti), (Hold j k ltac:(lia)).
Qed.

(** the factor of a symmetric array multiplies back to the array *)
Lemma cholesky_factorization (A L : matrix) :
  np_linalg_cholesky A = inr L ->
  symmetric A ->
  (forall i, i < nrows A -> sqrt_exact (pivot A L i)) ->
  matmul L (np_transpose L) = A.
Proof.
  intros HL Hsym Hsq.
  pose proof (cholesky_shape _ _ HL) as HLs.
  pose proof (cholesky_lower _ _ HL) as Hlow.
  assert (HAs : has_shape (nrows A) (nrows A) A).
  { unfold np_linalg_cholesky in HL.
    destruct (forallb _ A) eqn:E; [|discriminate].
    split; [reflexivity|]. apply Forall_forall. intros row Hrow.
    rewrite forallb_forall in E. now apply Nat.eqb_eq, E. }
  set (n := nrows A) in *.
  destruct (Nat.eq_dec n 0) as [Hn0|Hn0].
  - destruct HLs as [HlenL _]. destruct HAs as [HlenA _].
    rewrite Hn0 in HlenL, HlenA.
    destruct L; [|discriminate]. destruct A; [|discriminate]. reflexivity.
  - assert (Hn : 0 < n) by lia.
    assert (HLm : mx n n L) by (split; [exact Hn|]; split; [exact Hn|exact HLs]).
    assert (HAm : mx n n A) by (split; [exact Hn|]; split; [exact Hn|exact HAs]).
    pose proof (mx_transpose _ _ _ HLm) as HLt.
    assert (HlenL : length L = n) by exact (mx_length _ _ _ HLm).
    destruct (chol_rows_factor n A L) with (rows := A) (prev := @nil (list num))
      as [_ Hfac].
    + intros i Hi. apply Hsq. now rewrite <- HlenL.
    + reflexivity.
    + unfold np_linalg_cholesky in HL.
      destruct (forallb _ A); [exact HL|discriminate].
    + intros i Hi. cbn in Hi. lia.
    + intros i j _ Hi. cbn in Hi. lia.
    + assert (Hprod : forall i j, i < n -> j <= i ->
                entry (matmul L (np_transpose L)) i j = entry A i j).
      { intros i j Hi Hj.
        rewrite (entry_matmul_mx n n n L _ i j HLm HLt Hi ltac:(lia)).
        replace n with (S j + (n - S j)) at 1 by lia.
        rewrite sum_to_app.
        rewrite (sum_to_ext (n - S j) _ (fun _ => zero)).
        - rewrite sum_to_zero.
          rewrite (sum_to_ext (S j) _ (fun k => mul (entry L i k) (entry L j k))).
          + rewrite (Hfac i j Hj ltac:(lia)). ring.
          + intros k Hk.
            now rewrite (entry_transpose_mx n n L j k HLm ltac:(lia)).
        - intros k Hk.
          rewrite (entry_transpose_mx n n L j (S j + k) HLm ltac:(lia)).
          rewrite (Hlow j (S j + k) ltac:(lia)). ring. }
      apply (mx_ext n n); [exact (mx_matmul _ _ _ _ _ HLm HLt)|exact HAm|].
      intros i j Hi Hj.
      destruct (Nat.le_gt_cases j i) as [Hji|Hji]; [now apply Hprod|].
      assert (Esym : entry A i j = entry A j i).
      { rewrite <- Hsym at 1. exact (entry_transpose_mx n n A j i HAm Hi). }
      rewrite Esym, <- (Hprod j i Hj ltac:(lia)).
      rewrite (entry_matmul_mx n n n L _ i j HLm HLt Hi Hj).
      rewrite (entry_matmul_mx n n n L _ j i HLm HLt Hj Hi).
      apply sum_to_ext. intros k Hk.
      rewrite (entry_transpose_mx n n L j k HLm Hk).
      rewrite (entry_transpose_mx n n L i k HLm Hk). ring.
Qed.

(** the operator times its transpose: the Kronecker product of C^T . C
    with the identity *)
Lemma operator_gram (G N : nat) (C : matrix) :
  0 < G -> 0 < N -> has_shape G G C ->
  matmul (np_transpose (whitening_operator C N)) (whitening_operator C N)
  = np_kron (matmul (np_transpose C) C) (identity N).
Proof.
  intros HG HN HC.
  assert (HCm : mx G G C) by (split; [exact HG|]; split; [exact HG|exact HC]).
  pose proof (mx_transpose _ _ _ HCm) as HCt.
  pose proof (mx_matmul _ _ _ _ _ HCt HCm) as HCC.
  assert (HI : has_shape N N (identity N)) by apply tabulate_shape.
  destruct (whitening_operator_shape G N C HC) as [HWs _].
  set (W := whitening_operator C N) in *.
  assert (HWm : mx (G * N) (G * N) W).
  { split; [nia|]. split; [nia|exact HWs]. }
  pose proof (mx_transpose _ _ _ HWm) as HWt.
  assert (HK : mx (G * N) (G * N) (np_kron (matmul (np_transpose C) C) (identity N))).
  { split; [nia|]. split; [nia|].
    apply np_kron_shape; [exact (mx_shape _ _ _ HCC)|exact HI]. }
  apply (mx_ext (G * N) (G * N)); [exact (mx_matmul _ _ _ _ _ HWt HWm)|exact HK|].
  intros i j Hi Hj.
  pose proof (Nat.div_mod_eq i N) as Hdi.
  pose proof (Nat.mod_upper_bound i N ltac:(lia)) as Hmi.
  pose proof (Nat.div_mod_eq j N) as Hdj.
  pose proof (Nat.mod_upper_bound j N ltac:(lia)) as Hmj.
  assert (Hgi : i / N < G) by (apply Nat.Div0.div_lt_upper_bound; lia).
  assert (Hgj : j / N < G) by (apply Nat.Div0.div_lt_upper_bound; lia).
  assert (Ei : i = i / N * N + i mod N) by lia.
  assert (Ej : j = j / N * N + j mod N) by lia.
  revert Ei Ej Hgi Hgj Hmi Hmj.
  generalize (i / N) as g, (i mod N) as n, (j / N) as g', (j mod N) as n'.
  clear Hdi Hdj. intros g n g' n' Ei Ej Hgi Hgj Hmi Hmj.
  rewrite (entry_matmul_mx _ _ _ _ _ i j HWt HWm Hi Hj).
  rewrite sum_to_blocked.
  rewrite (sum_to_ext G _
             (fun h => mul (mul (entry C h g) (entry C h g'))
                           (if n =? n' then one else zero))).
  2:{ intros h Hh.
      rewrite (sum_to_ext N _
                 (fun t => if t =? n
                           then mul (mul (entry C h g) (entry C h g'))
                                    (if n =? n' then one else zero)
                           else zero)).
      - exact (sum_to_delta N n
                 (fun _ => mul (mul (entry C h g) (entry C h g'))
                               (if n =? n' then one else zero)) Hmi).
      - intros t Ht.
        rewrite (entry_transpose_mx (G * N) (G * N) W (h * N + t) i HWm Hi).
        rewrite Ei, Ej. subst W. unfold whitening_operator.
        change (np_eye N) with (identity N).
        rewrite (entry_np_kron G G N N C (identity N) h t g n HC HI Hh Ht Hgi Hmi).
        rewrite (entry_np_kron G G N N C (identity N) h t g' n' HC HI Hh Ht Hgj Hmj).
        unfold identity. rewrite !entry_tabulate by assumption.
        destruct (Nat.eqb_spec t n) as [->|Hne]; ring. }
  rewrite sum_to_mul_r. rewrite Ei, Ej.
  rewrite (entry_np_kron G G N N _ (identity N) g n g' n'
             (mx_shape _ _ _ HCC) HI Hgi Hmi Hgj Hmj).
  rewrite (entry_matmul_mx G G G _ C g g' HCt HCm Hgi Hgj).
  unfold identity. rewrite entry_tabulate by assumption.
  f_equal. apply sum_to_ext. intros h Hh.
  now rewrite (entry_transpose_mx G G C h g HCm Hgi).
Qed.

(** the stored factor of a built model squares to the pseudo-inverse of
    the covariance *)
Lemma stored_factor_product (sys : list equation) (sg : pyarg) (m : SysGLS) :
  SysGLS_init sys sg = inr m ->
  nrows (np_linalg_pinv (sigma m)) = length sys ->
  symmetric (np_linalg_pinv (sigma m)) ->
  (forall L i, np_linalg_cholesky (np_linalg_pinv (sigma m)) = inr L ->
     i < length sys -> sqrt_exact (pivot (np_linalg_pinv (sigma m)) L i)) ->
  matmul (np_transpose (cholsigmainv m)) (cholsigmainv m)
  = np_linalg_pinv (sigma m).
Proof.
  intros Hinit Hpinv Hsym Hsq.
  destruct (SysGLS_init_inv sys sg m Hinit) as [L [Hpool [_ [HL [HC _]]]]].
  destruct (SysModel_init_neqs sys (pool m) Hpool) as [_ Hne].
  assert (HG : 0 < length sys) by (destruct sys; [congruence|cbn; lia]).
  pose proof (cholesky_shape _ _ HL) as HLs. rewrite Hpinv in HLs.
  rewrite HC, (transpose_involutive _ _ L HLs HG HG).
  apply cholesky_factorization; [exact HL|exact Hsym|].
  intros i Hi. apply (Hsq L i HL). now rewrite <- Hpinv.
Qed.

(** X8: Whitening is sound.  When the pseudo-inverse of the covariance is
    symmetric and the square roots taken on the pivots are exact, the
    stored factor C satisfies C^T . C = pinv(covariance), as the class
    documents it, and the operator W = kron(C, I) that [whiten] applies
    satisfies W^T . W = kron(pinv(covariance), I): inner products of
    whitened data are inner products weighted by the precision of the
    system. *)
Theorem stored_factor_whitens_covariance
  (N : nat) (sys : list equation) (sg : pyarg) (m : SysGLS) :
  0 < N -> Forall (equation_with_nobs N) sys ->
  SysGLS_init sys sg = inr m ->
  nrows (np_linalg_pinv (sigma m)) = length sys ->
  symmetric (np_linalg_pinv (sigma m)) ->
  (forall L i, np_linalg_cholesky (np_linalg_pinv (sigma m)) = inr L ->
     i < length sys -> sqrt_exact (pivot (np_linalg_pinv (sigma m)) L i)) ->
  matmul (np_transpose (cholsigmainv m)) (cholsigmainv m)
  = np_linalg_pinv (sigma m) /\
  matmul (np_transpose (whitening_operator (cholsigmainv m) (nobs (pool m))))
         (whitening_operator (cholsigmainv m) (nobs (pool m)))
  = np_kron (np_linalg_pinv (sigma m)) (identity N).
Proof.
  intros HN Hall Hinit Hpinv Hsym Hsq.
  pose proof (stored_factor_product sys sg m Hinit Hpinv Hsym Hsq) as Hprod.
  split; [exact Hprod|].
  destruct (SysGLS_init_inv sys sg m Hinit) as [L [Hpool _]].
  destruct (SysModel_init_neqs sys (pool m) Hpool) as [Hneq Hne].
  assert (HG : 0 < length sys) by (destruct sys; [congruence|cbn; lia]).
  destruct (SysModel_init_built N sys Hne Hall) as [en [ex [_ [_ Hb]]]].
  assert (HNobs : nobs (pool m) = N).
  { rewrite Hpool in Hb. injection Hb as Hb. now rewrite Hb. }
  rewrite <- Hneq in Hpinv.
  destruct (cholsigmainv_shape sys sg m Hinit Hpinv) as [_ HCs].
  rewrite Hneq in HCs.
  rewrite HNobs, (operator_gram _ N _ HG HN HCs). now rewrite Hprod.
Qed.

(** X9: [fit] returns the generalized least squares estimate.  With X the
    block design, y the stacked response and P = kron(pinv(covariance), I)
    the precision of the stacked system, the estimate b solves the
    generalized normal equations X^T P X b = X^T P y.  The pseudo-inverse
    of the covariance is symmetric with exact square roots on its pivots,
    and [np.linalg.pinv] returns the Moore-Penrose pseudo-inverse of the
    whitened design. *)
Theorem fit_solves_generalized_normal_equations
  (N : nat) (sys : list equation) (sg : pyarg) (m : SysGLS) :
  0 < N -> Forall (usable_equation N) sys ->
  SysGLS_init sys sg = inr m ->
  nrows (np_linalg_pinv (sigma m)) = length sys ->
  symmetric (np_linalg_pinv (sigma m)) ->
  (forall L i, np_linalg_cholesky (np_linalg_pinv (sigma m)) = inr L ->
     i < length sys -> sqrt_exact (pivot (np_linalg_pinv (sigma m)) L i)) ->
  is_pinv (length sys * N) (total_cols (map eq_exog sys))
          (wexog m) (np_linalg_pinv (wexog m)) ->
  exists res,
    fit m = inr res /\
    sp_exog (pool m) = block_diag (map eq_exog sys) /\
    reshape_column (endog (pool m)) = as_column (concat (map eq_endog sys)) /\
    matmul (np_transpose (sp_exog (pool m)))
      (matmul (np_kron (np_linalg_pinv (sigma m)) (identity N))
         (matmul (sp_exog (pool m)) (params res)))
    = matmul (np_transpose (sp_exog (pool m)))
        (matmul (np_kron (np_linalg_pinv (sigma m)) (identity N))
           (reshape_column (endog (pool m)))).
Proof.
  intros HN Hall Hinit Hpinv Hsym Hsq Hpw.
  pose proof (stored_factor_product sys sg m Hinit Hpinv Hsym Hsq) as Hprod.
  destruct (SysGLS_init_inv sys sg m Hinit)
    as [L [Hpool [_ [_ [_ [Hwx [Hwy Hpi]]]]]]].
  destruct (SysModel_init_neqs sys (pool m) Hpool) as [Hneq Hne].
  assert (HG : 0 < length sys) by (destruct sys; [congruence|cbn; lia]).
  assert (Hall' : Forall (equation_with_nobs N) sys).
  { eapply Forall_impl; [|exact Hall]. now intros eq [H _]. }
  destruct (SysModel_init_built N sys Hne Hall') as [en [ex [Hen [_ Hb]]]].
  destruct (column_stack_1d_transpose N (map eq_endog sys) HN) as [en' [Hen' Ht]].
  { destruct sys; [congruence|discriminate]. }
  { exact (responses_length N sys Hall'). }
  rewrite Hen in Hen'. injection Hen' as <-.
  rewrite Hpool in Hb. injection Hb as Hb.
  rewrite <- Hneq in Hpinv.
  destruct (cholsigmainv_shape sys sg m Hinit Hpinv) as [_ HCs].
  rewrite Hneq in HCs.
  pose proof (operator_gram _ N _ HG HN HCs) as Hgram. rewrite Hprod in Hgram.
  destruct (whitening_operator_shape _ N _ HCs) as [HWs _].
  unfold whiten, whiten_with in Hwx, Hwy. rewrite Hb in Hwx, Hwy.
  cbn [nobs sp_exog endog] in Hwx, Hwy. rewrite Ht in Hwy.
  change (reshape_column (map eq_endog sys))
    with (as_column (concat (map eq_endog sys))) in Hwy.
  destruct (np_dot_inv _ _ _ Hwx) as [Ewx _].
  destruct (np_dot_inv _ _ _ Hwy) as [Ewy _].
  set (W := whitening_operator (cholsigmainv m) N) in *.
  set (X := blocks (map eq_exog sys)) in *.
  set (y := as_column (concat (map eq_endog sys))) in *.
  set (K := total_cols (map eq_exog sys)) in *.
  assert (HWm : mx (length sys * N) (length sys * N) W).
  { split; [nia|]. split; [nia|exact HWs]. }
  assert (HXm : mx (length sys * N) K X) by exact (mx_block_design N HN sys Hne Hall).
  assert (Hym : mx (length sys * N) 1 y).
  { apply mx_as_column; [nia|].
    rewrite (length_concat_uniform N), length_map; [reflexivity|].
    exact (responses_length N sys Hall'). }
  pose proof (mx_transpose _ _ _ HWm) as HWt.
  pose proof (mx_transpose _ _ _ HXm) as HXt.
  pose proof (mx_matmul _ _ _ _ _ HWm HXm) as HWX.
  pose proof (mx_matmul _ _ _ _ _ HWm Hym) as HWy.
  assert (Hbm : mx K 1 (matmul (np_linalg_pinv (wexog m)) (wendog m))).
  { destruct Hpw as [_ [HP _]]. rewrite Ewy.
    exact (mx_matmul _ _ _ _ _ HP HWy). }
  pose proof (pinv_normal_equations _ _ _ _ (wendog m) Hpw
                ltac:(rewrite Ewy; exact HWy)) as Hls.
  unfold least_squares_solution in Hls.
  set (b := matmul (np_linalg_pinv (wexog m)) (wendog m)) in *.
  assert (Hfit : fit m = inr {| model := m; params := b;
                               normalized_cov_params :=
                                 matmul (np_linalg_pinv (wexog m))
                                        (np_transpose (np_linalg_pinv (wexog m)));
                               scale := one |}).
  { unfold fit. rewrite Hpi.
    rewrite np_dot_aligned.
    - cbn [bind]. now rewrite np_dot_transpose_self.
    - destruct Hpw as [_ [HP _]]. rewrite (mx_ncols _ _ _ HP).
      rewrite Ewy. symmetry. exact (mx_length _ _ _ HWy). }
  eexists. split; [exact Hfit|]. cbn [params].
  rewrite Hb. cbn [sp_exog endog]. rewrite Ht.
  split; [destruct sys; [congruence|reflexivity]|]. split; [reflexivity|].
  fold X. change (reshape_column (map eq_endog sys)) with y.
  rewrite <- Hgram. fold W.
  rewrite Ewx, Ewy in Hls.
  rewrite (transpose_matmul _ _ _ W X HWm HXm) in Hls.
  pose proof (mx_matmul _ _ _ _ _ HXm Hbm) as HXb.
  rewrite (matmul_assoc _ _ _ _ (np_transpose X) (np_transpose W) _
             HXt HWt (mx_matmul _ _ _ _ _ HWX Hbm)) in Hls.
  rewrite (matmul_assoc _ _ _ _ W X b HWm HXm Hbm) in Hls.
  rewrite <- (matmul_assoc _ _ _ _ (np_transpose W) W (matmul X b) HWt HWm HXb) in Hls.
  rewrite (matmul_assoc _ _ _ _ (np_transpose X) (np_transpose W) (matmul W y)
             HXt HWt HWy) in Hls.
  rewrite <- (matmul_assoc _ _ _ _ (np_transpose W) W y HWt HWm Hym) in Hls.
  exact Hls.
Qed.

End Factorization.

(** ** Diagonal covariances

    With a diagonal covariance every routine of the constructor works
    equation by equation: the pseudo-inverse and its Cholesky factor are
    diagonal, and the whitening operator is block diagonal. *)

Lemma flat_map_zeros (n : nat) (b : vector) :
  flat_map (fun y => map (mul y) b) (np_zeros n) = np_zeros (n * length b).
Proof.
  induction n as [|n IH]; [reflexivity|].
  change (np_zeros (S n)) with (zero :: np_zeros n).
  cbn [flat_map Nat.mul]. rewrite IH. unfold np_zeros.
  rewrite repeat_app. f_equal.
  rewrite <- map_const_repeat. apply map_ext. intros y. ring.
Qed.

Lemma map_flat_map {A B C : Type} (f : B -> C) (g : A -> list B) (l : list A) :
  map f (flat_map g l) = flat_map (fun a => map f (g a)) l.
Proof.
  induction l as [|a l IH]; [reflexivity|].
  cbn [flat_map]. now rewrite map_app, IH.
Qed.

Lemma total_cols_uniform {T : Type} (f : T -> matrix) (t : list T) (N : nat) :
  (forall a, ncols (f a) = N) -> total_cols (map f t) = length t * N.
Proof.
  intros H. induction t as [|a t IH]; [reflexivity|].
  cbn [map length Nat.mul]. now rewrite total_cols_cons, IH, H.
Qed.

Lemma ncols_scaled_identity (N : nat) (x : num) :
  0 < N -> ncols (mscale x (identity N)) = N.
Proof.
  intros HN. rewrite ncols_mscale.
  apply (has_shape_ncols N N); [apply tabulate_shape|exact HN].
Qed.

(** the operator of a diagonal factor: one scaled identity per equation *)
Lemma whitening_operator_diagonal (N : nat) (s : vector) :
  0 < N ->
  whitening_operator (np_diag s) N
  = blocks (map (fun x => mscale x (identity N)) s).
Proof.
  intros HN. unfold whitening_operator. change (np_eye N) with (identity N).
  assert (HI : Forall (fun b => length b = N) (identity N)).
  { exact (proj2 (tabulate_shape N N _)). }
  induction s as [|x v IH]; [reflexivity|].
  cbn [np_diag map]. rewrite blocks_cons.
  rewrite (ncols_scaled_identity N x HN).
  rewrite (total_cols_uniform _ v N (fun y => ncols_scaled_identity N y HN)).
  rewrite <- IH. unfold np_kron at 1. cbn [flat_map].
  unfold diag2. f_equal.
  - unfold pad_right, mscale. rewrite map_map.
    apply map_ext_in. intros b Hb. cbn [flat_map].
    rewrite flat_map_zeros. rewrite Forall_forall in HI.
    now rewrite (HI b Hb).
  - unfold pad_left, np_kron. rewrite flat_map_concat_map, map_map.
    rewrite <- flat_map_concat_map. rewrite map_flat_map.
    apply flat_map_ext. intros a. rewrite map_map.
    apply map_ext_in. intros b Hb. cbn [flat_map]. f_equal.
    rewrite Forall_forall in HI. rewrite <- (HI b Hb).
    unfold np_zeros. rewrite <- map_const_repeat.
    apply map_ext. intros y. ring.
Qed.

(** block-diagonal scalings applied to a block-diagonal design and to a
    stacked response *)
Lemma matmul_scaled_block (N c : nat) (x : num) (X : matrix) :
  mx N c X -> matmul (mscale x (identity N)) X = mscale x X.
Proof.
  intros HX. now rewrite matmul_mscale_l, (matmul_identity_l N c X HX).
Qed.

Lemma mx_scaled_identity (N : nat) (x : num) :
  0 < N -> mx N N (mscale x (identity N)).
Proof. intros HN. apply mx_mscale. now apply mx_identity. Qed.

Lemma matmul_scaled_blocks {T : Type} (N : nat) (k : T -> num) (X : T -> matrix)
      (t : list T) :
  0 < N -> t <> [] ->
  Forall (fun a => mx N (ncols (X a)) (X a)) t ->
  mx (length t * N) (length t * N)
     (blocks (map (fun a => mscale (k a) (identity N)) t)) /\
  mx (length t * N) (total_cols (map X t)) (blocks (map X t)) /\
  total_cols (map (fun a => mscale (k a) (X a)) t) = total_cols (map X t) /\
  matmul (blocks (map (fun a => mscale (k a) (identity N)) t)) (blocks (map X t))
  = blocks (map (fun a => mscale (k a) (X a)) t).
Proof.
  intros HN Hne Hall. induction Hall as [|a t Ha Hall IH]; [congruence|].
  clear Hne. pose proof (mx_scaled_identity N (k a) HN) as HW.
  destruct t as [|a' t'].
  - cbn [map length Nat.mul]. rewrite !blocks_single, !total_cols_cons.
    change (total_cols []) with 0. rewrite !Nat.add_0_r, ncols_mscale.
    split; [exact HW|]. split; [exact Ha|]. split; [reflexivity|].
    exact (matmul_scaled_block N _ (k a) (X a) Ha).
  - destruct (IH ltac:(discriminate)) as [HWs [HXs [Htc HM]]].
    set (rest := a' :: t') in *.
    cbn [map length Nat.mul]. rewrite !blocks_cons, !total_cols_cons.
    rewrite (ncols_scaled_identity N (k a) HN), ncols_mscale, Htc.
    rewrite (total_cols_uniform _ rest N (fun b => ncols_scaled_identity N (k b) HN)).
    split; [exact (mx_diag2 _ _ _ _ _ _ HW HWs)|].
    split; [exact (mx_diag2 _ _ _ _ _ _ Ha HXs)|]. split; [reflexivity|].
    rewrite (matmul_diag2 _ _ _ _ _ _ _ _ _ _ HW HWs Ha HXs).
    now rewrite (matmul_scaled_block N _ (k a) (X a) Ha), HM.
Qed.

Lemma Forall2_map_map {T A B : Type} (R : A -> B -> Prop) (f : T -> A) (g : T -> B)
      (t : list T) :
  Forall (fun a => R (f a) (g a)) t -> Forall2 R (map f t) (map g t).
Proof. induction 1; cbn; constructor; assumption. Qed.

Lemma as_column_concat (ys : list vector) :
  as_column (concat ys) = concat (map as_column ys).
Proof. unfold as_column. apply concat_map. Qed.

Lemma matmul_scaled_stack {T : Type} (N : nat) (k : T -> num) (y : T -> vector)
      (t : list T) :
  0 < N -> t <> [] ->
  Forall (fun a => length (y a) = N) t ->
  matmul (blocks (map (fun a => mscale (k a) (identity N)) t))
         (as_column (concat (map y t)))
  = as_column (concat (map (fun a => vscale (k a) (y a)) t)).
Proof.
  intros HN Hne Hall.
  destruct (matmul_blocks_stack N (map (fun a => mscale (k a) (identity N)) t)
              (map y t) HN) as [_ [_ HM]].
  - apply Forall2_map_map. eapply Forall_impl; [|exact Hall].
    intros a Ha. split; [|exact Ha].
    pose proof (mx_scaled_identity N (k a) HN) as HW.
    now rewrite (mx_length _ _ _ HW).
  - destruct t; [congruence|discriminate].
  - rewrite HM, combine_map, map_map, as_column_concat, map_map. f_equal.
    apply map_ext_in. intros a Ha. cbn [fst snd].
    rewrite Forall_forall in Hall.
    rewrite (matmul_scaled_block N 1 (k a) _ (mx_as_column N (y a) HN (Hall a Ha))).
    unfold mscale, as_column, vscale. now rewrite !map_map.
Qed.

Lemma map_fst_combine {A B : Type} (u : list A) (v : list B) :
  length u = length v -> map fst (combine u v) = u.
Proof.
  revert v. induction u as [|a u IH]; intros [|b v] H; try discriminate H;
    [reflexivity|].
  cbn. f_equal. apply IH. now injection H.
Qed.

Lemma map_snd_combine {A B : Type} (u : list A) (v : list B) :
  length u = length v -> map snd (combine u v) = v.
Proof.
  revert v. induction u as [|a u IH]; intros [|b v] H; try discriminate H;
    [reflexivity|].
  cbn. f_equal. apply IH. now injection H.
Qed.

(** the diagonal matrix with entries [f 0, ..., f (G-1)] *)
Lemma diagonal_tabulate (v : vector) :
  diagonal v
  = tabulate (length v) (length v)
      (fun i j => if i =? j then nth i v zero else zero).
Proof. reflexivity. Qed.

Lemma diagonal_map (f : num -> num) (v : vector) :
  diagonal (map f v)
  = tabulate (length v) (length v)
      (fun i j => if i =? j then f (nth i v zero) else zero).
Proof.
  unfold diagonal. rewrite length_map. apply tabulate_ext.
  intros i j Hi _. destruct (i =? j); [|reflexivity].
  exact (nth_map_lt f v i zero zero Hi).
Qed.

Lemma mx_diag (G : nat) (f : nat -> num) :
  0 < G -> mx G G (tabulate G G (fun i j => if i =? j then f i else zero)).
Proof. intros HG. split; [exact HG|]. split; [exact HG|]. apply tabulate_shape. Qed.

Lemma transpose_diag (G : nat) (f : nat -> num) :
  0 < G ->
  np_transpose (tabulate G G (fun i j => if i =? j then f i else zero))
  = tabulate G G (fun i j => if i =? j then f i else zero).
Proof.
  intros HG. pose proof (mx_diag G f HG) as HD.
  apply (mx_ext G G); [exact (mx_transpose _ _ _ HD)|exact HD|].
  intros i j Hi Hj. rewrite (entry_transpose_mx G G _ j i HD Hi).
  rewrite !entry_tabulate by assumption.
  rewrite (Nat.eqb_sym j i). destruct (Nat.eqb_spec i j) as [->|]; reflexivity.
Qed.

Lemma matmul_diag (G : nat) (f g : nat -> num) :
  0 < G ->
  matmul (tabulate G G (fun i j => if i =? j then f i else zero))
         (tabulate G G (fun i j => if i =? j then g i else zero))
  = tabulate G G (fun i j => if i =? j then mul (f i) (g i) else zero).
Proof.
  intros HG. pose proof (mx_diag G f HG) as HF. pose proof (mx_diag G g HG) as HGm.
  apply (mx_ext G G); [exact (mx_matmul _ _ _ _ _ HF HGm)|exact (mx_diag G _ HG)|].
  intros i j Hi Hj. rewrite (entry_matmul_mx G G G _ _ i j HF HGm Hi Hj).
  rewrite entry_tabulate by assumption.
  rewrite (sum_to_ext G _
             (fun k => if k =? i
                       then (if i =? j then mul (f i) (g i) else zero)
                       else zero)).
  - exact (sum_to_delta G i (fun _ => if i =? j then mul (f i) (g i) else zero) Hi).
  - intros k Hk. rewrite !entry_tabulate by assumption.
    rewrite (Nat.eqb_sym k i).
    destruct (Nat.eqb_spec i k) as [<-|]; [|ring].
    destruct (i =? j); ring.
Qed.

Section Weighted.

Hypothesis num_field :
  field_theory zero one add mul sub opp div inv (@eq num).

Add Field num_field_weighted : num_field.

Lemma div_zero_l (x : num) : div zero x = zero.
Proof. rewrite (Fdiv_def num_field). ring. Qed.

(** the pseudo-inverse of a diagonal matrix without zeros on the
    diagonal *)
Lemma is_pinv_diag (G : nat) (f : nat -> num) :
  0 < G -> (forall i, i < G -> f i <> zero) ->
  is_pinv G G (tabulate G G (fun i j => if i =? j then f i else zero))
              (tabulate G G (fun i j => if i =? j then inv (f i) else zero)).
Proof.
  intros HG Hf.
  split; [exact (mx_diag G _ HG)|]. split; [exact (mx_diag G _ HG)|].
  rewrite !(matmul_diag G) by exact HG.
  rewrite !(transpose_diag G) by exact HG.
  split; [|split; [|split; reflexivity]].
  - apply tabulate_ext. intros i j Hi _. destruct (i =? j); [|reflexivity].
    field. now apply Hf.
  - apply tabulate_ext. intros i j Hi _. destruct (i =? j); [|reflexivity].
    field. now apply Hf.
Qed.

(** *** The Cholesky factor of a diagonal matrix *)

Section DiagonalFactor.

Variable G : nat.
Variable d : nat -> num.
Hypothesis d_pos : forall i, i < G -> ltb zero (d i) = true.

Let drow (f : nat -> num) (i : nat) : vector :=
  map (fun j => if i =? j then f i else zero) (seq 0 G).

Lemma nth_drow (f : nat -> num) (i j : nat) :
  j < G -> nth j (drow f i) zero = if i =? j then f i else zero.
Proof. intros Hj. unfold drow. now rewrite nth_map_seq. Qed.

Lemma drow_split (f : nat -> num) (i : nat) :
  i < G -> drow f i = np_zeros i ++ f i :: np_zeros (G - S i).
Proof.
  intros Hi. apply (nth_ext _ _ zero zero).
  - unfold drow. rewrite length_map, length_seq, length_app.
    cbn [length]. rewrite !length_np_zeros. lia.
  - intros j Hj. unfold drow in Hj. rewrite length_map, length_seq in Hj.
    rewrite nth_drow by exact Hj.
    destruct (Nat.lt_total j i) as [H|[H|H]].
    + rewrite app_nth1 by (rewrite length_np_zeros; lia).
      rewrite nth_zeros.
      now replace (i =? j) with false by (symmetry; apply Nat.eqb_neq; lia).
    + subst j. rewrite Nat.eqb_refl.
      rewrite app_nth2 by (rewrite length_np_zeros; lia).
      rewrite length_np_zeros, Nat.sub_diag. reflexivity.
    + replace (i =? j) with false by (symmetry; apply Nat.eqb_neq; lia).
      rewrite app_nth2 by (rewrite length_np_zeros; lia).
      rewrite length_np_zeros.
      destruct (j - i) as [|k] eqn:E; [lia|]. cbn [nth].
      symmetry. apply nth_zeros.
Qed.

Lemma chol_diag_offdiag (i m j : nat) :
  j + m <= i -> i < G ->
  fold_left (chol_offdiag (drow d i))
            (map (drow (fun t => sqrt (d t))) (seq j m)) (np_zeros j)
  = np_zeros (j + m).
Proof.
  revert j. induction m as [|m IH]; intros j Hjm Hi.
  - cbn. now rewrite Nat.add_0_r.
  - cbn [seq map fold_left]. unfold chol_offdiag at 2.
    rewrite length_np_zeros, vdot_zeros_l.
    rewrite !nth_drow by lia.
    replace (i =? j) with false by (symmetry; apply Nat.eqb_neq; lia).
    replace (sub zero zero) with zero by ring.
    rewrite div_zero_l, np_zeros_snoc.
    rewrite IH by lia. f_equal. lia.
Qed.

Lemma chol_rows_diag (k i : nat) :
  i + k = G ->
  chol_rows G (map (drow (fun t => sqrt (d t))) (seq 0 i)) (map (drow d) (seq i k))
  = inr (map (drow (fun t => sqrt (d t))) (seq 0 G)).
Proof.
  revert i. induction k as [|k IH]; intros i Hik.
  - cbn. now replace i with G by lia.
  - cbn [seq map chol_rows]. rewrite length_map, length_seq.
    pose proof (chol_diag_offdiag i i 0 ltac:(lia) ltac:(lia)) as Hcur.
    change (np_zeros 0) with (@nil num) in Hcur. cbn [Nat.add] in Hcur.
    rewrite !Hcur. clear Hcur.
    rewrite nth_drow by lia. rewrite Nat.eqb_refl.
    rewrite vdot_zeros_l.
    replace (sub (d i) zero) with (d i) by ring.
    rewrite (d_pos i) by lia.
    rewrite <- (drow_split (fun t => sqrt (d t))) by lia.
    specialize (IH (S i) ltac:(lia)).
    rewrite seq_S, map_app in IH. exact IH.
Qed.

Lemma cholesky_diag :
  np_linalg_cholesky (tabulate G G (fun i j => if i =? j then d i else zero))
  = inr (tabulate G G (fun i j => if i =? j then sqrt (d i) else zero)).
Proof.
  unfold np_linalg_cholesky.
  replace (forallb _ (tabulate G G _)) with true.
  - change (tabulate G G (fun i j => if i =? j then d i else zero))
      with (map (drow d) (seq 0 G)).
    unfold nrows. rewrite length_map, length_seq.
    exact (chol_rows_diag G 0 eq_refl).
  - symmetry. apply forallb_forall. intros row Hrow.
    destruct (tabulate_shape G G (fun i j => if i =? j then d i else zero))
      as [Hlen Hrows].
    rewrite Forall_forall in Hrows. apply Nat.eqb_eq.
    unfold nrows. now rewrite Hlen, (Hrows row Hrow).
Qed.

End DiagonalFactor.

Lemma Forall_combine {A B : Type} (P : A -> Prop) (Q : B -> Prop)
      (u : list A) (v : list B) :
  Forall P u -> Forall Q v ->
  Forall (fun a => P (fst a) /\ Q (snd a)) (combine u v).
Proof.
  intros Hu. revert v. induction Hu as [|a u Ha _ IH]; intros v Hv; [constructor|].
  destruct Hv as [|b v Hb Hv]; [constructor|].
  cbn [combine]. constructor; [now split|now apply IH].
Qed.

(** the fit of a model whose whitened data is the data scaled equation
    by equation: the scalings cancel in every block *)
Lemma weighted_fit_blocks (N : nat) (t : list (num * equation)) (m : SysGLS) :
  0 < N -> t <> [] ->
  Forall (fun a =>
            sqrt (inv (fst a)) <> zero /\
            (usable_equation N (snd a) /\
             is_pinv N (ncols (eq_exog (snd a))) (eq_exog (snd a))
                     (np_linalg_pinv (eq_exog (snd a))))) t ->
  pinv_wexog m = np_linalg_pinv (wexog m) ->
  wexog m
  = matmul (blocks (map (fun a => mscale (sqrt (inv (fst a))) (identity N)) t))
           (blocks (map (fun a => eq_exog (snd a)) t)) ->
  wendog m
  = matmul (blocks (map (fun a => mscale (sqrt (inv (fst a))) (identity N)) t))
           (as_column (concat (map (fun a => eq_endog (snd a)) t))) ->
  is_pinv (length t * N) (total_cols (map (fun a => eq_exog (snd a)) t))
          (wexog m) (np_linalg_pinv (wexog m)) ->
  exists r,
    fit m = inr r /\
    params r
    = concat (map (fun a => matmul (np_linalg_pinv (eq_exog (snd a)))
                                   (as_column (eq_endog (snd a)))) t).
Proof.
  intros HN Hne Hall Hpi Ewx Ewy Hpw.
  pose (k := fun a : num * equation => sqrt (inv (fst a))).
  pose (X := fun a : num * equation => eq_exog (snd a)).
  pose (y := fun a : num * equation => eq_endog (snd a)).
  pose (P := fun a : num * equation => np_linalg_pinv (eq_exog (snd a))).
  change (wexog m = matmul (blocks (map (fun a => mscale (k a) (identity N)) t))
                           (blocks (map X t))) in Ewx.
  change (wendog m = matmul (blocks (map (fun a => mscale (k a) (identity N)) t))
                            (as_column (concat (map y t)))) in Ewy.
  change (is_pinv (length t * N) (total_cols (map X t))
                  (wexog m) (np_linalg_pinv (wexog m))) in Hpw.
  change (Forall (fun a => k a <> zero /\
                           (usable_equation N (snd a) /\
                            is_pinv N (ncols (X a)) (X a) (P a))) t) in Hall.
  change (exists r, fit m = inr r /\
            params r = concat (map (fun a => matmul (P a) (as_column (y a))) t)).
  assert (HX : Forall (fun a => mx N (ncols (X a)) (X a)) t).
  { eapply Forall_impl; [|exact Hall]. intros a [_ [Hu _]].
    exact (usable_mx N HN _ Hu). }
  assert (Hy : Forall (fun a => length (y a) = N) t).
  { eapply Forall_impl; [|exact Hall]. now intros a [_ [[[H _] _] _]]. }
  destruct (matmul_scaled_blocks N k X t HN Hne HX) as [_ [_ [Htc HM]]].
  rewrite HM in Ewx.
  rewrite (matmul_scaled_stack N k y t HN Hne Hy) in Ewy.
  (* the pseudo-inverse of the whitened design, block by block *)
  assert (HF : Forall2 (fun A Q => is_pinv N (ncols A) A Q)
                       (map (fun a => mscale (k a) (X a)) t)
                       (map (fun a => mscale (inv (k a)) (P a)) t)).
  { apply Forall2_map_map. eapply Forall_impl; [|exact Hall].
    intros a [Hk [_ Hp]]. rewrite ncols_mscale.
    exact (is_pinv_mscale num_field _ _ (k a) _ _ Hk Hp). }
  pose proof (is_pinv_blocks N _ _ HF ltac:(destruct t; [congruence|discriminate]))
    as HB.
  rewrite length_map, Htc, <- Ewx in HB.
  pose proof (pinv_unique _ _ _ _ _ Hpw HB) as EP.
  (* the product with the whitened response *)
  assert (HF2 : Forall2 (fun Q v => mx (length Q) N Q /\ length v = N)
                        (map (fun a => mscale (inv (k a)) (P a)) t)
                        (map (fun a => vscale (k a) (y a)) t)).
  { apply Forall2_map_map. eapply Forall_impl; [|exact Hall].
    intros a [_ [[[Hya _] _] [_ [HPm _]]]]. split.
    - pose proof (mx_mscale _ _ (inv (k a)) _ HPm) as HQ.
      now rewrite (mx_length _ _ _ HQ).
    - unfold vscale. now rewrite length_map. }
  destruct (matmul_blocks_stack N _ _ HN HF2
              ltac:(destruct t; [congruence|discriminate])) as [_ [_ HM2]].
  assert (Hrows : nrows (wendog m) = length t * N).
  { rewrite Ewy. unfold nrows, as_column. rewrite length_map.
    rewrite (length_concat_uniform N), length_map; [reflexivity|].
    apply Forall_forall. intros v Hv. apply in_map_iff in Hv.
    destruct Hv as [a [<- Ha]]. unfold vscale. rewrite length_map.
    rewrite Forall_forall in Hy. now apply Hy. }
  unfold fit. rewrite Hpi.
  rewrite np_dot_aligned.
  2:{ destruct Hpw as [_ [HPm _]]. rewrite (mx_ncols _ _ _ HPm). now rewrite Hrows. }
  cbn [bind]. rewrite np_dot_transpose_self. cbn [bind ret].
  eexists. split; [reflexivity|]. cbn [params].
  rewrite EP, Ewy, HM2, combine_map, map_map. f_equal.
  apply map_ext_in. intros a Ha. cbn [fst snd].
  rewrite Forall_forall in Hall. destruct (Hall a Ha) as [Hk _].
  replace (as_column (vscale (k a) (y a))) with (mscale (k a) (as_column (y a)))
    by (unfold mscale, as_column, vscale; now rewrite !map_map).
  rewrite matmul_mscale_l, matmul_mscale_r, mscale_mscale.
  replace (mul (inv (k a)) (k a)) with one by (field; exact Hk).
  apply mscale_one.
Qed.

(** X14: weighted least squares estimates equation by equation.  For a
    list of G usable weights, [SysWLS] stores the covariance diagonal(w)
    and the factor diagonal(sqrt(1/w_i)), and the estimate [fit] returns
    is made of the estimates pinv(X_i) . y_i of the single equations, one
    after the other: the weights rescale each equation and cancel in its
    block, so they do not move the point estimates.  Arithmetic is exact
    (the numbers form a field); [np.linalg.pinv] returns the
    Moore-Penrose pseudo-inverse of the covariance, of the whitened
    design and of each regressor array. *)
Theorem wls_estimates_equation_by_equation
  (N : nat) (sys : list equation) (w : vector) (m : SysGLS) :
  0 < N -> Forall (usable_equation N) sys ->
  length w = length sys -> Forall usable_weight w ->
  SysWLS_init sys (PyList w) = inr m ->
  is_pinv (length sys) (length sys) (diagonal w) (np_linalg_pinv (diagonal w)) ->
  is_pinv (length sys * N) (total_cols (map eq_exog sys))
          (wexog m) (np_linalg_pinv (wexog m)) ->
  Forall (fun eq => is_pinv N (ncols (eq_exog eq)) (eq_exog eq)
                            (np_linalg_pinv (eq_exog eq))) sys ->
  sigma m = diagonal w /\
  cholsigmainv m = diagonal (map (fun x => sqrt (inv x)) w) /\
  exists r,
    fit m = inr r /\
    params r
    = concat (map (fun eq => matmul (np_linalg_pinv (eq_exog eq))
                                    (as_column (eq_endog eq))) sys).
Proof.
  intros HN Hall Hw Hwt Hinit Hps Hpw Hpx.
  unfold SysWLS_init in Hinit. cbn [np_asarray] in Hinit.
  rewrite Hw, Nat.eqb_refl in Hinit.
  destruct (SysGLS_init_inv sys _ m Hinit)
    as [L [Hpool [Hsig [HL [HC [Hwx [Hwy Hpi]]]]]]].
  destruct (SysModel_init_neqs sys (pool m) Hpool) as [Hneq Hne].
  assert (HG : 0 < length sys) by (destruct sys; [congruence|cbn; lia]).
  assert (Hall' : Forall (equation_with_nobs N) sys).
  { eapply Forall_impl; [|exact Hall]. now intros eq [H _]. }
  destruct (SysModel_init_built N sys Hne Hall') as [en [ex [Hen [_ Hb]]]].
  destruct (column_stack_1d_transpose N (map eq_endog sys) HN) as [en' [Hen' Ht]].
  { destruct sys; [congruence|discriminate]. }
  { exact (responses_length N sys Hall'). }
  rewrite Hen in Hen'. injection Hen' as <-.
  rewrite Hpool in Hb. injection Hb as Hb.
  (* the covariance *)
  rewrite Hneq, (resolve_sigma_np_diag _ w Hw) in Hsig.
  injection Hsig as Hsig. rewrite np_diag_diagonal in Hsig.
  (* its pseudo-inverse and the factor *)
  assert (Hnz : forall i, i < length sys -> nth i w zero <> zero).
  { intros i Hi. rewrite Forall_forall in Hwt.
    apply (Hwt (nth i w zero)), nth_In. lia. }
  assert (Hpos : forall i, i < length sys -> ltb zero (inv (nth i w zero)) = true).
  { intros i Hi. rewrite Forall_forall in Hwt.
    apply (Hwt (nth i w zero)), nth_In. lia. }
  assert (ED : diagonal w
               = tabulate (length sys) (length sys)
                   (fun i j => if i =? j then nth i w zero else zero)).
  { unfold diagonal. now rewrite Hw. }
  assert (HPd : is_pinv (length sys) (length sys) (diagonal w)
                  (tabulate (length sys) (length sys)
                     (fun i j => if i =? j then inv (nth i w zero) else zero))).
  { rewrite ED. exact (is_pinv_diag (length sys) (fun i => nth i w zero) HG Hnz). }
  pose proof (pinv_unique _ _ _ _ _ Hps HPd) as EP.
  assert (Hch : np_linalg_cholesky
                  (tabulate (length sys) (length sys)
                     (fun i j => if i =? j then inv (nth i w zero) else zero))
                = inr (tabulate (length sys) (length sys)
                         (fun i j => if i =? j then sqrt (inv (nth i w zero))
                                     else zero))).
  { exact (cholesky_diag (length sys) (fun i => inv (nth i w zero)) Hpos). }
  rewrite <- Hsig, EP, Hch in HL.
  injection HL as EL.
  assert (EC : cholsigmainv m = diagonal (map (fun x => sqrt (inv x)) w)).
  { rewrite HC, <- EL.
    rewrite (transpose_diag _ (fun i => sqrt (inv (nth i w zero))) HG).
    rewrite (diagonal_map (fun x => sqrt (inv x)) w). now rewrite Hw. }
  split; [now symmetry|]. split; [exact EC|].
  (* the whitened data *)
  unfold whiten, whiten_with in Hwx, Hwy. rewrite Hb in Hwx, Hwy.
  cbn [nobs sp_exog endog] in Hwx, Hwy. rewrite Ht in Hwy.
  change (reshape_column (map eq_endog sys))
    with (as_column (concat (map eq_endog sys))) in Hwy.
  destruct (np_dot_inv _ _ _ Hwx) as [Ewx _].
  destruct (np_dot_inv _ _ _ Hwy) as [Ewy _].
  rewrite EC, <- np_diag_diagonal, (whitening_operator_diagonal N _ HN) in Ewx, Ewy.
  (* weights and equations side by side *)
  set (t := combine w sys).
  assert (Ew : w = map fst t) by (symmetry; now apply map_fst_combine).
  assert (Es : sys = map snd t) by (symmetry; now apply map_snd_combine).
  assert (Hlen : length t = length sys).
  { subst t. rewrite length_combine. lia. }
  assert (Ht' : Forall (fun a =>
                   sqrt (inv (fst a)) <> zero /\
                   (usable_equation N (snd a) /\
                    is_pinv N (ncols (eq_exog (snd a))) (eq_exog (snd a))
                            (np_linalg_pinv (eq_exog (snd a))))) t).
  { subst t.
    apply (Forall_combine
             (fun x => sqrt (inv x) <> zero)
             (fun eq => usable_equation N eq /\
                        is_pinv N (ncols (eq_exog eq)) (eq_exog eq)
                                (np_linalg_pinv (eq_exog eq)))).
    - eapply Forall_impl; [|exact Hwt]. now intros x [_ [_ H]].
    - clear -Hall Hpx. induction Hall as [|eq l He _ IH]; [constructor|].
      inversion Hpx; subst. constructor; [now split|now apply IH]. }
  destruct (weighted_fit_blocks N t m HN) as [r [Hfit Hpar]].
  - destruct t; [|discriminate]. cbn in Hlen. lia.
  - exact Ht'.
  - exact Hpi.
  - rewrite Ewx. rewrite Ew at 1. rewrite Es at 1. now rewrite !map_map.
  - rewrite Ewy. rewrite Ew at 1. rewrite Es at 1. now rewrite !map_map.
  - rewrite Hlen. rewrite Es in Hpw at 2. now rewrite map_map in Hpw.
  - exists r. split; [exact Hfit|]. rewrite Hpar. rewrite Es at 1.
    now rewrite map_map.
Qed.

End Weighted.

End Algebra.

(** * The model run on concrete systems

    Exact rational instances of the theorems above, and the inputs on
    which two sentences of the specification fail. *)

Section ExactRuns.

#[local] Existing Instance Exact.scalar.
#[local] Existing Instance Exact.linalg.
Import Exact.

Lemma Qc_eqb_eq (x y : Qc) : Qc_eqb x y = true -> x = y.
Proof.
  unfold Qc_eqb. intros H. apply Qc_is_canon. now apply Qeq_bool_iff.
Qed.

Lemma vec_eqb_eq (u v : list Qc) : vec_eqb u v = true -> u = v.
Proof.
  unfold vec_eqb. revert v. induction u as [|x u IH]; intros [|y v]; cbn;
    try discriminate; [reflexivity|].
  intros H. apply andb_true_iff in H. destruct H as [Hl H].
  apply andb_true_iff in H. destruct H as [Hxy H].
  f_equal; [now apply Qc_eqb_eq|]. apply IH. now rewrite Hl.
Qed.

Lemma mx_eqb_eq (A B : list (list Qc)) : mx_eqb A B = true -> A = B.
Proof.
  unfold mx_eqb. revert B. induction A as [|a A IH]; intros [|b B]; cbn;
    try discriminate; [reflexivity|].
  intros H. apply andb_true_iff in H. destruct H as [Hl H].
  apply andb_true_iff in H. destruct H as [Hab H].
  f_equal; [now apply vec_eqb_eq|]. apply IH. now rewrite Hl.
Qed.



Lemma fit_is_pinv_least_squares_witness :
  fit m_ab
  = inr {| model := m_ab;
           params := matmul (np_linalg_pinv (wexog m_ab)) (wendog m_ab);
           normalized_cov_params :=
             matmul (np_linalg_pinv (wexog m_ab))
                    (np_transpose (np_linalg_pinv (wexog m_ab)));
           scale := one |}.
Proof.
  apply (fit_is_pinv_least_squares sys_ab sigma_21 m_ab); reflexivity.
Defined.


Lemma covariance_resolution_witness :
  resolve_sigma 2 (PyArray (Arr1 [q 3; q 5])) = inr (diagonal [q 3; q 5]).
Proof.
  apply (@covariance_resolution scalar Qcrt 2). reflexivity.
Defined.

Lemma sys_ab_nobs : Forall (equation_with_nobs 3) sys_ab.
Proof.
  repeat constructor.
Qed.

Lemma whitening_operator_structure_witness :
  matmul (np_transpose (cholsigmainv m_ab)) (cholsigmainv m_ab)
  = np_linalg_pinv (sigma m_ab).
Proof.
  destruct (@whitening_operator_structure scalar Qcrt linalg 3 sys_ab sigma_21 m_ab)
    as [L [_ [_ [_ [_ [_ [H _]]]]]]].
  - exact sys_ab_nobs.
  - reflexivity.
  - reflexivity.
  - intros L HL. vm_compute in HL. injection HL as <-.
    apply mx_eqb_eq. vm_compute. reflexivity.
  - exact H.
Defined.

Lemma block_design_placement_witness :
  entry (block_diag (map eq_exog sys_ab)) (1 * 3 + 2) (2 + 0)
  = entry (eq_exog eq_b) 2 0.
Proof.
  destruct (@block_design_placement scalar 3 sys_ab) as [base [_ [_ [_ [E [_ H]]]]]].
  - discriminate.
  - exact sys_ab_nobs.
  - rewrite <- E.
    destruct (H 1 ltac:(cbn; lia)) as [_ [H1 _]].
    apply (H1 2 0); cbn; lia.
Defined.

Lemma construction_rejects_witness :
  wls sys_ab (PyArray (Arr1 [q 1]))
  = inl (ValueError "weights is not correctly specified").
Proof.
  apply (proj1 (proj2 (proj2 (proj2
           (@construction_rejects_bad_configuration scalar linalg))))).
  cbn. lia.
Defined.

Lemma wls_is_gls_with_diagonal_witness :
  wls sys_ab (PyArray (Arr1 [q 2; q 3]))
  = gls sys_ab (PyArray (Arr2 (diagonal [q 2; q 3]))).
Proof.
  apply (@wls_is_gls_with_diagonal scalar linalg sys_ab [q 2; q 3]).
  reflexivity.
Defined.

Lemma plain_number_gls_vs_wls_witness :
  gls sys_ab (PyFloat (q 3))
  = inl (AttributeError "'float' object has no attribute 'shape'").
Proof.
  apply (proj1 (proj2 (@plain_number_gls_vs_wls scalar linalg sys_ab (q 3)))
           (pool_of (SysModel_init sys_ab))).
  reflexivity.
Defined.



Lemma whitening_fails_iff_cholesky_fails_witness :
  exists e, SysGLS_whitening base_c [[q 0]] = inl e /\ NumericalError e = true.
Proof.
  exists (LinAlgError "Matrix is not positive definite").
  destruct (proj1 (proj2 (@whitening_fails_iff_cholesky_fails scalar linalg base_c [[q 0]]))
             (LinAlgError "Matrix is not positive definite")) as [H1 H2].
  - reflexivity.
  - split; [exact H2|exact H1].
Defined.

Lemma numerical_error_as_specified_fails :
  ~ numerical_error_as_specified base_c [[q 0]].
Proof.
  intros [H _]. apply H; clear H.
  { exists (LinAlgError "Matrix is not positive definite"). now split. }
  assert (E : np_linalg_pinv [[q 0]] = [[q 0]]).
  { apply mx_eqb_eq. vm_compute. reflexivity. }
  rewrite E. split.
  - unfold symmetric. apply mx_eqb_eq. vm_compute. reflexivity.
  - intros x Hx. destruct x as [|x0 [|]]; try discriminate.
    assert (Eq : @quadratic_form scalar [[q 0]] [x0] = q 0).
    { cbv [quadratic_form map vdot].
      change (@mul scalar) with Qcmult. change (@add scalar) with Qcplus.
      change (@zero scalar) with 0%Qc. change (q 0) with 0%Qc.
      change (@eq Qc (x0 * (0 * x0 + 0) + 0)%Qc 0%Qc). ring. }
    rewrite Eq. reflexivity.
Qed.

(** symmetry is not checked: the pseudo-inverse [[1, -5], [0, 1]] of the
    covariance [[1, 5], [0, 1]] is not symmetric, its lower triangle is
    that of the identity, and the construction succeeds *)
Example asymmetric_pinv_is_accepted :
  ~ symmetric (np_linalg_pinv S_15) /\
  exists m, gls sys_cd (PyArray (Arr2 S_15)) = inr m.
Proof.
  split.
  - unfold symmetric. intros H.
    apply (f_equal (fun M => Qnum (this (@entry scalar M 0 1)))) in H.
    vm_compute in H. discriminate H.
  - exists (built (gls sys_cd (PyArray (Arr2 S_15)))). reflexivity.
Qed.

Lemma operator_as_specified_fails :
  ~ operator_as_specified (built (gls sys_cd sigma_21)).
Proof.
  set (m := built (gls sys_cd sigma_21)).
  assert (EG : neqs (pool m) = 2) by reflexivity.
  assert (EN : nobs (pool m) = 1) by reflexivity.
  assert (EP : np_linalg_pinv (sigma m) = [[q 1; q 1]; [q 1; q 2]]).
  { apply mx_eqb_eq. vm_compute. reflexivity. }
  assert (EW : whitening_operator (cholsigmainv m) 1 = [[q 1; q 1]; [q 0; q 1]]).
  { apply mx_eqb_eq. vm_compute. reflexivity. }
  intros [L [Hs [HLL Hop]]].
  rewrite EG in Hs. rewrite EN, EW in Hop. rewrite EP in HLL.
  clear EG EN EP EW. clearbody m.
  destruct Hs as [Hlen Hrows].
  destruct L as [|r0 [|r1 [|r2 L]]]; try discriminate Hlen.
  apply Forall_cons_iff in Hrows. destruct Hrows as [H0 Hrows].
  apply Forall_cons_iff in Hrows. destruct Hrows as [H1 _].
  clear Hlen.
  destruct r0 as [|a [|b [|b' r0]]]; try discriminate H0.
  destruct r1 as [|c [|d [|d' r1]]]; try discriminate H1.
  clear H0 H1.
  cbv [np_kron np_transpose identity tabulate column ncols hd flat_map map seq
       app nth length Nat.eqb] in Hop.
  cbv [matmul np_transpose column ncols hd map seq vdot nth length] in HLL.
  pose proof (f_equal (fun M => @entry scalar M 0 0) Hop) as Ha.
  pose proof (f_equal (fun M => @entry scalar M 0 1) Hop) as Hc.
  pose proof (f_equal (fun M => @entry scalar M 0 0) HLL) as H00.
  clear Hop HLL. cbv [entry nth] in Ha, Hc, H00.
  change (@mul scalar) with Qcmult in *. change (@one scalar) with 1%Qc in *.
  change (@add scalar) with Qcplus in *. change (@zero scalar) with 0%Qc in *.
  rewrite Qcmult_1_r in Ha, Hc. subst a c.
  apply (f_equal (fun x : Qc => Qnum (this x))) in H00.
  vm_compute in H00. discriminate H00.
Qed.

Lemma res_eqb_eq (r : result (list (list Qc))) (B : list (list Qc)) :
  res_eqb r B = true -> r = inr B.
Proof.
  destruct r as [e|A]; cbn; [discriminate|]. intros H. f_equal.
  now apply mx_eqb_eq.
Qed.

Lemma Qc_nonzero (x : Qc) : Qc_eqb x (q 0) = false -> x <> @zero scalar.
Proof.
  intros H E. subst x. vm_compute in H. discriminate H.
Qed.

Ltac exact_mx :=
  split; [vm_compute; lia
         |split; [vm_compute; lia
                 |apply has_shape_check; vm_compute; reflexivity]].

Ltac exact_pinv :=
  split; [exact_mx
         |split; [exact_mx
                 |split; [|split; [|split]];
                  apply mx_eqb_eq; vm_compute; reflexivity]].


Lemma gls_scale_invariance_witness :
  exists m' res res',
    gls sys_ab sigma_84 = inr m' /\
    wexog m' = mscale (sqrt (inv (q 4))) (wexog m_ab) /\
    fit m_ab = inr res /\ fit m' = inr res' /\
    params res' = params res.
Proof.
  apply (@gls_scale_invariance scalar Qcrt linalg Qcft
           sys_ab sigma_21 sigma_84 S_21 (q 4) m_ab 6 3).
  - apply Qc_nonzero. vm_compute. reflexivity.
  - apply Qc_nonzero. vm_compute. reflexivity.
  - reflexivity.
  - reflexivity.
  - reflexivity.
  - exact_pinv.
  - exact_pinv.
  - intros L HL. vm_compute in HL. injection HL as <-.
    apply res_eqb_eq. vm_compute. reflexivity.
  - exact_pinv.
  - exact_pinv.
Defined.

Lemma exact_zero_lt_one : @ltb scalar zero one = true.
Proof. reflexivity. Qed.

Lemma exact_sqrt_one : @sqrt scalar one = one.
Proof. apply Qc_eqb_eq. vm_compute. reflexivity. Qed.

Lemma exact_zero_div_one : @div scalar zero one = zero.
Proof. apply Qc_eqb_eq. vm_compute. reflexivity. Qed.

Lemma sys_ab_usable : Forall (usable_equation 3) sys_ab.
Proof.
  repeat constructor; try (apply has_shape_check; vm_compute; reflexivity).
Qed.

Lemma ols_decomposes_per_equation_witness :
  exists r m1 r1,
    fit m_ols = inr r /\ SysOLS_init [eq_b] = inr m1 /\ fit m1 = inr r1 /\
    firstn 1 (skipn 2 (params r)) = params r1 /\
    least_squares_solution (eq_exog eq_b) (as_column (eq_endog eq_b)) (params r1).
Proof.
  destruct (@ols_decomposes_per_equation scalar Qcrt linalg
              exact_zero_lt_one exact_sqrt_one exact_zero_div_one
              3 ltac:(lia) sys_ab PyNone m_ols) as [r [Hr H]].
  - exact sys_ab_usable.
  - reflexivity.
  - reflexivity.
  - exact_pinv.
  - exact_pinv.
  - exact_pinv.
  - constructor; [exact_pinv|constructor; [exact_pinv|constructor]].
  - destruct (H 1 ltac:(cbn; lia)) as [m1 [r1 [H1 [H2 [H3 [_ H5]]]]]].
    exists r, m1, r1. repeat split; assumption.
Defined.



(** *** The pooled arrays, the shapes and the checks *)

Lemma pooled_arrays_layout_witness :
  exists base,
    SysModel_init sys_ab = inr base /\ endog base = map eq_endog sys_ab.
Proof.
  destruct (@pooled_arrays_layout scalar 3 sys_ab) as [base [H1 [H2 _]]].
  - lia.
  - discriminate.
  - exact sys_ab_nobs.
  - exists base. split; assumption.
Defined.

Lemma unequal_observations_rejected_witness :
  exists msg, gls sys_uneven PyNone = inl (ValueError msg).
Proof.
  destruct (@unequal_observations_rejected scalar linalg sys_uneven eq_short PyNone)
    as [msg [_ [H _]]].
  - right. left. reflexivity.
  - left. vm_compute. lia.
  - exists msg. exact H.
Defined.

Lemma whiten_needs_stacked_rows_witness :
  whiten m_ab [[q 1]] = inl (ValueError "shapes not aligned").
Proof.
  destruct (@whiten_needs_stacked_rows scalar linalg sys_ab sigma_21 m_ab [[q 1]])
    as [_ H].
  - reflexivity.
  - reflexivity.
  - apply H. vm_compute. lia.
Defined.

Lemma design_rows_unchecked_witness :
  exists e, gls sys_e PyNone = inl e /\
    (NumericalError e = true \/ e = ValueError "shapes not aligned").
Proof.
  destruct (@design_rows_unchecked scalar linalg 3 2 sys_e PyNone (identity 1))
    as [_ H].
  - discriminate.
  - lia.
  - constructor; [|constructor]. split; [reflexivity|].
    apply has_shape_check. vm_compute. reflexivity.
  - reflexivity.
  - reflexivity.
  - exact H.
Defined.

Lemma whiten_is_linear_witness :
  whiten m_ab (madd X_6 Y_6)
  = inr (madd (matmul (whitening_operator (cholsigmainv m_ab) 3) X_6)
              (matmul (whitening_operator (cholsigmainv m_ab) 3) Y_6)).
Proof.
  destruct (@whiten_is_linear scalar Qcrt m_ab 6 1 X_6 Y_6
              (matmul (whitening_operator (cholsigmainv m_ab) 3) X_6)
              (matmul (whitening_operator (cholsigmainv m_ab) 3) Y_6) (q 2))
    as [H _].
  - apply has_shape_check. vm_compute. reflexivity.
  - apply has_shape_check. vm_compute. reflexivity.
  - reflexivity.
  - reflexivity.
  - exact H.
Defined.

Lemma built_model_shapes_witness :
  has_shape 6 3 (wexog m_ab) /\ has_shape 6 1 (wendog m_ab).
Proof.
  destruct (@built_model_shapes scalar linalg 3 sys_ab sigma_21 m_ab)
    as [_ [_ [_ [_ [_ [H1 H2]]]]]].
  - lia.
  - exact sys_ab_nobs.
  - reflexivity.
  - reflexivity.
  - split; [exact H1|exact H2].
Defined.

Lemma whitening_is_triangular_witness :
  entry (cholsigmainv m_ab) 1 0 = zero.
Proof.
  destruct (@whitening_is_triangular scalar Qcrt linalg 3 sys_ab sigma_21 m_ab)
    as [H _].
  - exact sys_ab_nobs.
  - reflexivity.
  - reflexivity.
  - apply H. lia.
Defined.

Lemma normalized_cov_params_is_gram_pinv_witness :
  exists res, fit m_ab = inr res /\ symmetric (normalized_cov_params res).
Proof.
  destruct (@normalized_cov_params_is_gram_pinv scalar Qcrt linalg
              sys_ab sigma_21 m_ab 6 3) as [res [H1 [_ [H2 _]]]].
  - reflexivity.
  - exact_pinv.
  - exists res. split; assumption.
Defined.

Lemma default_weights_are_ols_witness :
  wls sys_ab (PyFloat one) = SysOLS_init sys_ab.
Proof.
  exact (proj1 (@default_weights_are_ols scalar Qcrt linalg sys_ab)).
Defined.

Lemma ols_whitening_is_identity_witness :
  exists m, SysOLS_init sys_ab = inr m /\ wexog m = sp_exog (pool m).
Proof.
  destruct (@ols_whitening_is_identity scalar Qcrt linalg
              exact_zero_lt_one exact_sqrt_one exact_zero_div_one 3 sys_ab)
    as [m [H1 [_ [_ [H2 _]]]]].
  - lia.
  - discriminate.
  - exact sys_ab_usable.
  - exact_pinv.
  - exists m. split; assumption.
Defined.

(** *** The factor and the generalized normal equations *)

Lemma exact_ltb_irrefl : @ltb scalar zero zero = false.
Proof. reflexivity. Qed.

Lemma sigma_21_symmetric : symmetric (np_linalg_pinv (sigma m_ab)).
Proof. unfold symmetric. apply mx_eqb_eq. vm_compute. reflexivity. Qed.

Lemma sigma_21_pivots (L : matrix) (i : nat) :
  np_linalg_cholesky (np_linalg_pinv (sigma m_ab)) = inr L ->
  i < length sys_ab ->
  sqrt_exact (pivot (np_linalg_pinv (sigma m_ab)) L i).
Proof.
  intros HL Hi. vm_compute in HL. injection HL as <-.
  unfold sys_ab in Hi. cbn [length] in Hi.
  destruct i as [|[|i]]; [| |lia];
    unfold sqrt_exact; apply Qc_eqb_eq; vm_compute; reflexivity.
Qed.

Lemma stored_factor_whitens_covariance_witness :
  matmul (np_transpose (whitening_operator (cholsigmainv m_ab) (nobs (pool m_ab))))
         (whitening_operator (cholsigmainv m_ab) (nobs (pool m_ab)))
  = np_kron (np_linalg_pinv (sigma m_ab)) (identity 3).
Proof.
  destruct (@stored_factor_whitens_covariance scalar Qcrt linalg Qcft
              exact_ltb_irrefl 3 sys_ab sigma_21 m_ab) as [_ H].
  - lia.
  - exact sys_ab_nobs.
  - reflexivity.
  - reflexivity.
  - exact sigma_21_symmetric.
  - exact sigma_21_pivots.
  - exact H.
Defined.

Lemma fit_solves_generalized_normal_equations_witness :
  exists res,
    fit m_ab = inr res /\
    matmul (np_transpose (sp_exog (pool m_ab)))
      (matmul (np_kron (np_linalg_pinv (sigma m_ab)) (identity 3))
         (matmul (sp_exog (pool m_ab)) (params res)))
    = matmul (np_transpose (sp_exog (pool m_ab)))
        (matmul (np_kron (np_linalg_pinv (sigma m_ab)) (identity 3))
           (reshape_column (endog (pool m_ab)))).
Proof.
  destruct (@fit_solves_generalized_normal_equations scalar Qcrt linalg Qcft
              exact_ltb_irrefl 3 sys_ab sigma_21 m_ab)
    as [res [H1 [_ [_ H2]]]].
  - lia.
  - exact sys_ab_usable.
  - reflexivity.
  - reflexivity.
  - exact sigma_21_symmetric.
  - exact sigma_21_pivots.
  - exact_pinv.
  - exists res. split; assumption.
Defined.


(** *** Weighted least squares *)

Lemma w_49_usable : Forall usable_weight w_49.
Proof.
  constructor; [|constructor; [|constructor]];
    (split; [apply Qc_nonzero; vm_compute; reflexivity
            |split; [vm_compute; reflexivity
                    |apply Qc_nonzero; vm_compute; reflexivity]]).
Qed.

Lemma wls_estimates_equation_by_equation_witness :
  exists r,
    fit m_wls = inr r /\
    params r
    = concat (map (fun eq => matmul (np_linalg_pinv (eq_exog eq))
                                    (as_column (eq_endog eq))) sys_ab).
Proof.
  destruct (@wls_estimates_equation_by_equation scalar Qcrt linalg Qcft
              3 sys_ab w_49 m_wls) as [_ [_ H]].
  - lia.
  - exact sys_ab_usable.
  - reflexivity.
  - exact w_49_usable.
  - reflexivity.
  - exact_pinv.
  - exact_pinv.
  - constructor; [exact_pinv|constructor; [exact_pinv|constructor]].
  - exact H.
Defined.

End ExactRuns.
